(** * The SIL performance inliner (lib/SILOptimizer/Transforms/PerformanceInliner.cpp)

    A shallow embedding of the cost model, the constant tracker, the
    terminator folder, the profitability engine, the call-site collector
    and the inline driver, together with the properties of the
    natural-language specification that they satisfy or violate. *)

From Stdlib Require Import ZArith List Bool Lia String.
From stdpp Require Import base option list gmap.

Local Open Scope Z_scope.
Set Warnings "-register-all".

(** ** Machine integers

    [unsigned] is a 32-bit unsigned integer; a value of that type is kept as
    a [Z] in [0, 2^32) and every operation wraps explicitly.  [int] is the
    32-bit signed integer, wrapped in two's complement. *)

Module UInt.

Definition modulus : Z := 2 ^ 32.

(** Conversion to [unsigned]. *)
Definition wrap (z : Z) : Z := z mod modulus.

Definition add (a b : Z) : Z := wrap (a + b).
Definition sub (a b : Z) : Z := wrap (a - b).
Definition mul (a b : Z) : Z := wrap (a * b).
Definition div (a b : Z) : Z := a / b.

Definition in_range (z : Z) : Prop := 0 <= z < modulus.

End UInt.

Module SInt.

(** Conversion to [int]: the product of [testThreshold *= 2] is kept in
    two's complement. *)
Definition wrap (z : Z) : Z := (z + 2 ^ 31) mod 2 ^ 32 - 2 ^ 31.

Definition mul (a b : Z) : Z := wrap (a * b).

End SInt.

(** ** The constants of the cost model *)

Definition RemovedCallBenefit : Z := 80.
Definition ConstTerminatorBenefit : Z := 2.
Definition ConstCalleeBenefit : Z := 150.
Definition LoopBenefitFactor : Z := 40.
Definition TrivialFunctionThreshold : Z := 20.
Definition BlockLimitDenominator : Z := 10000.
Definition CallsToCalleeThreshold : Z := 1024.

(** ** The threshold of [isProfitableToInline]

    [blockMinus] is the expression
    [(NumCallerBlocks * NumCallerBlocks) / BlockLimitDenominator *
       NumCallerBlocks / BlockLimitDenominator]
    evaluated left to right on [unsigned]. *)

Definition blockMinus (NumCallerBlocks : Z) : Z :=
  UInt.div
    (UInt.mul
       (UInt.div (UInt.mul NumCallerBlocks NumCallerBlocks) BlockLimitDenominator)
       NumCallerBlocks)
    BlockLimitDenominator.

(** The statements that follow the walk of the callee: [Threshold] starts as
    [Benefit], is replaced by [testThreshold] in test mode, by the trivial
    ceiling in a thunk, and is otherwise reduced by [blockMinus]. *)

Definition computeThreshold
    (Benefit : Z) (testThreshold : Z) (callerIsThunk : bool)
    (NumCallerBlocks : Z) : Z :=
  let Threshold := Benefit in
  if 0 <=? testThreshold then UInt.wrap testThreshold
  else if callerIsThunk then TrivialFunctionThreshold
  else
    let blockMinus := blockMinus NumCallerBlocks in
    if UInt.add blockMinus TrivialFunctionThreshold <? Threshold
    then UInt.sub Threshold blockMinus
    else TrivialFunctionThreshold.

(** The cubic formula of the specification, on unbounded integers. *)
Definition cubicDecay (counter : Z) : Z :=
  counter * counter / BlockLimitDenominator * counter / BlockLimitDenominator.

(** ** The IR

    Functions, blocks and values are referred to by pointer in the source;
    here a pointer is an identifier into the stores of a [SILModule].  A
    [SILValue] is a possibly-null pointer to a value. *)

Abbreviation FuncId := positive (only parsing).
Abbreviation BlockId := positive (only parsing).
Abbreviation ValueId := positive (only parsing).
Abbreviation SILValue := (option positive) (only parsing).
Abbreviation APInt := Z (only parsing).
Abbreviation Projection := nat (only parsing).
Abbreviation EnumElementDecl := positive (only parsing).
Abbreviation SILType := positive (only parsing).

(** The builtins that [getBuiltinConst] distinguishes.  [BinaryPredicate]
    stands for every entry that Builtins.def declares with
    BUILTIN_BINARY_PREDICATE. *)
Inductive BuiltinValueKind :=
| BinaryPredicate (id : positive)
| SAddOver | UAddOver | SSubOver | USubOver | SMulOver | UMulOver
| SDiv | SRem | UDiv | URem
| And | AShr | LShr | Or | Shl | Xor
| Trunc | ZExt | SExt | TruncOrBitCast | ZExtOrBitCast | SExtOrBitCast
| OtherBuiltin (id : positive).

(** The instruction kinds the inliner looks at; every other kind is
    [OtherInst].  A terminator carries its successors. *)
Inductive ValueKind :=
| LoadInst
| StoreInst
| CopyAddrInst (isTakeOfSrc : bool)
| IntegerLiteralInst (value : APInt)
| BuiltinInst (ID : BuiltinValueKind)
| ApplyInst (hasSubstitutions : bool)
| TryApplyInst (hasSubstitutions : bool)
| FunctionRefInst (referenced : FuncId)
| PartialApplyInst
| ThinToThickFunctionInst
| EnumInst (element : EnumElementDecl)
| UpcastInst
| AddressProjectionInst (proj : Projection)
| ObjectProjectionInst (proj : Projection)
| CondBranchInst (TrueBB FalseBB : BlockId)
| SwitchValueInst (cases : list (SILValue * BlockId)) (DefaultBB : option BlockId)
| SwitchEnumInst (cases : list (EnumElementDecl * BlockId)) (DefaultBB : option BlockId)
| CheckedCastBranchInst (CastType : SILType) (SuccessBB FailureBB : BlockId)
| OtherInst (opcode : positive).

Record SILInstruction := {
  getKind : ValueKind;
  getOperands : list SILValue;
  (** the function that contains the instruction *)
  inst_getFunction : FuncId;
}.

Record SILArgument := {
  arg_getFunction : FuncId;
  arg_getIndex : nat;
  arg_isFunctionArg : bool;
}.

Inductive ValueBase :=
| VInstruction (ins : SILInstruction)
| VArgument (A : SILArgument).

Record SILBasicBlock := {
  bb_instructions : list ValueId;
  bb_predecessors : list BlockId;
}.

Inductive Inline_t := InlineDefault | NoInline | AlwaysInline.

Record SILFunction := {
  fn_blocks : list BlockId;
  getInlineStrategy : Inline_t;
  getSemanticsAttrs : list string;
  hasEffectsKind : bool;
  isGlobalInit : bool;
  isExternalDeclaration : bool;
  shouldOptimize : bool;
  isThunk : bool;
  isFragile : bool;
}.

Record SILModule := {
  mod_values : gmap positive ValueBase;
  mod_blocks : gmap positive SILBasicBlock;
  mod_functions : gmap positive SILFunction;
}.

(** A node of the dominator tree, with the block it stands for and its
    children in the tree's order. *)
Inductive DominanceInfoNode :=
| DINode (getBlock : BlockId) (children : list DominanceInfoNode).

(** ** Outcomes

    A [for (;;)] loop of the source is run on fuel, and a failed [assert]
    (or a null pointer that the source dereferences) stops the run. *)

Inductive Err := OutOfFuel | AssertionFailed.

Inductive Result (A : Type) :=
| Ok (a : A)
| Error (e : Err).
Arguments Ok {A} a.
Arguments Error {A} e.

Definition bind {A B} (c : Result A) (k : A -> Result B) : Result B :=
  match c with
  | Ok a => k a
  | Error e => Error e
  end.

Notation "'let*' x ':=' c 'in' k" := (bind c (fun x => k))
  (at level 10, x pattern, c at level 100, k at level 200).

Definition assert (b : bool) : Result unit :=
  if b then Ok tt else Error AssertionFailed.

Definition deref {A} (o : option A) : Result A :=
  match o with
  | Some a => Ok a
  | None => Error AssertionFailed
  end.

(** ** Queries on the IR *)

Section IR.

Variable M : SILModule.

(** [dyn_cast<SILInstruction>(val)] *)
Definition asInstruction (val : SILValue) : option SILInstruction :=
  match val with
  | Some v =>
      match mod_values M !! v with
      | Some (VInstruction ins) => Some ins
      | _ => None
      end
  | None => None
  end.

(** [dyn_cast<SILArgument>(val)] *)
Definition asArgument (val : SILValue) : option SILArgument :=
  match val with
  | Some v =>
      match mod_values M !! v with
      | Some (VArgument A) => Some A
      | _ => None
      end
  | None => None
  end.

Definition getInstruction (i : ValueId) : Result SILInstruction :=
  deref (asInstruction (Some i)).

Definition getFunction (f : FuncId) : Result SILFunction :=
  deref (mod_functions M !! f).

Definition getBasicBlock (b : BlockId) : Result SILBasicBlock :=
  deref (mod_blocks M !! b).

(** [ins->getOperand(n)]; a missing operand reads as the null value. *)
Definition getOperand (ins : SILInstruction) (n : nat) : SILValue :=
  match getOperands ins !! n with
  | Some v => v
  | None => None
  end.

(** [FullApplySite::isa] *)
Definition isFullApplySite (ins : SILInstruction) : bool :=
  match getKind ins with
  | ApplyInst _ | TryApplyInst _ => true
  | _ => false
  end.

Definition isApplyInst (ins : SILInstruction) : bool :=
  match getKind ins with
  | ApplyInst _ => true
  | _ => false
  end.

Definition hasSubstitutions (ins : SILInstruction) : bool :=
  match getKind ins with
  | ApplyInst s | TryApplyInst s => s
  | _ => false
  end.

(** [AI.getCallee()] is the first operand, [AI.getArguments()] the others. *)
Definition getCallee (ins : SILInstruction) : SILValue := getOperand ins 0.
Definition getArguments (ins : SILInstruction) : list SILValue := tail (getOperands ins).
Definition getArgument (ins : SILInstruction) (n : nat) : SILValue := getOperand ins (S n).

(** [AI.getReferencedFunction()]: the callee when it is a [function_ref]. *)
Definition getReferencedFunction (ins : SILInstruction) : option FuncId :=
  match asInstruction (getCallee ins) with
  | Some FRI =>
      match getKind FRI with
      | FunctionRefInst f => Some f
      | _ => None
      end
  | None => None
  end.

(** [BB->getSinglePredecessor()] *)
Definition getSinglePredecessor (BB : SILBasicBlock) : option BlockId :=
  match bb_predecessors BB with
  | [p] => Some p
  | _ => None
  end.

(** [BB->getTerminator()]: the last instruction of the block. *)
Definition getTerminator (BB : SILBasicBlock) : Result SILInstruction :=
  let* i := deref (last (bb_instructions BB)) in
  getInstruction i.

(** [F->size()] as the source uses it, converted to [unsigned]. *)
Definition fn_size (F : SILFunction) : Z :=
  UInt.wrap (Z.of_nat (length (fn_blocks F))).

Definition fn_empty (F : SILFunction) : bool :=
  match fn_blocks F with [] => true | _ => false end.

Definition hasSemanticsAttrs (F : SILFunction) : bool :=
  match getSemanticsAttrs F with [] => false | _ => true end.

Definition hasSemanticsAttrThatStartsWith (F : SILFunction) (s : string) : bool :=
  existsb (String.prefix s) (getSemanticsAttrs F).

End IR.

(** ** External collaborators

    What the inliner calls but does not define: the regular cost table, the
    constant folders of ConstantFolding.h, the aggregate query of
    Projection.h, the type queries of a checked cast and the scan for
    dynamic Self. *)

Record Externals := {
  instructionInlineCost : SILInstruction -> Z;
  constantFoldComparison : APInt -> APInt -> BuiltinValueKind -> APInt;
  constantFoldBinaryWithOverflow : APInt -> APInt -> BuiltinValueKind -> APInt;
  constantFoldDiv : APInt -> APInt -> BuiltinValueKind -> APInt;
  constantFoldBitOperation : APInt -> APInt -> BuiltinValueKind -> APInt;
  constantFoldCast : APInt -> BuiltinValueKind -> APInt;
  getOperandForAggregate : Projection -> SILInstruction -> SILValue;
  getType : SILValue -> SILType;
  isExactSuperclassOf : SILType -> SILType -> bool;
  isBindableToSuperclassOf : SILType -> SILType -> bool;
  computeMayBindDynamicSelf : SILFunction -> bool;
}.

(** The analyses handed to the pass: the dominator tree and the loop depths
    of every function, and the slow-path classification of CFG edges. *)
Record Analyses := {
  DA_get : FuncId -> DominanceInfoNode;
  LI_getLoopDepth : FuncId -> BlockId -> Z;
  isSlowPath : BlockId -> BlockId -> bool;
}.

(** ** IntConst *)

Record IntConst := {
  value : APInt;
  isValid : bool;
  isFromCaller : bool;
}.

(** [IntConst()] *)
Definition IntConst_invalid : IntConst :=
  {| value := 0; isValid := false; isFromCaller := false |}.

(** [IntConst(value, isFromCaller)] *)
Definition IntConst_make (v : APInt) (fromCaller : bool) : IntConst :=
  {| value := v; isValid := true; isFromCaller := fromCaller |}.

(** ** ConstantTracker

    A tracker of a callee points to the tracker of the caller; the callee's
    tracker only reads it, so the pointer is kept as the caller's tracker
    itself.  An absent key of a map stands for a null entry. *)

Inductive ConstantTracker := mkConstantTracker {
  links : gmap positive positive;
  memoryContent : gmap (option positive) positive;
  constCache : gmap positive IntConst;
  F : FuncId;
  callerTracker : option ConstantTracker;
  AI : option ValueId;
}.

(** [ConstantTracker(function)] *)
Definition ConstantTracker_caller (function : FuncId) : ConstantTracker :=
  mkConstantTracker ∅ ∅ ∅ function None None.

(** [ConstantTracker(function, caller, callerApply)] *)
Definition ConstantTracker_callee
    (function : FuncId) (caller : ConstantTracker) (callerApply : ValueId)
  : ConstantTracker :=
  mkConstantTracker ∅ ∅ ∅ function (Some caller) (Some callerApply).

Definition set_links (T : ConstantTracker) (l : gmap positive positive) :=
  mkConstantTracker l (memoryContent T) (constCache T) (F T) (callerTracker T) (AI T).
Definition set_memoryContent (T : ConstantTracker) (m : gmap (option positive) positive) :=
  mkConstantTracker (links T) m (constCache T) (F T) (callerTracker T) (AI T).
Definition set_constCache (T : ConstantTracker) (c : gmap positive IntConst) :=
  mkConstantTracker (links T) (memoryContent T) c (F T) (callerTracker T) (AI T).

Definition beginBlock (T : ConstantTracker) : ConstantTracker :=
  set_memoryContent T ∅.

Fixpoint getMemoryContent (T : ConstantTracker) (addr : SILValue) : option ValueId :=
  match memoryContent T !! addr with
  | Some storeInst => Some storeInst
  | None =>
      match callerTracker T with
      | Some caller => getMemoryContent caller addr
      | None => None
      end
  end.

Section Tracker.

Variable E : Externals.
Variable M : SILModule.
(** the bound on the iterations of each [for (;;)] loop *)
Variable fuel : nat.

Definition isAddressProjection (addr : SILValue) : option (SILInstruction * Projection) :=
  match asInstruction M addr with
  | Some ins =>
      match getKind ins with
      | AddressProjectionInst p => Some (ins, p)
      | _ => None
      end
  | None => None
  end.

Definition isObjectProjection (ins : SILInstruction) : option Projection :=
  match getKind ins with
  | ObjectProjectionInst p => Some p
  | _ => None
  end.

Definition getParam (T : ConstantTracker) (val : SILValue) : SILValue :=
  match asArgument M val, AI T with
  | Some arg, Some ai =>
      if arg_isFunctionArg arg && bool_decide (arg_getFunction arg = F T)
      then match asInstruction M (Some ai) with
           | Some apply => getArgument apply (arg_getIndex arg)
           | None => None
           end
      else None
  | _, _ => None
  end.

(** The projections are returned in the order of [push_back]. *)
Fixpoint scanProjections_loop (n : nat) (T : ConstantTracker)
    (addr : SILValue) (projections : list Projection)
  : Result (SILValue * list Projection) :=
  match n with
  | O => Error OutOfFuel
  | S n' =>
      match isAddressProjection addr with
      | Some (ins, p) =>
          scanProjections_loop n' T (getOperand ins 0) (projections ++ [p])
      | None =>
          match getParam T addr with
          | Some param => scanProjections_loop n' T (Some param) projections
          | None => Ok (addr, projections)
          end
      end
  end.

Definition scanProjections (T : ConstantTracker) (addr : SILValue)
  : Result (SILValue * list Projection) :=
  scanProjections_loop fuel T addr [].

Definition trackInst (T : ConstantTracker) (inst : ValueId) : Result ConstantTracker :=
  let* ins := getInstruction M inst in
  match getKind ins with
  | LoadInst =>
      let* (baseAddr, _) := scanProjections T (getOperand ins 0) in
      match getMemoryContent T baseAddr with
      | Some loadLink => Ok (set_links T (<[inst := loadLink]> (links T)))
      | None => Ok T
      end
  | StoreInst =>
      let* (baseAddr, _) := scanProjections T (getOperand ins 1) in
      Ok (set_memoryContent T (<[baseAddr := inst]> (memoryContent T)))
  | CopyAddrInst isTakeOfSrc =>
      if negb isTakeOfSrc then
        let* (loadAddr, _) := scanProjections T (getOperand ins 0) in
        match getMemoryContent T loadAddr with
        | Some loadLink =>
            let T1 := set_links T (<[inst := loadLink]> (links T)) in
            let* (storeAddr, _) := scanProjections T1 (getOperand ins 1) in
            Ok (set_memoryContent T1 (<[storeAddr := inst]> (memoryContent T1)))
        | None => Ok T
        end
      else Ok T
  | _ => Ok T
  end.

(** The loop that pops the projections of the store, last one first, from
    the projection stack; the stack has its back at the head of the list.
    The loop stops at the first projection that does not match, with the
    stack as it is then. *)
Fixpoint popProjections (storeProjectionsRev : list Projection)
    (projStack : list Projection) : bool * list Projection :=
  match storeProjectionsRev with
  | [] => (true, projStack)
  | proj :: rest =>
      match projStack with
      | back :: below =>
          if bool_decide (back = proj) then popProjections rest below
          else (false, projStack)
      | [] => (false, projStack)
      end
  end.

Definition isLoadOrCopyAddr (ins : SILInstruction) : bool :=
  match getKind ins with
  | LoadInst | CopyAddrInst _ => true
  | _ => false
  end.

Fixpoint getStoredValue_loop (n : nat) (T : ConstantTracker)
    (loadInst : ValueId) (projStack : list Projection)
  : Result (SILValue * list Projection) :=
  match n with
  | O => Error OutOfFuel
  | S n' =>
      let store :=
        match links T !! loadInst with
        | Some s => Some s
        | None =>
            match callerTracker T with
            | Some caller => links caller !! loadInst
            | None => None
            end
        end in
      match store with
      | None => Ok (None, projStack)
      | Some store =>
          let* load := getInstruction M loadInst in
          let* _ := assert (isLoadOrCopyAddr load) in
          let* (_, loadProjections) := scanProjections T (getOperand load 0) in
          let projStack := fold_left (fun s p => p :: s) loadProjections projStack in
          let* storeI := getInstruction M store in
          let* (_, storeProjections) := scanProjections T (getOperand storeI 1) in
          let '(matched, projStack) :=
            popProjections (rev storeProjections) projStack in
          if matched then
            match getKind storeI with
            | StoreInst => Ok (getOperand storeI 0, projStack)
            | CopyAddrInst _ => getStoredValue_loop n' T store projStack
            | _ => Error AssertionFailed
            end
          else Ok (None, projStack)
      end
  end.

Definition getStoredValue := getStoredValue_loop fuel.

(** [getMember]: the aggregate member named by the top of the stack. *)
Definition getMember (inst : SILInstruction) (projStack : list Projection) : SILValue :=
  match projStack with
  | proj :: _ => getOperandForAggregate E proj inst
  | [] => None
  end.

Definition isThinToThickFunctionInst (inst : SILInstruction) : bool :=
  match getKind inst with
  | ThinToThickFunctionInst => true
  | _ => false
  end.

(** [getDef(val, projStack)]: the loop that tracks the value up the
    dominator tree; the result is the defining instruction or null. *)
Fixpoint getDef_loop (n : nat) (T : ConstantTracker)
    (val : SILValue) (projStack : list Projection) : Result (option ValueId) :=
  match n with
  | O => Error OutOfFuel
  | S n' =>
      match val, asInstruction M val with
      | Some id, Some inst =>
          match isObjectProjection inst with
          | Some proj => getDef_loop n' T (getOperand inst 0) (proj :: projStack)
          | None =>
              match getMember inst projStack with
              | Some member => getDef_loop n' T (Some member) (tail projStack)
              | None =>
                  let* (loadedVal, projStack) := getStoredValue T id projStack in
                  match loadedVal with
                  | Some loaded => getDef_loop n' T (Some loaded) projStack
                  | None =>
                      if isThinToThickFunctionInst inst
                      then getDef_loop n' T (getOperand inst 0) projStack
                      else Ok (Some id)
                  end
              end
          end
      | _, _ =>
          match getParam T val with
          | Some param => getDef_loop n' T (Some param) projStack
          | None => Ok None
          end
      end
  end.

(** [getDef(val)] *)
Definition getDef (T : ConstantTracker) (val : SILValue) : Result (option ValueId) :=
  getDef_loop fuel T val [].

(** [getDefInCaller(val)] *)
Definition getDefInCaller (T : ConstantTracker) (val : SILValue)
  : Result (option (ValueId * SILInstruction)) :=
  let* def := getDef T val in
  match def with
  | Some d =>
      let* inst := getInstruction M d in
      if negb (bool_decide (inst_getFunction inst = F T))
      then Ok (Some (d, inst))
      else Ok None
  | None => Ok None
  end.

(** The body of [getBuiltinConst], over the evaluation of the operands
    ([getIntConst] at the depth that was passed in). *)
Definition getBuiltinConst_body
    (getIntConst : ConstantTracker -> SILValue -> Result (IntConst * ConstantTracker))
    (T : ConstantTracker) (BI : SILInstruction) (ID : BuiltinValueKind)
  : Result (IntConst * ConstantTracker) :=
  let binary (fold : APInt -> APInt -> BuiltinValueKind -> APInt) (divisor : bool) :=
    let* (lhs, T) := getIntConst T (getOperand BI 0) in
    let* (rhs, T) := getIntConst T (getOperand BI 1) in
    if isValid lhs && isValid rhs && (negb divisor || negb (value rhs =? 0))
    then Ok (IntConst_make (fold (value lhs) (value rhs) ID)
               (isFromCaller lhs || isFromCaller rhs), T)
    else Ok (IntConst_invalid, T) in
  match ID with
  | BinaryPredicate _ => binary (constantFoldComparison E) false
  | SAddOver | UAddOver | SSubOver | USubOver | SMulOver | UMulOver =>
      binary (constantFoldBinaryWithOverflow E) false
  | SDiv | SRem | UDiv | URem => binary (constantFoldDiv E) true
  | And | AShr | LShr | Or | Shl | Xor => binary (constantFoldBitOperation E) false
  | Trunc | ZExt | SExt | TruncOrBitCast | ZExtOrBitCast | SExtOrBitCast =>
      let* (val, T) := getIntConst T (getOperand BI 0) in
      if isValid val
      then Ok (IntConst_make (constantFoldCast E (value val) ID) (isFromCaller val), T)
      else Ok (IntConst_invalid, T)
  | OtherBuiltin _ => Ok (IntConst_invalid, T)
  end.

(** [getIntConst(val, depth)] by recursion on [10 - depth]. *)
Fixpoint getIntConst_upto (depthLeft : nat) (T : ConstantTracker) (val : SILValue)
  : Result (IntConst * ConstantTracker) :=
  match depthLeft with
  | O => Ok (IntConst_invalid, T)
  | S depthLeft' =>
      let* def := getDef T val in
      match def with
      | None => Ok (IntConst_invalid, T)
      | Some d =>
          let* inst := getInstruction M d in
          match getKind inst with
          | IntegerLiteralInst v =>
              Ok (IntConst_make v (negb (bool_decide (inst_getFunction inst = F T))), T)
          | BuiltinInst ID =>
              match constCache T !! d with
              | Some cached => Ok (cached, T)
              | None =>
                  let* (builtinConst, T) :=
                    getBuiltinConst_body (getIntConst_upto depthLeft') T inst ID in
                  Ok (builtinConst, set_constCache T (<[d := builtinConst]> (constCache T)))
              end
          | _ => Ok (IntConst_invalid, T)
          end
      end
  end.

Definition getIntConst (T : ConstantTracker) (val : SILValue) (depth : nat)
  : Result (IntConst * ConstantTracker) :=
  getIntConst_upto (10 - depth) T val.

Definition getBuiltinConst (T : ConstantTracker) (BI : SILInstruction)
    (ID : BuiltinValueKind) (depth : nat) : Result (IntConst * ConstantTracker) :=
  getBuiltinConst_body (getIntConst_upto (10 - depth)) T BI ID.

End Tracker.

(** ** Terminator folding *)

Section TerminatorFolding.

Variable E : Externals.
Variable M : SILModule.
Variable fuel : nat.

(** The loop of [getTakenBlock] over the cases of a [switch_value]:
    [Some r] when the loop returns [r], [None] when it runs to its end. *)
Fixpoint switchValueCases (cases : list (SILValue * BlockId)) (switchConst : APInt)
  : option (option BlockId) :=
  match cases with
  | [] => None
  | (caseValue, caseBB) :: rest =>
      match asInstruction M caseValue with
      | Some IL =>
          match getKind IL with
          | IntegerLiteralInst v =>
              if switchConst =? v then Some (Some caseBB)
              else switchValueCases rest switchConst
          | _ => Some None
          end
      | None => Some None
      end
  end.

Fixpoint switchEnumCases (cases : list (EnumElementDecl * BlockId))
    (element : EnumElementDecl) : option BlockId :=
  match cases with
  | [] => None
  | (caseElement, caseBB) :: rest =>
      if bool_decide (caseElement = element) then Some caseBB
      else switchEnumCases rest element
  end.

(** The choice that [getTakenBlock] makes for a [cond_br] or a
    [switch_value] once the constant of its operand is known. *)
Definition takenBlockOfConst (term : SILInstruction) (c : IntConst) : option BlockId :=
  match getKind term with
  | CondBranchInst TrueBB FalseBB =>
      if isFromCaller c
      then Some (if negb (value c =? 0) then TrueBB else FalseBB)
      else None
  | SwitchValueInst cases DefaultBB =>
      if isFromCaller c then
        match switchValueCases cases (value c) with
        | Some result => result
        | None => DefaultBB
        end
      else None
  | _ => None
  end.

Definition getTakenBlock (T : ConstantTracker) (term : SILInstruction)
  : Result (option BlockId * ConstantTracker) :=
  match getKind term with
  | CondBranchInst _ _ | SwitchValueInst _ _ =>
      let* (c, T) := getIntConst E M fuel T (getOperand term 0) 0 in
      Ok (takenBlockOfConst term c, T)
  | SwitchEnumInst cases DefaultBB =>
      let* def := getDefInCaller E M fuel T (getOperand term 0) in
      match def with
      | Some (_, EI) =>
          match getKind EI with
          | EnumInst element =>
              match switchEnumCases cases element with
              | Some caseBB => Ok (Some caseBB, T)
              | None => Ok (DefaultBB, T)
              end
          | _ => Ok (None, T)
          end
      | None => Ok (None, T)
      end
  | CheckedCastBranchInst CastType SuccessBB FailureBB =>
      let* def := getDefInCaller E M fuel T (getOperand term 0) in
      match def with
      | Some (_, UCI) =>
          match getKind UCI with
          | UpcastInst =>
              let castType := getType E (getOperand UCI 0) in
              if isExactSuperclassOf E CastType castType then Ok (Some SuccessBB, T)
              else if negb (isBindableToSuperclassOf E castType CastType)
                   then Ok (Some FailureBB, T)
                   else Ok (None, T)
          | _ => Ok (None, T)
          end
      | None => Ok (None, T)
      end
  | _ => Ok (None, T)
  end.

End TerminatorFolding.

(** ** DominanceOrder

    Modelled from the spec: the class [DominanceOrder] of
    SILOptimizer/Utils/Local.h is not part of the sources.  It is the
    worklist of a traversal in dominance order, root first: [getNext] takes
    the next block of the buffer, [pushChildrenIf] appends the children of
    a block in the dominator tree that satisfy a predicate, in the tree's
    order, and [pushChildren] appends them all.  The buffer holds the
    tree node of each block. *)

Fixpoint node_size (n : DominanceInfoNode) : nat :=
  match n with
  | DINode _ children => S (list_sum (map node_size children))
  end.

Definition forest_size (buffer : list DominanceInfoNode) : nat :=
  list_sum (map node_size buffer).

Definition node_block (n : DominanceInfoNode) : BlockId :=
  match n with DINode b _ => b end.

Definition node_children (n : DominanceInfoNode) : list DominanceInfoNode :=
  match n with DINode _ children => children end.

(** [DT->getNode(block)] *)
Fixpoint getNode (n : DominanceInfoNode) (block : BlockId) {struct n}
  : option DominanceInfoNode :=
  match n with
  | DINode b children =>
      if bool_decide (b = block) then Some n
      else
        (fix search (l : list DominanceInfoNode) : option DominanceInfoNode :=
           match l with
           | [] => None
           | c :: rest =>
               match getNode c block with
               | Some found => Some found
               | None => search rest
               end
           end) children
  end.

(** [pushChildrenIf] with a predicate that may change a state [S] (the
    collector's predicate visits the cold blocks). *)
Fixpoint pushChildrenIf {S : Type}
    (pred : S -> DominanceInfoNode -> Result (bool * S))
    (children : list DominanceInfoNode) (s : S)
  : Result (list DominanceInfoNode * S) :=
  match children with
  | [] => Ok ([], s)
  | child :: rest =>
      let* (keep, s) := pred s child in
      let* (pushed, s) := pushChildrenIf pred rest s in
      Ok (if keep : bool then child :: pushed else pushed, s)
  end.

(** ** The performance inliner *)

Inductive InlineSelection := Everything | NoGlobalInit | NoSemanticsAndGlobalInit.

(** The command-line options and the members set by the constructor. *)
Record Config := {
  TestThreshold : Z;
  InlineCostThreshold : Z;
  WhatToInline : InlineSelection;
  (** whether the [DEBUG] statements run *)
  DebugEnabled : bool;
  (** whether [assert] is compiled in: false in a build with [NDEBUG] *)
  AssertsEnabled : bool;
}.

(** [assert(b)] where the statements that follow it run in either build:
    it stops the run in a build with assertions and does nothing in a
    build without them. *)
Definition assertIn (C : Config) (b : bool) : Result unit :=
  if AssertsEnabled C then assert b else Ok tt.

(** The mutable members of [SILPerformanceInliner] and the statistic. *)
Record InlinerState := {
  LastPrintedCaller : option FuncId;
  NumFunctionsInlined : Z;
}.

Definition dumpCaller (this : InlinerState) (Caller : FuncId) : InlinerState :=
  if bool_decide (LastPrintedCaller this = Some Caller) then this
  else {| LastPrintedCaller := Some Caller;
          NumFunctionsInlined := NumFunctionsInlined this |}.

(** [testCost] *)
Definition testCost (inst : SILInstruction) : Z :=
  match getKind inst with
  | BuiltinInst _ => 1
  | _ => 0
  end.

Section Eligibility.

Variable E : Externals.
Variable M : SILModule.
Variable C : Config.

(** The body of the loops of [calleeIsSelfRecursive] over the
    instructions of the callee. *)
Definition isSelfCall (Callee : FuncId) (inst : SILInstruction) : bool :=
  isFullApplySite inst &&
  bool_decide (getReferencedFunction M inst = Some Callee).

(** The instructions of a function, block after block. *)
Fixpoint resolveInstructions (ids : list ValueId) : Result (list SILInstruction) :=
  match ids with
  | [] => Ok []
  | i :: rest =>
      let* inst := getInstruction M i in
      let* insts := resolveInstructions rest in
      Ok (inst :: insts)
  end.

Fixpoint resolveBlocks (blocks : list BlockId) : Result (list SILInstruction) :=
  match blocks with
  | [] => Ok []
  | b :: rest =>
      let* BB := getBasicBlock M b in
      let* insts := resolveInstructions (bb_instructions BB) in
      let* more := resolveBlocks rest in
      Ok (insts ++ more)
  end.

Definition fn_instructions (Fn : SILFunction) : Result (list SILInstruction) :=
  resolveBlocks (fn_blocks Fn).

Definition calleeIsSelfRecursive (Callee : FuncId) : Result bool :=
  let* Fn := getFunction M Callee in
  let* insts := fn_instructions Fn in
  Ok (existsb (isSelfCall Callee) insts).

(** The first test of [getEligibleFunction]: the callee carries
    attributes that this inliner was asked not to inline. *)
Definition skippedBySelection (CalleeF : SILFunction) : bool :=
  if hasSemanticsAttrs CalleeF || hasEffectsKind CalleeF then
    if match WhatToInline C with NoSemanticsAndGlobalInit => true | _ => false end
    then true
    else
      hasSemanticsAttrs CalleeF &&
      match WhatToInline C with Everything => false | _ => true end &&
      hasSemanticsAttrThatStartsWith CalleeF "availability"
  else if isGlobalInit CalleeF then
    match WhatToInline C with Everything => false | _ => true end
  else false.

(** [getEligibleFunction]: the callee of the call site when it may be
    inlined, null otherwise. *)
Definition getEligibleFunction (AI : SILInstruction) : Result (option FuncId) :=
  match getReferencedFunction M AI with
  | None => Ok None
  | Some Callee =>
      let* CalleeF := getFunction M Callee in
      if skippedBySelection CalleeF then Ok None
      else if fn_empty CalleeF || isExternalDeclaration CalleeF then Ok None
      else if match getInlineStrategy CalleeF with NoInline => true | _ => false end
      then Ok None
      else if negb (shouldOptimize CalleeF) then Ok None
      else if hasSubstitutions AI then Ok None
      else if computeMayBindDynamicSelf E CalleeF then Ok None
      else
        let Caller := inst_getFunction AI in
        if bool_decide (Caller = Callee) then Ok None
        else
          let* CallerF := getFunction M Caller in
          if isFragile CallerF && negb (isFragile CalleeF) then Ok None
          else
            let* selfRecursive := calleeIsSelfRecursive Callee in
            if selfRecursive then Ok None
            else Ok (Some Callee)
  end.

End Eligibility.

Section Profitability.

Variable E : Externals.
Variable M : SILModule.
Variable An : Analyses.
Variable C : Config.
Variable fuel : nat.

(** The locals of [isProfitableToInline] that the walk of the callee
    updates.  Two more fields record the run: [visitedBlocks] has the
    blocks that [getNext] returned, each with the successor that
    [getTakenBlock] found, and [counted] has the instructions whose cost
    was added to [CalleeCost], with their block and that cost; the last
    entry comes first in both. *)
Record WalkState := {
  CalleeCost : Z;
  Benefit : Z;
  testThreshold : Z;
  constTracker : ConstantTracker;
  visitedBlocks : list (BlockId * option BlockId);
  counted : list (BlockId * ValueId * Z);
}.

Definition set_constTracker (st : WalkState) (T : ConstantTracker) : WalkState :=
  {| CalleeCost := CalleeCost st; Benefit := Benefit st;
     testThreshold := testThreshold st; constTracker := T;
     visitedBlocks := visitedBlocks st; counted := counted st |}.

(** [CalleeCost += cost] for the instruction [i] of [block] *)
Definition addCost (st : WalkState) (block : BlockId) (i : ValueId) (cost : Z)
  : WalkState :=
  {| CalleeCost := UInt.add (CalleeCost st) cost; Benefit := Benefit st;
     testThreshold := testThreshold st; constTracker := constTracker st;
     visitedBlocks := visitedBlocks st;
     counted := (block, i, cost) :: counted st |}.

(** [Benefit += bonus] *)
Definition addBenefit (st : WalkState) (bonus : Z) : WalkState :=
  {| CalleeCost := CalleeCost st; Benefit := UInt.add (Benefit st) bonus;
     testThreshold := testThreshold st; constTracker := constTracker st;
     visitedBlocks := visitedBlocks st; counted := counted st |}.

(** [testThreshold *= 2] *)
Definition doubleTestThreshold (st : WalkState) : WalkState :=
  {| CalleeCost := CalleeCost st; Benefit := Benefit st;
     testThreshold := SInt.mul (testThreshold st) 2;
     constTracker := constTracker st;
     visitedBlocks := visitedBlocks st; counted := counted st |}.

Definition recordVisit (st : WalkState) (block : BlockId)
    (takenBlock : option BlockId) : WalkState :=
  {| CalleeCost := CalleeCost st; Benefit := Benefit st;
     testThreshold := testThreshold st; constTracker := constTracker st;
     visitedBlocks := (block, takenBlock) :: visitedBlocks st;
     counted := counted st |}.

Definition isConstantCallee (def : option (ValueId * SILInstruction)) : bool :=
  match def with
  | Some (_, d) =>
      match getKind d with
      | FunctionRefInst _ | PartialApplyInst => true
      | _ => false
      end
  | None => false
  end.

(** The body of the loop over the instructions of a block. *)
Definition visitInstruction (Callee : FuncId) (block : BlockId)
    (st : WalkState) (i : ValueId) : Result WalkState :=
  let* T := trackInst M fuel (constTracker st) i in
  let st := set_constTracker st T in
  let* inst := getInstruction M i in
  let st :=
    if 0 <=? testThreshold st
    then addCost st block i (testCost inst)
    else addCost st block i (UInt.wrap (instructionInlineCost E inst)) in
  if isApplyInst inst then
    let* def := getDefInCaller E M fuel (constTracker st) (getCallee inst) in
    if isConstantCallee def then
      let loopDepth := LI_getLoopDepth An Callee block in
      let st :=
        addBenefit st
          (UInt.add ConstCalleeBenefit (UInt.mul loopDepth LoopBenefitFactor)) in
      Ok (doubleTestThreshold st)
    else Ok st
  else Ok st.

Fixpoint visitInstructions (Callee : FuncId) (block : BlockId)
    (insts : list ValueId) (st : WalkState) : Result WalkState :=
  match insts with
  | [] => Ok st
  | i :: rest =>
      let* st := visitInstruction Callee block st i in
      visitInstructions Callee block rest st
  end.

(** The predicate handed to [pushChildrenIf] when the terminator of
    [block] has the known successor [takenBlock]. *)
Definition childIsLive (block takenBlock : BlockId) (child : DominanceInfoNode)
  : Result bool :=
  let* childBB := getBasicBlock M (node_block child) in
  Ok (negb (bool_decide (getSinglePredecessor childBB = Some block)) ||
      bool_decide (node_block child = takenBlock)).

(** One iteration of the [while] loop: the block that [getNext] returned
    is walked and its children are pushed. *)
Definition visitBlock (Callee : FuncId) (node : DominanceInfoNode) (st : WalkState)
  : Result (list DominanceInfoNode * WalkState) :=
  let block := node_block node in
  let* BB := getBasicBlock M block in
  let st := set_constTracker st (beginBlock (constTracker st)) in
  let* st := visitInstructions Callee block (bb_instructions BB) st in
  let* term := getTerminator M BB in
  let* (takenBlock, T) := getTakenBlock E M fuel (constTracker st) term in
  let st := recordVisit (set_constTracker st T) block takenBlock in
  match takenBlock with
  | Some taken =>
      let st := addBenefit st ConstTerminatorBenefit in
      pushChildrenIf
        (fun s child => let* keep := childIsLive block taken child in Ok (keep, s))
        (node_children node) st
  | None => Ok (node_children node, st)
  end.

(** The [while] loop over [domOrder.getNext()]; [n] bounds the number of
    blocks that are taken from the buffer. *)
Fixpoint walkCallee (n : nat) (Callee : FuncId)
    (buffer : list DominanceInfoNode) (st : WalkState) : Result WalkState :=
  match buffer with
  | [] => Ok st
  | node :: rest =>
      match n with
      | O => Error OutOfFuel
      | S n' =>
          let* (pushed, st) := visitBlock Callee node st in
          walkCallee n' Callee (rest ++ pushed) st
      end
  end.

(** The statements of [isProfitableToInline] up to the end of the walk. *)
Definition analyzeCallee (AI : ValueId) (apply : SILInstruction)
    (Callee : FuncId) (CalleeF : SILFunction) (loopDepthOfAI : Z)
    (callerTracker : ConstantTracker) : Result WalkState :=
  let constTracker := ConstantTracker_callee Callee callerTracker AI in
  let DT := DA_get An Callee in
  let* front := deref (head (fn_blocks CalleeF)) in
  let* root := deref (getNode DT front) in
  let Benefit :=
    if 0 <? InlineCostThreshold C then UInt.wrap (InlineCostThreshold C)
    else RemovedCallBenefit in
  let Benefit := UInt.add Benefit (UInt.mul loopDepthOfAI LoopBenefitFactor) in
  walkCallee (node_size root) Callee [root]
    {| CalleeCost := 0; Benefit := Benefit; testThreshold := TestThreshold C;
       constTracker := constTracker; visitedBlocks := []; counted := [] |}.

(** [isProfitableToInline]: the decision, the new value of
    [NumCallerBlocks] and the state of the inliner. *)
Definition isProfitableToInline (this : InlinerState) (AI : ValueId)
    (loopDepthOfAI : Z) (callerTracker : ConstantTracker) (NumCallerBlocks : Z)
  : Result (bool * Z * InlinerState) :=
  let* apply := getInstruction M AI in
  let* Callee := deref (getReferencedFunction M apply) in
  let* CalleeF := getFunction M Callee in
  match getInlineStrategy CalleeF with
  | AlwaysInline => Ok (true, NumCallerBlocks, this)
  | _ =>
      let* w := analyzeCallee AI apply Callee CalleeF loopDepthOfAI callerTracker in
      let* CallerF := getFunction M (inst_getFunction apply) in
      let Threshold :=
        computeThreshold (Benefit w) (testThreshold w) (isThunk CallerF)
          NumCallerBlocks in
      if Threshold <? CalleeCost w then Ok (false, NumCallerBlocks, this)
      else
        Ok (true, UInt.add NumCallerBlocks (fn_size CalleeF),
            if DebugEnabled C then dumpCaller this (inst_getFunction apply) else this)
  end.

End Profitability.

Section Collector.

Variable E : Externals.
Variable M : SILModule.
Variable An : Analyses.
Variable C : Config.
Variable fuel : nat.

(** The loops of [isProfitableInColdBlock] over the instructions of the
    callee; [false] is the early [return false]. *)
Fixpoint coldBlockLoop (insts : list SILInstruction)
    (CalleeCost testThreshold : Z) : bool :=
  match insts with
  | [] => true
  | inst :: rest =>
      if 0 <=? testThreshold then
        let CalleeCost := UInt.add CalleeCost (testCost inst) in
        if 0 <? CalleeCost then false
        else coldBlockLoop rest CalleeCost testThreshold
      else
        let CalleeCost :=
          UInt.add CalleeCost (UInt.wrap (instructionInlineCost E inst)) in
        if TrivialFunctionThreshold <? CalleeCost then false
        else coldBlockLoop rest CalleeCost testThreshold
  end.

Definition isProfitableInColdBlock (this : InlinerState) (AI : SILInstruction)
    (CalleeF : SILFunction) : Result (bool * InlinerState) :=
  match getInlineStrategy CalleeF with
  | AlwaysInline => Ok (true, this)
  | _ =>
      if 0 <=? TestThreshold C then Ok (false, this)
      else
        let* insts := fn_instructions M CalleeF in
        if coldBlockLoop insts 0 (TestThreshold C)
        then Ok (true, if DebugEnabled C then dumpCaller this (inst_getFunction AI) else this)
        else Ok (false, this)
  end.

(** The candidates found so far and the state of the inliner. *)
Definition ColdState : Type := list ValueId * InlinerState.

Definition visitColdInstruction (st : ColdState) (i : ValueId) : Result ColdState :=
  let* inst := getInstruction M i in
  if isApplyInst inst then
    let* Callee := getEligibleFunction E M C inst in
    match Callee with
    | Some Callee =>
        let* CalleeF := getFunction M Callee in
        let* (profitable, this) := isProfitableInColdBlock (snd st) inst CalleeF in
        if profitable : bool then Ok (fst st ++ [i], this) else Ok (fst st, this)
    | None => Ok st
    end
  else Ok st.

Fixpoint visitColdInstructions (insts : list ValueId) (st : ColdState)
  : Result ColdState :=
  match insts with
  | [] => Ok st
  | i :: rest =>
      let* st := visitColdInstruction st i in
      visitColdInstructions rest st
  end.

Fixpoint visitColdBlocks_loop (n : nat) (buffer : list DominanceInfoNode)
    (st : ColdState) : Result ColdState :=
  match buffer with
  | [] => Ok st
  | node :: rest =>
      match n with
      | O => Error OutOfFuel
      | S n' =>
          let* BB := getBasicBlock M (node_block node) in
          let* st := visitColdInstructions (bb_instructions BB) st in
          visitColdBlocks_loop n' (rest ++ node_children node) st
      end
  end.

(** [visitColdBlocks(AppliesToInline, Root, DT)] *)
Definition visitColdBlocks (st : ColdState) (Root : DominanceInfoNode)
  : Result ColdState :=
  visitColdBlocks_loop (node_size Root) [Root] st.

(** The locals of [collectAppliesToInline] during its walk. *)
Record CollectState := {
  callerConstTracker : ConstantTracker;
  NumCallerBlocks : Z;
  InitialCandidates : list ValueId;
  inliner : InlinerState;
}.

Definition collectInstruction (loopDepth : Z) (st : CollectState) (i : ValueId)
  : Result CollectState :=
  let* T := trackInst M fuel (callerConstTracker st) i in
  let st := {| callerConstTracker := T; NumCallerBlocks := NumCallerBlocks st;
               InitialCandidates := InitialCandidates st; inliner := inliner st |} in
  let* inst := getInstruction M i in
  if negb (isFullApplySite inst) then Ok st
  else
    let* Callee := getEligibleFunction E M C inst in
    match Callee with
    | Some _ =>
        let* (profitable, blocks, this) :=
          isProfitableToInline E M An C fuel (inliner st) i loopDepth T
            (NumCallerBlocks st) in
        Ok {| callerConstTracker := T; NumCallerBlocks := blocks;
              InitialCandidates :=
                if profitable : bool then InitialCandidates st ++ [i]
                else InitialCandidates st;
              inliner := this |}
    | None => Ok st
    end.

Fixpoint collectInstructions (loopDepth : Z) (insts : list ValueId)
    (st : CollectState) : Result CollectState :=
  match insts with
  | [] => Ok st
  | i :: rest =>
      let* st := collectInstruction loopDepth st i in
      collectInstructions loopDepth rest st
  end.

(** The predicate handed to [pushChildrenIf] by the collector. *)
Definition collectChild (block : BlockId) (st : CollectState)
    (child : DominanceInfoNode) : Result (bool * CollectState) :=
  if isSlowPath An block (node_block child) then
    let* (candidates, this) :=
      visitColdBlocks (InitialCandidates st, inliner st) child in
    Ok (false, {| callerConstTracker := callerConstTracker st;
                  NumCallerBlocks := NumCallerBlocks st;
                  InitialCandidates := candidates; inliner := this |})
  else Ok (true, st).

Definition collectBlock (Caller : FuncId) (node : DominanceInfoNode)
    (st : CollectState) : Result (list DominanceInfoNode * CollectState) :=
  let block := node_block node in
  let* BB := getBasicBlock M block in
  let st := {| callerConstTracker := beginBlock (callerConstTracker st);
               NumCallerBlocks := NumCallerBlocks st;
               InitialCandidates := InitialCandidates st;
               inliner := inliner st |} in
  let loopDepth := LI_getLoopDepth An Caller block in
  let* st := collectInstructions loopDepth (bb_instructions BB) st in
  pushChildrenIf (collectChild block) (node_children node) st.

Fixpoint collectWalk (n : nat) (Caller : FuncId)
    (buffer : list DominanceInfoNode) (st : CollectState) : Result CollectState :=
  match buffer with
  | [] => Ok st
  | node :: rest =>
      match n with
      | O => Error OutOfFuel
      | S n' =>
          let* (pushed, st) := collectBlock Caller node st in
          collectWalk n' Caller (rest ++ pushed) st
      end
  end.

(** The callee of every candidate; a candidate without a direct callee
    fails the [assert] of the counting loop. *)
Fixpoint resolveCallees (candidates : list ValueId)
  : Result (list (ValueId * FuncId)) :=
  match candidates with
  | [] => Ok []
  | AI :: rest =>
      let* apply := getInstruction M AI in
      let* Callee := deref (getReferencedFunction M apply) in
      let* more := resolveCallees rest in
      Ok ((AI, Callee) :: more)
  end.

(** [CalleeCount[Callee]++] for every candidate. *)
Fixpoint countCallees (candidates : list (ValueId * FuncId))
    (CalleeCount : gmap positive Z) : gmap positive Z :=
  match candidates with
  | [] => CalleeCount
  | (_, Callee) :: rest =>
      countCallees rest
        (<[Callee := UInt.add (default 0 (CalleeCount !! Callee)) 1]> CalleeCount)
  end.

(** The copy of the candidates whose callee has few enough call sites. *)
Fixpoint copyCandidates (candidates : list (ValueId * FuncId))
    (CalleeCount : gmap positive Z) (Applies : list ValueId) : list ValueId :=
  match candidates with
  | [] => Applies
  | (AI, Callee) :: rest =>
      copyCandidates rest CalleeCount
        (if default 0 (CalleeCount !! Callee) <=? CallsToCalleeThreshold
         then Applies ++ [AI] else Applies)
  end.

Definition multiplicityGuard (candidates : list (ValueId * FuncId))
    (Applies : list ValueId) : list ValueId :=
  copyCandidates candidates (countCallees candidates ∅) Applies.

(** [collectAppliesToInline(Caller, Applies, DA, LA)] *)
Definition collectAppliesToInline (this : InlinerState) (Caller : FuncId)
    (Applies : list ValueId) : Result (list ValueId * InlinerState) :=
  let* CallerF := getFunction M Caller in
  let DT := DA_get An Caller in
  let constTracker := ConstantTracker_caller Caller in
  let* front := deref (head (fn_blocks CallerF)) in
  let* root := deref (getNode DT front) in
  let* st :=
    collectWalk (node_size root) Caller [root]
      {| callerConstTracker := constTracker; NumCallerBlocks := fn_size CallerF;
         InitialCandidates := []; inliner := this |} in
  let* candidates := resolveCallees (InitialCandidates st) in
  Ok (multiplicityGuard candidates Applies, inliner st).

End Collector.

(** ** The inline driver *)

(** The services that change the IR: [SILInliner::inlineFunction], which
    reports whether it inlined the call, and
    [recursivelyDeleteTriviallyDeadInstructions]. *)
Record Services := {
  inlineFunction : SILModule -> ValueId -> list SILValue -> bool * SILModule;
  recursivelyDeleteTriviallyDeadInstructions : SILModule -> ValueId -> SILModule;
}.

Section Driver.

Variable E : Externals.
Variable Sv : Services.
Variable An : Analyses.
Variable C : Config.
Variable fuel : nat.

(** What the second step of [inlineCallsIntoFunction] changes: the IR, the
    statistic, and the call sites for which [inlineFunction] returned true,
    in order. *)
Record DriverState := {
  module : SILModule;
  driverInliner : InlinerState;
  inlined : list ValueId;
}.

(** [NumFunctionsInlined++] *)
Definition countInlined (this : InlinerState) : InlinerState :=
  {| LastPrintedCaller := LastPrintedCaller this;
     NumFunctionsInlined := UInt.add (NumFunctionsInlined this) 1 |}.

(** The body of the loop over [AppliesToInline]. *)
Definition inlineCandidate (Caller : FuncId) (st : DriverState) (AI : ValueId)
  : Result DriverState :=
  let M := module st in
  let* apply := getInstruction M AI in
  let* Callee := deref (getReferencedFunction M apply) in
  let* CalleeF := getFunction M Callee in
  if negb (shouldOptimize CalleeF) then Ok st
  else
    let Args := getArguments apply in
    let this :=
      if DebugEnabled C then dumpCaller (driverInliner st) Caller
      else driverInliner st in
    let '(Success, M) := inlineFunction Sv M AI Args in
    let* _ := assertIn C Success in
    let M := recursivelyDeleteTriviallyDeadInstructions Sv M AI in
    Ok {| module := M; driverInliner := countInlined this;
          inlined := if Success then inlined st ++ [AI] else inlined st |}.

Fixpoint inlineCandidates (Caller : FuncId) (AppliesToInline : list ValueId)
    (st : DriverState) : Result DriverState :=
  match AppliesToInline with
  | [] => Ok st
  | AI :: rest =>
      let* st := inlineCandidate Caller st AI in
      inlineCandidates Caller rest st
  end.

(** [inlineCallsIntoFunction(Caller, DA, LA)] *)
Definition inlineCallsIntoFunction (M : SILModule) (this : InlinerState)
    (Caller : FuncId) : Result (bool * DriverState) :=
  let unchanged := {| module := M; driverInliner := this; inlined := [] |} in
  let* CallerF := getFunction M Caller in
  if negb (shouldOptimize CallerF) then Ok (false, unchanged)
  else
    let* (AppliesToInline, this) :=
      collectAppliesToInline E M An C fuel this Caller [] in
    match AppliesToInline with
    | [] => Ok (false, {| module := M; driverInliner := this; inlined := [] |})
    | _ =>
        let* st :=
          inlineCandidates Caller AppliesToInline
            {| module := M; driverInliner := this; inlined := [] |} in
        Ok (true, st)
    end.

End Driver.

(** ** The pass

    [SILPerformanceInlinerPass::run] and the three constructors of the
    pass.  The options carry [InlineThreshold], which becomes the
    [InlineCostThreshold] of a new inliner; [invalidateAnalysis] and
    [restartPassPipeline] are recorded as flags. *)

Definition createEarlyInliner : InlineSelection := NoSemanticsAndGlobalInit.
Definition createPerfInliner : InlineSelection := NoGlobalInit.
Definition createLateInliner : InlineSelection := Everything.

Record PassResult := {
  pass_module : SILModule;
  pass_NumFunctionsInlined : Z;
  pass_inlined : list ValueId;
  (** [invalidateAnalysis(SILAnalysis::InvalidationKind::FunctionBody)] was called *)
  pass_invalidated : bool;
  (** [restartPassPipeline()] was called *)
  pass_restarted : bool;
}.

Section Pass.

Variable E : Externals.
Variable Sv : Services.
Variable An : Analyses.
Variable fuel : nat.

(** [run()] on the function [Fn] of the module; [C] has the options and
    the selection of the pass, [statistic] is [NumFunctionsInlined].  The
    inliner is a new object: it has printed no caller yet.  A function is
    a definition when it is not an external declaration. *)
Definition run (C : Config) (M : SILModule) (statistic : Z) (Fn : FuncId)
  : Result PassResult :=
  if InlineCostThreshold C =? 0 then
    Ok {| pass_module := M; pass_NumFunctionsInlined := statistic;
          pass_inlined := []; pass_invalidated := false; pass_restarted := false |}
  else
    let Inliner := {| LastPrintedCaller := None; NumFunctionsInlined := statistic |} in
    let* FnF := getFunction M Fn in
    let* _ := assertIn C (negb (isExternalDeclaration FnF)) in
    let* (changed, st) := inlineCallsIntoFunction E Sv An C fuel M Inliner Fn in
    Ok {| pass_module := module st;
          pass_NumFunctionsInlined := NumFunctionsInlined (driverInliner st);
          pass_inlined := inlined st;
          pass_invalidated := changed; pass_restarted := changed |}.

End Pass.

(** The same options for another selection of callees. *)
Definition withSelection (C : Config) (selection : InlineSelection) : Config :=
  {| TestThreshold := TestThreshold C; InlineCostThreshold := InlineCostThreshold C;
     WhatToInline := selection; DebugEnabled := DebugEnabled C;
     AssertsEnabled := AssertsEnabled C |}.

(** ** Sample programs *)

Module Sample.

Local Open Scope positive_scope.

Definition instruction (k : ValueKind) (ops : list SILValue) (f : FuncId) : ValueBase :=
  VInstruction {| getKind := k; getOperands := ops; inst_getFunction := f |}.

Definition function (blocks : list BlockId) (strategy : Inline_t) : SILFunction :=
  {| fn_blocks := blocks; getInlineStrategy := strategy; getSemanticsAttrs := [];
     hasEffectsKind := false; isGlobalInit := false; isExternalDeclaration := false;
     shouldOptimize := true; isThunk := false; isFragile := false |}.

Definition block (insts : list ValueId) (preds : list BlockId) : SILBasicBlock :=
  {| bb_instructions := insts; bb_predecessors := preds |}.

(** Every instruction costs one unit; nothing is folded. *)
Definition externals : Externals :=
  {| instructionInlineCost := fun _ => 1%Z;
     constantFoldComparison := fun a b _ => (if (a =? b)%Z then 1 else 0)%Z;
     constantFoldBinaryWithOverflow := fun a b _ => (a + b)%Z;
     constantFoldDiv := fun a b _ => (a / b)%Z;
     constantFoldBitOperation := fun a b _ => Z.land a b;
     constantFoldCast := fun a _ => a;
     getOperandForAggregate := fun _ _ => None;
     getType := fun _ => 1;
     isExactSuperclassOf := fun _ _ => false;
     isBindableToSuperclassOf := fun _ _ => true;
     computeMayBindDynamicSelf := fun _ => false |}.

Definition config (test : Z) : Config :=
  {| TestThreshold := test; InlineCostThreshold := (-1)%Z;
     WhatToInline := Everything; DebugEnabled := true; AssertsEnabled := true |}.

(** The splice keeps the IR as it is and reports success. *)
Definition services : Services :=
  {| inlineFunction := fun M _ _ => (true, M);
     recursivelyDeleteTriviallyDeadInstructions := fun M _ => M |}.



Definition fresh : InlinerState :=
  {| LastPrintedCaller := None; NumFunctionsInlined := 0%Z |}.

(** The caller, function 1, passes the literal 1 to function 2:
<<
    bb10:  %100 = integer_literal 1
           %101 = function_ref @2
           %102 = apply %101(%100)
           %103 = return
>>
    and the callee branches on its argument to a block that falls
    through to the other successor:
<<
    bb20(%200):  %201 = cond_br %200, bb21, bb22
    bb21:        %210 = builtin
                 %211 = br bb22
    bb22:        %220 = builtin
                 %221 = builtin
                 %222 = return
>> *)
Definition fallThroughWith (strategy : Inline_t) : SILModule :=
  {| mod_values := list_to_map
       [ (100, instruction (IntegerLiteralInst 1) [] 1);
         (101, instruction (FunctionRefInst 2) [] 1);
         (102, instruction (ApplyInst false) [Some 101; Some 100] 1);
         (103, instruction (OtherInst 1) [] 1);
         (200, VArgument {| arg_getFunction := 2; arg_getIndex := 0;
                            arg_isFunctionArg := true |});
         (201, instruction (CondBranchInst 21 22) [Some 200] 2);
         (210, instruction (BuiltinInst (OtherBuiltin 1)) [] 2);
         (211, instruction (OtherInst 2) [] 2);
         (220, instruction (BuiltinInst (OtherBuiltin 1)) [] 2);
         (221, instruction (BuiltinInst (OtherBuiltin 1)) [] 2);
         (222, instruction (OtherInst 1) [] 2) ];
     mod_blocks := list_to_map
       [ (10, block [100; 101; 102; 103] []);
         (20, block [201] []);
         (21, block [210; 211] [20]);
         (22, block [220; 221; 222] [20; 21]) ];
     mod_functions := list_to_map
       [ (1, function [10] InlineDefault);
         (2, function [20; 21; 22] strategy) ] |}.

Definition fallThrough : SILModule := fallThroughWith InlineDefault.

(** The same program with the callee marked always-inline. *)
Definition forced : SILModule := fallThroughWith AlwaysInline.

(** The call of the sample and the function it calls. *)
Definition call : SILInstruction :=
  {| getKind := ApplyInst false; getOperands := [Some 101; Some 100];
     inst_getFunction := 1 |}.

Definition callee : SILFunction := function [20; 21; 22] InlineDefault.

Definition fallThroughAnalyses : Analyses :=
  {| DA_get := fun f =>
       if bool_decide (f = 2)
       then DINode 20 [DINode 21 []; DINode 22 []]
       else DINode 10 [];
     LI_getLoopDepth := fun _ _ => 0%Z;
     isSlowPath := fun _ _ => false |}.

(** The caller passes the literal 5 to function 3, which switches on
    its argument; the first case value is not a literal:
<<
    bb10:  %100 = integer_literal 5
           %101 = function_ref @3
           %102 = apply %101(%100)
           %103 = return
    bb30(%300):  %301 = load
                 %302 = integer_literal 5
                 %303 = switch_value %300, case %301: bb31,
                                           case %302: bb32, default bb33
>> *)
Definition switchTerminator : SILInstruction :=
  {| getKind := SwitchValueInst [(Some 301, 31); (Some 302, 32)] (Some 33);
     getOperands := [Some 300]; inst_getFunction := 3 |}.

Definition switchOnArgument : SILModule :=
  {| mod_values := list_to_map
       [ (100, instruction (IntegerLiteralInst 5) [] 1);
         (101, instruction (FunctionRefInst 3) [] 1);
         (102, instruction (ApplyInst false) [Some 101; Some 100] 1);
         (103, instruction (OtherInst 1) [] 1);
         (300, VArgument {| arg_getFunction := 3; arg_getIndex := 0;
                            arg_isFunctionArg := true |});
         (301, instruction LoadInst [None] 3);
         (302, instruction (IntegerLiteralInst 5) [] 3);
         (303, VInstruction switchTerminator) ];
     mod_blocks := list_to_map
       [ (10, block [100; 101; 102; 103] []);
         (30, block [301; 302; 303] []);
         (31, block [] [30]); (32, block [] [30]); (33, block [] [30]) ];
     mod_functions := list_to_map
       [ (1, function [10] InlineDefault);
         (3, function [30; 31; 32; 33] InlineDefault) ] |}.

(** The caller passes the literal 1 to function 4, whose branch on its
    argument has two arms that meet again:
<<
    bb40(%400):  %401 = cond_br %400, bb41, bb42
    bb41:        %410 = builtin
                 %411 = br bb43
    bb42:        %420 = builtin
                 %421 = builtin
                 %422 = br bb43
    bb43:        %430 = return
>> *)
Definition diamond : SILModule :=
  {| mod_values := list_to_map
       [ (100, instruction (IntegerLiteralInst 1) [] 1);
         (101, instruction (FunctionRefInst 4) [] 1);
         (102, instruction (ApplyInst false) [Some 101; Some 100] 1);
         (103, instruction (OtherInst 1) [] 1);
         (400, VArgument {| arg_getFunction := 4; arg_getIndex := 0;
                            arg_isFunctionArg := true |});
         (401, instruction (CondBranchInst 41 42) [Some 400] 4);
         (410, instruction (BuiltinInst (OtherBuiltin 1)) [] 4);
         (411, instruction (OtherInst 2) [] 4);
         (420, instruction (BuiltinInst (OtherBuiltin 1)) [] 4);
         (421, instruction (BuiltinInst (OtherBuiltin 1)) [] 4);
         (422, instruction (OtherInst 2) [] 4);
         (430, instruction (OtherInst 1) [] 4) ];
     mod_blocks := list_to_map
       [ (10, block [100; 101; 102; 103] []);
         (40, block [401] []);
         (41, block [410; 411] [40]);
         (42, block [420; 421; 422] [40]);
         (43, block [430] [41; 42]) ];
     mod_functions := list_to_map
       [ (1, function [10] InlineDefault);
         (4, function [40; 41; 42; 43] InlineDefault) ] |}.

Definition diamondCall : SILInstruction :=
  {| getKind := ApplyInst false; getOperands := [Some 101; Some 100];
     inst_getFunction := 1 |}.

Definition diamondCallee : SILFunction := function [40; 41; 42; 43] InlineDefault.

Definition diamondTree : DominanceInfoNode :=
  DINode 40 [DINode 41 []; DINode 42 []; DINode 43 []].

Definition diamondAnalyses : Analyses :=
  {| DA_get := fun f => if bool_decide (f = 4) then diamondTree else DINode 10 [];
     LI_getLoopDepth := fun _ _ => 0%Z;
     isSlowPath := fun _ _ => false |}.

(** The caller stores the literal 7 and passes the address to function 5,
    which branches on the value that it loads from its argument:
<<
    bb10:  %100 = alloc_stack
           %101 = integer_literal 7
           %102 = store %101 to %100
           %103 = function_ref @5
           %104 = apply %103(%100)
           %105 = return
    bb50(%500):  %501 = load %500
                 %502 = cond_br %501, bb51, bb52
    bb51:        %510 = builtin
                 %511 = return
    bb52:        %520 = builtin
                 %521 = builtin
                 %522 = builtin
                 %523 = return
>> *)
Definition throughMemory : SILModule :=
  {| mod_values := list_to_map
       [ (100, instruction (OtherInst 3) [] 1);
         (101, instruction (IntegerLiteralInst 7) [] 1);
         (102, instruction StoreInst [Some 101; Some 100] 1);
         (103, instruction (FunctionRefInst 5) [] 1);
         (104, instruction (ApplyInst false) [Some 103; Some 100] 1);
         (105, instruction (OtherInst 1) [] 1);
         (500, VArgument {| arg_getFunction := 5; arg_getIndex := 0;
                            arg_isFunctionArg := true |});
         (501, instruction LoadInst [Some 500] 5);
         (502, instruction (CondBranchInst 51 52) [Some 501] 5);
         (510, instruction (BuiltinInst (OtherBuiltin 1)) [] 5);
         (511, instruction (OtherInst 1) [] 5);
         (520, instruction (BuiltinInst (OtherBuiltin 1)) [] 5);
         (521, instruction (BuiltinInst (OtherBuiltin 1)) [] 5);
         (522, instruction (BuiltinInst (OtherBuiltin 1)) [] 5);
         (523, instruction (OtherInst 1) [] 5) ];
     mod_blocks := list_to_map
       [ (10, block [100; 101; 102; 103; 104; 105] []);
         (50, block [501; 502] []);
         (51, block [510; 511] [50]);
         (52, block [520; 521; 522; 523] [50]) ];
     mod_functions := list_to_map
       [ (1, function [10] InlineDefault);
         (5, function [50; 51; 52] InlineDefault) ] |}.

Definition throughMemoryAnalyses : Analyses :=
  {| DA_get := fun f =>
       if bool_decide (f = 5)
       then DINode 50 [DINode 51 []; DINode 52 []]
       else DINode 10 [];
     LI_getLoopDepth := fun _ _ => 0%Z;
     isSlowPath := fun _ _ => false |}.

(** Function 6 stores the literal 3 to a field of a local and loads the
    field again through another projection of the same local:
<<
    bb60:  %600 = alloc_stack
           %601 = struct_element_addr %600, #0
           %602 = integer_literal 3
           %603 = store %602 to %601
           %604 = struct_element_addr %600, #0
           %605 = load %604
           %606 = builtin "and"(%605, %602)
           %607 = return
>> *)
Definition localMemory : SILModule :=
  {| mod_values := list_to_map
       [ (600, instruction (OtherInst 3) [] 6);
         (601, instruction (AddressProjectionInst 0) [Some 600] 6);
         (602, instruction (IntegerLiteralInst 3) [] 6);
         (603, instruction StoreInst [Some 602; Some 601] 6);
         (604, instruction (AddressProjectionInst 0) [Some 600] 6);
         (605, instruction LoadInst [Some 604] 6);
         (606, instruction (BuiltinInst And) [Some 605; Some 602] 6);
         (607, instruction (OtherInst 1) [] 6) ];
     mod_blocks := list_to_map
       [ (60, block [600; 601; 602; 603; 604; 605; 606; 607] []) ];
     mod_functions := list_to_map [ (6, function [60] InlineDefault) ] |}.

(** The tracker of function 6 after the store and the load. *)
Definition localMemoryTracker : ConstantTracker :=
  mkConstantTracker {[ 605 := 603 ]} {[ Some 600 := 603 ]} ∅ 6 None None.



(** Function 9 stores the literal 4, copies it to a second local and
    loads it from there:
<<
    bb90:  %900 = alloc_stack
           %901 = alloc_stack
           %902 = integer_literal 4
           %903 = store %902 to %900
           %904 = copy_addr %900 to %901
           %905 = load %901
           %906 = return
>> *)
Definition copiedMemory : SILModule :=
  {| mod_values := list_to_map
       [ (900, instruction (OtherInst 3) [] 9);
         (901, instruction (OtherInst 3) [] 9);
         (902, instruction (IntegerLiteralInst 4) [] 9);
         (903, instruction StoreInst [Some 902; Some 900] 9);
         (904, instruction (CopyAddrInst false) [Some 900; Some 901] 9);
         (905, instruction LoadInst [Some 901] 9);
         (906, instruction (OtherInst 1) [] 9) ];
     mod_blocks := list_to_map [ (90, block [900; 901; 902; 903; 904; 905; 906] []) ];
     mod_functions := list_to_map [ (9, function [90] InlineDefault) ] |}.

(** The tracker of the callee [f] for the call [%102] of function 1. *)
Definition calleeTracker (f : FuncId) : ConstantTracker :=
  ConstantTracker_callee f (ConstantTracker_caller 1) 102.

End Sample.

(** ** Definitions that follow the words of the specification *)

(** The running sum of the regular costs of [insts] on [unsigned], from
    [start]: the value of [CalleeCost] after these instructions. *)
Definition runningCost (E : Externals) (start : Z) (insts : list SILInstruction) : Z :=
  fold_left (fun acc inst => UInt.add acc (UInt.wrap (instructionInlineCost E inst)))
    insts start.

(** How many of the candidates call [Callee]. *)
Definition occurrences (Callee : FuncId) (candidates : list (ValueId * FuncId)) : Z :=
  Z.of_nat (length (filter (fun p => p.2 = Callee) candidates)).

(** The invariant of [IntConst]: a value that is marked as coming from
    the caller is valid. *)
Definition IntConst_ok (c : IntConst) : Prop :=
  isFromCaller c = true -> isValid c = true.

Definition cache_ok (T : ConstantTracker) : Prop :=
  forall BI c, constCache T !! BI = Some c -> IntConst_ok c.

(** The literal that a case value of a [switch_value] is, when it is an
    [integer_literal] instruction. *)
Definition caseLiteral (M : SILModule) (caseValue : SILValue) : option APInt :=
  match asInstruction M caseValue with
  | Some IL =>
      match getKind IL with
      | IntegerLiteralInst v => Some v
      | _ => None
      end
  | None => None
  end.

Definition isLiteralCase (M : SILModule) (case : SILValue * BlockId) : bool :=
  match caseLiteral M case.1 with
  | Some _ => true
  | None => false
  end.

Definition allCasesLiteral (M : SILModule) (cases : list (SILValue * BlockId)) : bool :=
  forallb (isLiteralCase M) cases.

(** The resolution of a [switch_value] in the words of the specification:
    the successor of the first case whose literal value matches the
    constant; the declared default only when every case value is a literal;
    no successor otherwise. *)
Definition switchValue_claimed (M : SILModule)
    (cases : list (SILValue * BlockId)) (DefaultBB : option BlockId) (c : APInt)
  : option BlockId :=
  match List.find (fun case => bool_decide (caseLiteral M case.1 = Some c)) cases with
  | Some case => Some case.2
  | None => if allCasesLiteral M cases then DefaultBB else None
  end.

(** The cases in front of the first case value that is not a literal. *)
Fixpoint leadingLiterals (M : SILModule) (cases : list (SILValue * BlockId))
  : list (APInt * BlockId) :=
  match cases with
  | [] => []
  | case :: rest =>
      match caseLiteral M case.1 with
      | Some v => (v, case.2) :: leadingLiterals M rest
      | None => []
      end
  end.

(** The same resolution, with a case looked at only when every case before
    it is a literal. *)
Definition switchValue_amended (M : SILModule)
    (cases : list (SILValue * BlockId)) (DefaultBB : option BlockId) (c : APInt)
  : option BlockId :=
  match List.find (fun case => c =? case.1) (leadingLiterals M cases) with
  | Some case => Some case.2
  | None => if allCasesLiteral M cases then DefaultBB else None
  end.

(** Two outcomes that fail alike or succeed with related results. *)
Definition related {A : Type} (R : A -> A -> Prop) (r1 r2 : Result A) : Prop :=
  match r1, r2 with
  | Ok a1, Ok a2 => R a1 a2
  | Error e1, Error e2 => e1 = e2
  | _, _ => False
  end.

Definition Result_map {A B : Type} (f : A -> B) (r : Result A) : Result B :=
  match r with
  | Ok a => Ok (f a)
  | Error e => Error e
  end.

(** The nodes of a dominator tree, the root first, and their blocks. *)
Fixpoint nodes (n : DominanceInfoNode) : list DominanceInfoNode :=
  match n with
  | DINode _ children => n :: (children ≫= nodes)
  end.

Definition blocks (n : DominanceInfoNode) : list BlockId := node_block <$> nodes n.

(** The blocks of the nodes that wait in the buffer, with their subtrees. *)
Definition pending (buffer : list DominanceInfoNode) : list BlockId :=
  node_block <$> (buffer ≫= nodes).

(** The rule of the source for a child of [block] in the dominator tree,
    once the walk of [block] is over: with a known successor [taken] the
    child is pushed when [block] is not its single predecessor or it is
    [taken]; without one every child is pushed. *)
Definition liveAfter (M : SILModule) (block : BlockId) (takenBlock : option BlockId)
    (child : BlockId) : Prop :=
  match takenBlock with
  | Some taken =>
      exists BB,
        mod_blocks M !! child = Some BB /\
        (getSinglePredecessor BB <> Some block \/ child = taken)
  | None => True
  end.

(** The rule in the words of the specification: the child is visited only
    if [block] is its sole predecessor or it is [taken]. *)
Definition liveAfter_claimed (M : SILModule) (block : BlockId)
    (takenBlock : option BlockId) (child : BlockId) : Prop :=
  match takenBlock with
  | Some taken =>
      exists BB,
        mod_blocks M !! child = Some BB /\
        (getSinglePredecessor BB = Some block \/ child = taken)
  | None => True
  end.

(** A child that the rule of the source leaves out. *)
Definition deadAfter (M : SILModule) (block taken child : BlockId) : Prop :=
  exists BB,
    mod_blocks M !! child = Some BB /\
    getSinglePredecessor BB = Some block /\
    child <> taken.

(** The sum of the costs that the walk recorded. *)
Definition sumCosts (entries : list (BlockId * ValueId * Z)) : Z :=
  foldr (fun entry sum => entry.2 + sum) 0 entries.

(** [CalleeCost] is the sum, on [unsigned], of the recorded costs. *)
Definition costRecorded (st : WalkState) : Prop :=
  CalleeCost st = UInt.wrap (sumCosts (counted st)).

(** What one iteration of the walk of the callee does to the record of the
    run: the block of [node] is visited with the successor [takenBlock]
    that the terminator folder found, the costs of its instructions are
    counted, and its children are split into the ones that are pushed,
    which the rule accepts, and the ones that are dropped, which it
    refuses. *)
Record BlockVisit (E : Externals) (M : SILModule) (fuel : nat)
    (node : DominanceInfoNode) (st st' : WalkState)
    (pushed : list DominanceInfoNode) (takenBlock : option BlockId)
    (dropped : list DominanceInfoNode) : Prop := {
  visit_recorded :
    visitedBlocks st' = (node_block node, takenBlock) :: visitedBlocks st;
  visit_counted :
    exists new,
      counted st' = new ++ counted st /\
      Forall (fun entry => entry.1.1 = node_block node) new;
  visit_cost : costRecorded st -> costRecorded st';
  visit_children : node_children node ≡ₚ pushed ++ dropped;
  visit_pushed :
    Forall (fun c => liveAfter M (node_block node) takenBlock (node_block c)) pushed;
  visit_dropped :
    match takenBlock with
    | Some taken =>
        Forall (fun c => deadAfter M (node_block node) taken (node_block c)) dropped
    | None => dropped = []
    end;
  visit_folded :
    forall taken, takenBlock = Some taken ->
    exists BB term T T',
      mod_blocks M !! node_block node = Some BB /\
      getTerminator M BB = Ok term /\
      getTakenBlock E M fuel T term = Ok (Some taken, T');
}.

(** A node is accounted for by the visits so far when it is the root of
    the walk, or its parent in the tree was visited and the rule of the
    source accepted it after that visit. *)
Definition justified (M : SILModule) (root : DominanceInfoNode)
    (trace : list (BlockId * option BlockId)) (cnode : DominanceInfoNode) : Prop :=
  cnode = root \/
  exists pnode ptk,
    pnode ∈ nodes root /\
    cnode ∈ node_children pnode /\
    (node_block pnode, ptk) ∈ trace /\
    liveAfter M (node_block pnode) ptk (node_block cnode).

(** The invariant of the [while] loop of the walk of the callee. *)
Record WalkInvariant (E : Externals) (M : SILModule) (fuel : nat)
    (root : DominanceInfoNode) (buffer : list DominanceInfoNode)
    (st : WalkState) : Prop := {
  inv_buffer_nodes : forall node, node ∈ buffer -> node ∈ nodes root;
  inv_buffer : forall node, node ∈ buffer -> justified M root (visitedBlocks st) node;
  inv_visited :
    forall b tk, (b, tk) ∈ visitedBlocks st ->
    exists node,
      node ∈ nodes root /\ node_block node = b /\
      justified M root (visitedBlocks st) node;
  inv_counted :
    forall b i cost, (b, i, cost) ∈ counted st -> exists tk, (b, tk) ∈ visitedBlocks st;
  inv_folded :
    forall b taken, (b, Some taken) ∈ visitedBlocks st ->
    exists BB term T T',
      mod_blocks M !! b = Some BB /\
      getTerminator M BB = Ok term /\
      getTakenBlock E M fuel T term = Ok (Some taken, T');
  inv_cost : costRecorded st;
}.

(** The invariant that keeps the dropped children out of the walk, for a
    dominator tree that has every block once: [skipped] has the blocks of
    the children that were dropped so far. *)
Record PruneInvariant (M : SILModule) (root : DominanceInfoNode)
    (skipped : list BlockId) (buffer : list DominanceInfoNode)
    (st : WalkState) : Prop := {
  prune_nodup : NoDup ((visitedBlocks st).*1 ++ skipped ++ pending buffer);
  prune_nodes : forall node, node ∈ buffer -> node ∈ nodes root;
  prune_skipped :
    forall pnode cnode taken,
      pnode ∈ nodes root -> cnode ∈ node_children pnode ->
      (node_block pnode, Some taken) ∈ visitedBlocks st ->
      deadAfter M (node_block pnode) taken (node_block cnode) ->
      node_block cnode ∈ skipped;
}.

(** What a run of [getIntConst] at some depth guarantees. *)
Definition evaluates_ok
    (eval : ConstantTracker -> SILValue -> Result (IntConst * ConstantTracker)) :=
  forall T val c T',
    cache_ok T -> eval T val = Ok (c, T') -> IntConst_ok c /\ cache_ok T'.

(** What [getEligibleFunction] has checked when it returns a callee. *)
Record Eligible (E : Externals) (M : SILModule) (C : Config)
    (inst : SILInstruction) (Callee : FuncId)
    (CalleeF CallerF : SILFunction) : Prop := {
  eligible_callee : getReferencedFunction M inst = Some Callee;
  eligible_calleeF : getFunction M Callee = Ok CalleeF;
  eligible_callerF : getFunction M (inst_getFunction inst) = Ok CallerF;
  eligible_selection : skippedBySelection C CalleeF = false;
  eligible_body : fn_empty CalleeF = false /\ isExternalDeclaration CalleeF = false;
  eligible_strategy : getInlineStrategy CalleeF <> NoInline;
  eligible_optimize : shouldOptimize CalleeF = true;
  eligible_substitutions : hasSubstitutions inst = false;
  eligible_self : computeMayBindDynamicSelf E CalleeF = false;
  eligible_not_caller : inst_getFunction inst <> Callee;
  eligible_fragile : isFragile CallerF = true -> isFragile CalleeF = true;
  eligible_not_recursive : calleeIsSelfRecursive M Callee = Ok false;
}.

(** A call site that passed the filter. *)
Definition eligibleSite (E : Externals) (M : SILModule) (C : Config)
    (AI : ValueId) : Prop :=
  exists inst Callee,
    getInstruction M AI = Ok inst /\
    getEligibleFunction E M C inst = Ok (Some Callee).

(** Cold states with the same candidates. *)
Definition sameCandidates (st1 st2 : ColdState) : Prop := st1.1 = st2.1.

(** Collector states that differ in the state of the inliner at most. *)
Definition sameCollection (st1 st2 : CollectState) : Prop :=
  callerConstTracker st1 = callerConstTracker st2 /\
  NumCallerBlocks st1 = NumCallerBlocks st2 /\
  InitialCandidates st1 = InitialCandidates st2.

(** Two trackers that differ in their cache at most. *)
Definition sameView (T T' : ConstantTracker) : Prop :=
  links T = links T' /\ memoryContent T = memoryContent T' /\
  callerTracker T = callerTracker T' /\ AI T = AI T' /\ F T = F T'.

(** Two trackers of the same function for the same call site: they
    differ in what they have tracked at most. *)
Definition sameIdentity (T T' : ConstantTracker) : Prop :=
  F T = F T' /\ AI T = AI T' /\ callerTracker T = callerTracker T'.

(** The tracker after [trackInst] on each of [insts], in order. *)
Fixpoint trackInsts (M : SILModule) (fuel : nat) (insts : list ValueId)
    (T : ConstantTracker) : Result ConstantTracker :=
  match insts with
  | [] => Ok T
  | i :: rest =>
      let* T := trackInst M fuel T i in
      trackInsts M fuel rest T
  end.

(** The blocks that a terminator names as its successors. *)
Definition getSuccessors (term : SILInstruction) : list BlockId :=
  match getKind term with
  | CondBranchInst TrueBB FalseBB => [TrueBB; FalseBB]
  | SwitchValueInst cases DefaultBB => cases.*2 ++ option_list DefaultBB
  | SwitchEnumInst cases DefaultBB => cases.*2 ++ option_list DefaultBB
  | CheckedCastBranchInst _ SuccessBB FailureBB => [SuccessBB; FailureBB]
  | _ => []
  end.

(** The nodes that the walk of the collector takes from its worklist:
    the root and, below such a node, the children that are not reached by
    a slow path. *)
Fixpoint regularNodes (An : Analyses) (n : DominanceInfoNode)
  : list DominanceInfoNode :=
  match n with
  | DINode b children =>
      n :: (children ≫= fun c =>
              if isSlowPath An b (node_block c) then [] else regularNodes An c)
  end.

(** The nodes that [visitColdBlocks] walks: the subtrees of the children
    that are reached by a slow path from a node of the walk of the
    collector. *)
Fixpoint coldNodes (An : Analyses) (n : DominanceInfoNode)
  : list DominanceInfoNode :=
  match n with
  | DINode b children =>
      children ≫= fun c =>
        if isSlowPath An b (node_block c) then nodes c else coldNodes An c
  end.

(** Where a candidate of the collector was found in the dominator tree
    [root] of [Caller] and what accepted it.  The call site is an
    instruction of the block of [node] and passed the filter.  If [node]
    belongs to the walk of the collector, the call site is a full apply
    site that [isProfitableToInline] accepts, whatever the state of the
    inliner, for the loop depth of the block, for some value of the
    caller-block counter and for the tracker [T] of the caller after
    [beginBlock] and the instructions of the block up to the call site.
    If [node] belongs to a cold subtree, the call site is an [apply] that
    [isProfitableInColdBlock] accepts, whatever the state of the
    inliner. *)
Definition acceptedSite (E : Externals) (M : SILModule) (An : Analyses) (C : Config)
    (fuel : nat) (Caller : FuncId) (root : DominanceInfoNode) (AI : ValueId) : Prop :=
  exists inst Callee CalleeF node BB,
    getInstruction M AI = Ok inst /\
    getEligibleFunction E M C inst = Ok (Some Callee) /\
    getFunction M Callee = Ok CalleeF /\
    mod_blocks M !! node_block node = Some BB /\
    AI ∈ bb_instructions BB /\
    ((node ∈ regularNodes An root /\
      isFullApplySite inst = true /\
      exists before after T0 T blocks,
        bb_instructions BB = before ++ AI :: after /\
        sameIdentity (ConstantTracker_caller Caller) T0 /\
        trackInsts M fuel (before ++ [AI]) (beginBlock T0) = Ok T /\
        forall this, exists blocks' this',
          isProfitableToInline E M An C fuel this AI
            (LI_getLoopDepth An Caller (node_block node)) T blocks
          = Ok (true, blocks', this')) \/
     (node ∈ coldNodes An root /\
      isApplyInst inst = true /\
      forall this, exists this',
        isProfitableInColdBlock E M C this inst CalleeF = Ok (true, this'))).

(** The invariant of the walks of the collector: every candidate was
    accepted and the statistic of the inliner is untouched. *)
Definition collecting (E : Externals) (M : SILModule) (An : Analyses) (C : Config)
    (fuel : nat) (Caller : FuncId) (root : DominanceInfoNode) (statistic : Z)
    (candidates : list ValueId) (this : InlinerState) : Prop :=
  Forall (acceptedSite E M An C fuel Caller root) candidates /\
  NumFunctionsInlined this = statistic.

(** [spliced Sv M attempts M']: [M'] is the IR after the calls of
    [inlineFunction] on the call sites of [attempts], in order from [M],
    each with the result that is listed for it and followed by the
    deletion of the trivially dead instructions. *)
Fixpoint spliced (Sv : Services) (M : SILModule) (attempts : list (ValueId * bool))
    (M' : SILModule) : Prop :=
  match attempts with
  | [] => M' = M
  | (AI, Success) :: rest =>
      exists apply,
        getInstruction M AI = Ok apply /\
        (inlineFunction Sv M AI (getArguments apply)).1 = Success /\
        spliced Sv
          (recursivelyDeleteTriviallyDeadInstructions Sv
             (inlineFunction Sv M AI (getArguments apply)).2 AI)
          rest M'
  end.

(** The call sites of [attempts] for which [inlineFunction] returned
    true. *)
Definition succeeded (attempts : list (ValueId * bool)) : list ValueId :=
  (filter (fun p => p.2 = true) attempts).*1.

(** What the walk of the callee did at the end of a visited block [b]
    for which it recorded [tk]: the tracker [T] that the terminator folder
    was given is the tracker of the callee after [beginBlock] and the
    instructions of [b], and [tk] is what the folder returned for the
    terminator of [b]. *)
Definition foldedAt (E : Externals) (M : SILModule) (fuel : nat)
    (identity : ConstantTracker) (b : BlockId) (tk : option BlockId) : Prop :=
  exists BB term T0 T T',
    mod_blocks M !! b = Some BB /\
    getTerminator M BB = Ok term /\
    sameIdentity identity T0 /\
    trackInsts M fuel (bb_instructions BB) (beginBlock T0) = Ok T /\
    getTakenBlock E M fuel T term = Ok (tk, T').

(** Every instruction of the block [b] has an entry among the counted
    costs, with its test cost or its regular cost. *)
Definition countedAt (E : Externals) (M : SILModule) (st : WalkState) (b : BlockId)
  : Prop :=
  forall BB i,
    mod_blocks M !! b = Some BB -> i ∈ bb_instructions BB ->
    exists inst cost,
      getInstruction M i = Ok inst /\
      (b, i, cost) ∈ counted st /\
      (cost = testCost inst \/ cost = UInt.wrap (instructionInlineCost E inst)).

(** The children that the rule of the source accepts after a visited
    block are visited or wait in the buffer. *)
Definition liveVisited (M : SILModule) (root : DominanceInfoNode) (st : WalkState)
    (buffer : list DominanceInfoNode) : Prop :=
  forall pnode ptk cnode,
    pnode ∈ nodes root -> (node_block pnode, ptk) ∈ visitedBlocks st ->
    cnode ∈ node_children pnode ->
    liveAfter M (node_block pnode) ptk (node_block cnode) ->
    (exists tk, (node_block cnode, tk) ∈ visitedBlocks st) \/ cnode ∈ buffer.

(** The terminators that [getTakenBlock] folds by the constant of their
    operand, and those that it folds by the definition of their operand. *)
Definition foldsByConstant (term : SILInstruction) : bool :=
  match getKind term with
  | CondBranchInst _ _ | SwitchValueInst _ _ => true
  | _ => false
  end.

Definition foldsByDefinition (term : SILInstruction) : bool :=
  match getKind term with
  | SwitchEnumInst _ _ | CheckedCastBranchInst _ _ _ => true
  | _ => false
  end.

(** * Properties *)

(** ** Running a computation *)

Lemma bind_Ok {A B} (c : Result A) (k : A -> Result B) r :
  bind c k = Ok r -> exists a, c = Ok a /\ k a = Ok r.
Proof. destruct c as [a | e]; simpl; [eauto | discriminate]. Qed.

(** [invert_run H] splits a successful run [H] at its first [let*]. *)
Ltac invert_run H :=
  let a := fresh "a" in
  let Hrun := fresh "Hrun" in
  apply bind_Ok in H as [a [Hrun H]].

Tactic Notation "split_run" hyp(H) "as" simple_intropattern(a) ident(Ha) :=
  apply bind_Ok in H as [a [Ha H]].

(** ** Arithmetic on [unsigned] *)

Lemma wrap_range z : UInt.in_range (UInt.wrap z).
Proof. unfold UInt.in_range, UInt.wrap, UInt.modulus. apply Z.mod_pos_bound. lia. Qed.

Lemma wrap_small z : UInt.in_range z -> UInt.wrap z = z.
Proof. unfold UInt.in_range, UInt.wrap. intros H. apply Z.mod_small. exact H. Qed.

Lemma wrap_add_l a b : UInt.wrap (UInt.wrap a + b) = UInt.wrap (a + b).
Proof. unfold UInt.wrap. apply Zplus_mod_idemp_l. Qed.

(** ** The threshold of the profitability engine *)

Lemma blockMinus_range n : 0 <= blockMinus n <= 429496.
Proof.
  unfold blockMinus, UInt.div, BlockLimitDenominator.
  set (x := UInt.mul _ n).
  assert (Hx : UInt.in_range x) by apply wrap_range.
  unfold UInt.in_range, UInt.modulus in Hx.
  split.
  - apply Z.div_pos; lia.
  - assert (x / 10000 < 429497) by (apply Z.div_lt_upper_bound; lia). lia.
Qed.

(** Up to 35020 caller blocks no product overflows and the decay term is
    the cubic formula on unbounded integers. *)
Lemma blockMinus_cubic n : 0 <= n <= 35020 -> blockMinus n = cubicDecay n.
Proof.
  intros Hn. unfold blockMinus, cubicDecay, UInt.div, UInt.mul, BlockLimitDenominator.
  assert (Hsq : 0 <= n * n <= 35020 * 35020) by nia.
  rewrite (wrap_small (n * n)) by (unfold UInt.in_range, UInt.modulus; lia).
  assert (Hq : 0 <= n * n / 10000 <= 122640).
  { split; [apply Z.div_pos; lia |].
    assert (n * n / 10000 < 122641) by (apply Z.div_lt_upper_bound; lia). lia. }
  rewrite wrap_small; [reflexivity |].
  unfold UInt.in_range, UInt.modulus. nia.
Qed.

Lemma cubicDecay_mono a b : 0 <= a <= b -> cubicDecay a <= cubicDecay b.
Proof.
  intros H. unfold cubicDecay, BlockLimitDenominator.
  apply Z.div_le_mono; [lia |].
  assert (0 <= a * a / 10000) by (apply Z.div_pos; nia).
  assert (a * a / 10000 <= b * b / 10000) by (apply Z.div_le_mono; nia).
  nia.
Qed.

(** The threshold of the default case never drops below the trivial
    ceiling. *)
Lemma computeThreshold_floor Benefit testThreshold NumCallerBlocks :
  UInt.in_range Benefit -> testThreshold < 0 ->
  TrivialFunctionThreshold <= computeThreshold Benefit testThreshold false NumCallerBlocks.
Proof.
  intros HB Ht. unfold computeThreshold.
  destruct (Z.leb_spec 0 testThreshold); [lia |].
  pose proof (blockMinus_range NumCallerBlocks) as Hm.
  unfold UInt.add, UInt.sub, TrivialFunctionThreshold in *.
  unfold UInt.in_range, UInt.modulus in HB.
  rewrite (wrap_small (_ + 20)) by (unfold UInt.in_range, UInt.modulus; lia).
  destruct (Z.ltb_spec (blockMinus NumCallerBlocks + 20) Benefit); [| lia].
  rewrite wrap_small by (unfold UInt.in_range, UInt.modulus; lia). lia.
Qed.

(** Below the first overflow the threshold does not increase with the
    number of caller blocks. *)
Lemma computeThreshold_decay_small Benefit testThreshold n1 n2 :
  UInt.in_range Benefit -> testThreshold < 0 -> 0 <= n1 <= n2 -> n2 <= 35020 ->
  computeThreshold Benefit testThreshold false n2
  <= computeThreshold Benefit testThreshold false n1.
Proof.
  intros HB Ht H12 H2. unfold computeThreshold.
  destruct (Z.leb_spec 0 testThreshold); [lia |].
  pose proof (blockMinus_range n1) as Hm1.
  pose proof (blockMinus_range n2) as Hm2.
  assert (Hmono : blockMinus n1 <= blockMinus n2).
  { rewrite !blockMinus_cubic by lia. apply cubicDecay_mono. lia. }
  unfold UInt.add, UInt.sub, TrivialFunctionThreshold in *.
  unfold UInt.in_range, UInt.modulus in HB.
  rewrite !(wrap_small (_ + 20)) by (unfold UInt.in_range, UInt.modulus; lia).
  destruct (Z.ltb_spec (blockMinus n2 + 20) Benefit);
    destruct (Z.ltb_spec (blockMinus n1 + 20) Benefit);
    rewrite ?wrap_small by (unfold UInt.in_range, UInt.modulus; lia); lia.
Qed.

(** Claim C5.  In the default case the threshold is meant to shrink as the
    caller grows and to stay at or above the trivial ceiling.  The product
    [(NumCallerBlocks * NumCallerBlocks) / 10000 * NumCallerBlocks] wraps
    around at 35021 caller blocks: with the default benefit of 80 the
    threshold is 20 at 35020 blocks and rises to 55 at 35021 blocks, and it
    is the full 80 again at 65536 blocks. *)
Theorem threshold_rises_when_decay_overflows :
  blockMinus 35020 = 429485 /\
  blockMinus 35021 = 25 /\
  computeThreshold RemovedCallBenefit (-1) false 35020 = 20 /\
  computeThreshold RemovedCallBenefit (-1) false 35021 = 55 /\
  computeThreshold RemovedCallBenefit (-1) false 65536 = 80.
Proof. repeat split; vm_compute; reflexivity. Qed.

(** ** Profitability in a cold block *)

Section ColdBlockProperties.

Variable E : Externals.
Variable M : SILModule.
Variable C : Config.

Lemma coldBlockLoop_regular insts start t :
  t < 0 ->
  coldBlockLoop E insts start t = true <->
  forall k, (0 < k <= length insts)%nat ->
    runningCost E start (take k insts) <= TrivialFunctionThreshold.
Proof.
  intros Ht. revert start.
  induction insts as [| inst rest IH]; intros start; simpl.
  - split; [intros _ k Hk; lia | reflexivity].
  - destruct (Z.leb_spec 0 t) as [Hge | _]; [lia |].
    set (cost := UInt.add start (UInt.wrap (instructionInlineCost E inst))).
    destruct (Z.ltb_spec TrivialFunctionThreshold cost) as [Hover | Hfits].
    + split; [discriminate |].
      intros Hall. specialize (Hall 1%nat ltac:(lia)).
      simpl in Hall. rewrite ?take_0 in Hall. simpl in Hall. fold cost in Hall. lia.
    + rewrite IH. split.
      * intros Hall k Hk. destruct k as [| k]; [lia |].
        simpl. fold cost. destruct k as [| k].
        -- rewrite ?take_0. simpl. exact Hfits.
        -- apply Hall. lia.
      * intros Hall k Hk. specialize (Hall (S k) ltac:(lia)).
        simpl in Hall. exact Hall.
Qed.

(** Claim C6.  [isProfitableInColdBlock] accepts a call site exactly when
    the callee is always-inline, or the test threshold is off and the
    running sum of the regular costs of all the instructions of the
    callee, block after block, never exceeds the trivial ceiling; with
    the test threshold on, a callee that is not always-inline is
    refused. *)
Theorem cold_block_profitability this AI CalleeF insts :
  fn_instructions M CalleeF = Ok insts ->
  exists b this',
    isProfitableInColdBlock E M C this AI CalleeF = Ok (b, this') /\
    (b = true <->
     getInlineStrategy CalleeF = AlwaysInline \/
     (TestThreshold C < 0 /\
      forall k, (0 < k <= length insts)%nat ->
        runningCost E 0 (take k insts) <= TrivialFunctionThreshold)) /\
    (0 <= TestThreshold C -> getInlineStrategy CalleeF <> AlwaysInline -> b = false).
Proof.
  intros Hinsts. unfold isProfitableInColdBlock.
  assert (Hother :
    getInlineStrategy CalleeF <> AlwaysInline ->
    exists b this',
      (if 0 <=? TestThreshold C then Ok (false, this)
       else
         let* insts := fn_instructions M CalleeF in
         if coldBlockLoop E insts 0 (TestThreshold C)
         then Ok (true, if DebugEnabled C
                        then dumpCaller this (inst_getFunction AI) else this)
         else Ok (false, this)) = Ok (b, this') /\
      (b = true <->
       getInlineStrategy CalleeF = AlwaysInline \/
       (TestThreshold C < 0 /\
        forall k, (0 < k <= length insts)%nat ->
          runningCost E 0 (take k insts) <= TrivialFunctionThreshold)) /\
      (0 <= TestThreshold C -> getInlineStrategy CalleeF <> AlwaysInline -> b = false)).
  { intros Hnot. destruct (Z.leb_spec 0 (TestThreshold C)) as [Htest | Hregular].
    - exists false, this. split; [reflexivity |]. split; [| reflexivity].
      split; [discriminate |]. intros [Halways | [Hlt _]]; [contradiction | lia].
    - rewrite Hinsts. simpl.
      pose proof (coldBlockLoop_regular insts 0 (TestThreshold C) Hregular) as Hloop.
      destruct (coldBlockLoop E insts 0 (TestThreshold C)).
      + eexists true, _. split; [reflexivity |]. split; [| lia].
        split; [| reflexivity]. intros _. right. split; [lia |].
        apply Hloop. reflexivity.
      + exists false, this. split; [reflexivity |]. split; [| reflexivity].
        split; [discriminate |]. intros [Halways | [_ Hall]]; [contradiction |].
        apply Hloop. exact Hall. }
  destruct (getInlineStrategy CalleeF) eqn:Hstrategy.
  - apply Hother. discriminate.
  - apply Hother. discriminate.
  - exists true, this. split; [reflexivity |]. split.
    + split; [intros _; left; reflexivity | reflexivity].
    + intros _ Hnot. contradiction.
Qed.

End ColdBlockProperties.

(** The callee of the sample has six instructions of cost one: it is
    accepted in a cold block when the test threshold is off. *)
Lemma cold_block_profitability_witness :
  exists insts,
    fn_instructions Sample.fallThrough Sample.callee = Ok insts /\
    exists b this',
      isProfitableInColdBlock Sample.externals Sample.fallThrough (Sample.config (-1))
        Sample.fresh Sample.call Sample.callee = Ok (b, this') /\
      (b = true <->
       getInlineStrategy Sample.callee = AlwaysInline \/
       (TestThreshold (Sample.config (-1)) < 0 /\
        forall k, (0 < k <= length insts)%nat ->
          runningCost Sample.externals 0 (take k insts) <= TrivialFunctionThreshold)) /\
      (0 <= TestThreshold (Sample.config (-1)) ->
       getInlineStrategy Sample.callee <> AlwaysInline -> b = false).
Proof.
  eexists. split; [vm_compute; reflexivity |].
  apply cold_block_profitability. vm_compute. reflexivity.
Defined.

(** ** The multiplicity guard *)

Section MultiplicityGuard.

Implicit Types candidates : list (positive * positive).

Lemma occurrences_nil Callee : occurrences Callee [] = 0.
Proof. reflexivity. Qed.

Lemma occurrences_cons_eq AI Callee candidates :
  occurrences Callee ((AI, Callee) :: candidates) = occurrences Callee candidates + 1.
Proof.
  unfold occurrences. rewrite filter_cons_True by reflexivity. simpl length. lia.
Qed.

Lemma occurrences_cons_ne AI Callee Callee' candidates :
  Callee' <> Callee ->
  occurrences Callee ((AI, Callee') :: candidates) = occurrences Callee candidates.
Proof.
  intros Hne. unfold occurrences. rewrite filter_cons_False by (simpl; congruence).
  reflexivity.
Qed.

Lemma occurrences_bounds Callee candidates :
  0 <= occurrences Callee candidates <= Z.of_nat (length candidates).
Proof.
  unfold occurrences. pose proof (length_filter (fun p => p.2 = Callee) candidates). lia.
Qed.

(** After the counting loop the entry of a callee is its number of
    occurrences, added on [unsigned] to what the map held before. *)
Lemma countCallees_lookup candidates (CalleeCount : gmap positive Z) Callee :
  default 0 (countCallees candidates CalleeCount !! Callee) =
  if occurrences Callee candidates =? 0
  then default 0 (CalleeCount !! Callee)
  else UInt.wrap (default 0 (CalleeCount !! Callee) + occurrences Callee candidates).
Proof.
  revert CalleeCount.
  induction candidates as [| [AI Callee'] rest IH]; intros CalleeCount; simpl.
  - reflexivity.
  - rewrite IH. pose proof (occurrences_bounds Callee rest) as Hocc.
    destruct (decide (Callee' = Callee)) as [-> | Hne].
    + rewrite occurrences_cons_eq, lookup_insert_eq. simpl.
      destruct (Z.eqb_spec (occurrences Callee rest + 1) 0) as [| _]; [lia |].
      unfold UInt.add.
      destruct (Z.eqb_spec (occurrences Callee rest) 0) as [-> | _].
      * f_equal; lia.
      * rewrite wrap_add_l. f_equal; lia.
    + rewrite occurrences_cons_ne by exact Hne.
      rewrite lookup_insert_ne by exact Hne. reflexivity.
Qed.

Lemma copyCandidates_filter candidates (CalleeCount : gmap positive Z) Applies :
  copyCandidates candidates CalleeCount Applies =
  Applies ++
  (filter (fun p => default 0 (CalleeCount !! p.2) <= CallsToCalleeThreshold)
     candidates).*1.
Proof.
  revert Applies.
  induction candidates as [| [AI Callee] rest IH]; intros Applies; simpl.
  - rewrite app_nil_r. reflexivity.
  - rewrite IH.
    destruct (Z.leb_spec (default 0 (CalleeCount !! Callee)) CallsToCalleeThreshold).
    + rewrite filter_cons_True by (simpl; lia). simpl.
      rewrite <- app_assoc. reflexivity.
    + rewrite filter_cons_False by (simpl; lia). reflexivity.
Qed.



End MultiplicityGuard.


(** With exactly 1024 accepted call sites the callee keeps them all. *)
Example exactly_1024_are_kept :
  multiplicityGuard (replicate 1024 (103%positive, 3%positive)) []
  = replicate 1024 103%positive.
Proof. vm_compute. reflexivity. Qed.

(** ** The constant tracker *)

Section TrackerProperties.

Variable E : Externals.
Variable M : SILModule.
Variable fuel : nat.

Lemma IntConst_make_ok v fromCaller : IntConst_ok (IntConst_make v fromCaller).
Proof. intros _. reflexivity. Qed.

Lemma IntConst_invalid_ok : IntConst_ok IntConst_invalid.
Proof. intros H. discriminate H. Qed.

Lemma cache_ok_insert T BI c :
  cache_ok T -> IntConst_ok c ->
  cache_ok (set_constCache T (<[BI := c]> (constCache T))).
Proof.
  intros HT Hc BI' c'. simpl. rewrite lookup_insert.
  case_decide; [intros [= <-]; exact Hc | apply HT].
Qed.

Lemma getBuiltinConst_body_ok eval T BI ID c T' :
  evaluates_ok eval -> cache_ok T ->
  getBuiltinConst_body E eval T BI ID = Ok (c, T') ->
  IntConst_ok c /\ cache_ok T'.
Proof.
  intros Heval HT Hrun.
  assert (Hbinary : forall fold divisor,
    (let* (lhs, T) := eval T (getOperand BI 0) in
     let* (rhs, T) := eval T (getOperand BI 1) in
     if isValid lhs && isValid rhs && (negb divisor || negb (value rhs =? 0))
     then Ok (IntConst_make (fold (value lhs) (value rhs) ID)
                (isFromCaller lhs || isFromCaller rhs), T)
     else Ok (IntConst_invalid, T)) = Ok (c, T') ->
    IntConst_ok c /\ cache_ok T').
  { intros fold divisor H.
    invert_run H. destruct a as [lhs T1].
    invert_run H. destruct a as [rhs T2].
    apply Heval in Hrun0 as [_ HT1]; [| exact HT].
    apply Heval in Hrun1 as [_ HT2]; [| exact HT1].
    destruct (isValid lhs && isValid rhs && (negb divisor || negb (value rhs =? 0)));
      injection H as <- <-; split; auto using IntConst_make_ok, IntConst_invalid_ok. }
  assert (Hunary :
    (let* (val, T) := eval T (getOperand BI 0) in
     if isValid val
     then Ok (IntConst_make (constantFoldCast E (value val) ID) (isFromCaller val), T)
     else Ok (IntConst_invalid, T)) = Ok (c, T') ->
    IntConst_ok c /\ cache_ok T').
  { intros H. invert_run H. destruct a as [val T1].
    apply Heval in Hrun0 as [_ HT1]; [| exact HT].
    destruct (isValid val); injection H as <- <-; split;
      auto using IntConst_make_ok, IntConst_invalid_ok. }
  destruct ID;
    first
      [ exact (Hbinary (constantFoldComparison E) false Hrun)
      | exact (Hbinary (constantFoldBinaryWithOverflow E) false Hrun)
      | exact (Hbinary (constantFoldDiv E) true Hrun)
      | exact (Hbinary (constantFoldBitOperation E) false Hrun)
      | exact (Hunary Hrun)
      | injection Hrun as <- <-; split; auto using IntConst_invalid_ok ].
Qed.

Lemma getIntConst_upto_ok depthLeft : evaluates_ok (getIntConst_upto E M fuel depthLeft).
Proof.
  induction depthLeft as [| depthLeft IH]; intros T val c T' HT Hrun; simpl in Hrun.
  - injection Hrun as <- <-. split; [apply IntConst_invalid_ok | exact HT].
  - invert_run Hrun. destruct a as [d |].
    + invert_run Hrun. rename a into inst.
      destruct (getKind inst) eqn:Hkind;
        try (injection Hrun as <- <-; split;
             [first [apply IntConst_invalid_ok | apply IntConst_make_ok] | exact HT]).
      destruct (constCache T !! d) as [cached |] eqn:Hcache.
      * injection Hrun as <- <-. split; [eapply HT; exact Hcache | exact HT].
      * invert_run Hrun. destruct a as [builtinConst T1].
        injection Hrun as <- <-.
        apply getBuiltinConst_body_ok in Hrun2 as [Hc HT1]; [| exact IH | exact HT].
        split; [exact Hc | apply cache_ok_insert; assumption].
    + injection Hrun as <- <-. split; [apply IntConst_invalid_ok | exact HT].
Qed.

(** Claim C10.  From a tracker whose cache holds the invariant (the
    cache of a new tracker is empty), every [IntConst] that [getIntConst]
    or [getBuiltinConst] returns satisfies [isFromCaller -> isValid], and
    so does every entry they add to the cache; hence the constant that
    [getTakenBlock] reads after testing [isFromCaller] alone is valid. *)
Theorem intconst_from_caller_is_valid T :
  cache_ok T ->
  (forall val depth c T',
     getIntConst E M fuel T val depth = Ok (c, T') ->
     (isFromCaller c = true -> isValid c = true) /\ cache_ok T') /\
  (forall BI ID depth c T',
     getBuiltinConst E M fuel T BI ID depth = Ok (c, T') ->
     (isFromCaller c = true -> isValid c = true) /\ cache_ok T') /\
  (forall term c T',
     getIntConst E M fuel T (getOperand term 0) 0 = Ok (c, T') ->
     forall taken, takenBlockOfConst M term c = Some taken -> isValid c = true).
Proof.
  intros HT. split; [| split].
  - intros val depth c T' Hrun. eapply getIntConst_upto_ok; eassumption.
  - intros BI ID depth c T' Hrun.
    eapply getBuiltinConst_body_ok; [apply getIntConst_upto_ok | exact HT | exact Hrun].
  - intros term c T' Hrun taken Htaken.
    apply getIntConst_upto_ok in Hrun as [Hc _]; [| exact HT].
    apply Hc. unfold takenBlockOfConst in Htaken.
    destruct (getKind term); try discriminate;
      destruct (isFromCaller c); [reflexivity | discriminate | reflexivity | discriminate].
Qed.

End TrackerProperties.

(** In the sample the argument of the callee is the literal 1 of the
    caller. *)
Example getIntConst_of_argument :
  getIntConst Sample.externals Sample.fallThrough 20 (Sample.calleeTracker 2)
    (Some 200%positive) 0
  = Ok ({| value := 1; isValid := true; isFromCaller := true |}, Sample.calleeTracker 2).
Proof. vm_compute. reflexivity. Qed.

Lemma intconst_from_caller_is_valid_witness :
  let E := Sample.externals in
  let M := Sample.fallThrough in
  let T := Sample.calleeTracker 2 in
  cache_ok T /\
  (forall val depth c T',
     getIntConst E M 20 T val depth = Ok (c, T') ->
     (isFromCaller c = true -> isValid c = true) /\ cache_ok T') /\
  (forall BI ID depth c T',
     getBuiltinConst E M 20 T BI ID depth = Ok (c, T') ->
     (isFromCaller c = true -> isValid c = true) /\ cache_ok T') /\
  (forall term c T',
     getIntConst E M 20 T (getOperand term 0) 0 = Ok (c, T') ->
     forall taken, takenBlockOfConst M term c = Some taken -> isValid c = true).
Proof.
  intros E M T.
  assert (HT : cache_ok T) by (intros BI c H; vm_compute in H; discriminate H).
  split; [exact HT |].
  exact (intconst_from_caller_is_valid E M 20 T HT).
Defined.

(** ** Terminator folding *)

Section TerminatorProperties.

Variable E : Externals.
Variable M : SILModule.
Variable fuel : nat.

Lemma switchValueCases_cons caseValue caseBB rest c :
  switchValueCases M ((caseValue, caseBB) :: rest) c =
  match caseLiteral M caseValue with
  | Some v => if c =? v then Some (Some caseBB) else switchValueCases M rest c
  | None => Some None
  end.
Proof.
  simpl. unfold caseLiteral.
  destruct (asInstruction M caseValue) as [IL |]; [| reflexivity].
  destruct (getKind IL); reflexivity.
Qed.

Lemma switchValueCases_amended cases DefaultBB c :
  match switchValueCases M cases c with
  | Some result => result
  | None => DefaultBB
  end = switchValue_amended M cases DefaultBB c.
Proof.
  unfold switchValue_amended, allCasesLiteral.
  induction cases as [| [caseValue caseBB] rest IH].
  - reflexivity.
  - rewrite switchValueCases_cons. simpl. unfold isLiteralCase at 1. simpl.
    destruct (caseLiteral M caseValue) as [v |]; [| reflexivity].
    simpl. destruct (c =? v); [reflexivity | exact IH].
Qed.

Lemma getDefInCaller_in_caller T val d inst :
  getDefInCaller E M fuel T val = Ok (Some (d, inst)) ->
  inst_getFunction inst <> F T.
Proof.
  unfold getDefInCaller. intros H. invert_run H.
  destruct a as [d' |]; [| discriminate].
  invert_run H. destruct (bool_decide (inst_getFunction a = F T)) eqn:Hsame.
  - discriminate.
  - simpl in H. injection H as <- <-. apply bool_decide_eq_false in Hsame. exact Hsame.
Qed.

(** Claim C8, as amended.  [getTakenBlock] names a successor only from
    what the caller supplies.  For a [cond_br] or a [switch_value] it
    does so by the constant of the operand, which has the from-caller
    flag; a constant without the flag gives no successor.  For a
    [switch_enum] or a [checked_cast_br] it does so by the definition of
    the operand, an [enum] or an [upcast] instruction of another
    function; an operand without such a definition gives no successor.
    No other terminator gives one.  For a [switch_value] whose constant
    is from the caller the successor is that of the first matching
    literal case among the cases in front of the first non-literal case
    value, the declared default when every case value is a literal and
    none matches, and none otherwise. *)
Theorem taken_block_from_caller_constant T term :
  (forall taken T',
     getTakenBlock E M fuel T term = Ok (Some taken, T') ->
     (foldsByConstant term = true /\
      exists c,
        getIntConst E M fuel T (getOperand term 0) 0 = Ok (c, T') /\
        isFromCaller c = true /\
        takenBlockOfConst M term c = Some taken) \/
     (foldsByDefinition term = true /\ T' = T /\
      exists d inst,
        getDefInCaller E M fuel T (getOperand term 0) = Ok (Some (d, inst)) /\
        inst_getFunction inst <> F T /\
        match getKind term with
        | SwitchEnumInst cases DefaultBB =>
            exists element,
              getKind inst = EnumInst element /\
              Some taken = match switchEnumCases cases element with
                           | Some caseBB => Some caseBB
                           | None => DefaultBB
                           end
        | CheckedCastBranchInst CastType SuccessBB FailureBB =>
            getKind inst = UpcastInst /\ (taken = SuccessBB \/ taken = FailureBB)
        | _ => False
        end)) /\
  (forall c T',
     foldsByConstant term = true ->
     getIntConst E M fuel T (getOperand term 0) 0 = Ok (c, T') ->
     isFromCaller c = false ->
     getTakenBlock E M fuel T term = Ok (None, T')) /\
  (foldsByDefinition term = true ->
   getDefInCaller E M fuel T (getOperand term 0) = Ok None ->
   getTakenBlock E M fuel T term = Ok (None, T)) /\
  (forall cases DefaultBB c T',
     getKind term = SwitchValueInst cases DefaultBB ->
     getIntConst E M fuel T (getOperand term 0) 0 = Ok (c, T') ->
     getTakenBlock E M fuel T term =
     Ok (if isFromCaller c then switchValue_amended M cases DefaultBB (value c)
         else None, T')).
Proof.
  split; [| split; [| split]].
  - intros taken T' Hrun. unfold getTakenBlock in Hrun.
    unfold foldsByConstant, foldsByDefinition.
    destruct (getKind term) eqn:Hkind; try discriminate.
    + left. split; [reflexivity |].
      invert_run Hrun. destruct a as [c T1]. injection Hrun as Htaken <-.
      exists c. split; [exact Hrun0 |]. split; [| exact Htaken].
      unfold takenBlockOfConst in Htaken. rewrite Hkind in Htaken.
      destruct (isFromCaller c); [reflexivity | discriminate].
    + left. split; [reflexivity |].
      invert_run Hrun. destruct a as [c T1]. injection Hrun as Htaken <-.
      exists c. split; [exact Hrun0 |]. split; [| exact Htaken].
      unfold takenBlockOfConst in Htaken. rewrite Hkind in Htaken.
      destruct (isFromCaller c); [reflexivity | discriminate].
    + right. split; [reflexivity |].
      invert_run Hrun. destruct a as [[d inst] |]; [| discriminate].
      pose proof (getDefInCaller_in_caller _ _ _ _ Hrun0) as Hcaller.
      destruct (getKind inst) eqn:Hinst; try discriminate.
      destruct (switchEnumCases cases element) as [caseBB |] eqn:Hcases;
        injection Hrun as Htaken <-; (split; [reflexivity |]);
        exists d, inst; (split; [exact Hrun0 |]); (split; [exact Hcaller |]);
        exists element; rewrite Hinst, Hcases, Htaken; auto.
    + right. split; [reflexivity |].
      invert_run Hrun. destruct a as [[d inst] |]; [| discriminate].
      pose proof (getDefInCaller_in_caller _ _ _ _ Hrun0) as Hcaller.
      destruct (getKind inst) eqn:Hinst; try discriminate.
      destruct (isExactSuperclassOf E CastType (getType E (getOperand inst 0))).
      { injection Hrun as <- <-. split; [reflexivity |].
        exists d, inst. rewrite Hinst. auto. }
      destruct (negb (isBindableToSuperclassOf E (getType E (getOperand inst 0))
                        CastType)); [| discriminate].
      injection Hrun as <- <-. split; [reflexivity |].
      exists d, inst. rewrite Hinst. auto.
  - intros c T' Hfolds Hconst Hflag. unfold getTakenBlock, foldsByConstant in *.
    destruct (getKind term) eqn:Hkind; try discriminate;
      rewrite Hconst; simpl; unfold takenBlockOfConst; rewrite Hkind, Hflag;
      reflexivity.
  - intros Hfolds Hdef. unfold getTakenBlock, foldsByDefinition in *.
    destruct (getKind term) eqn:Hkind; try discriminate;
      rewrite Hdef; reflexivity.
  - intros cases DefaultBB c T' Hkind Hconst.
    unfold getTakenBlock. rewrite Hkind, Hconst. simpl.
    unfold takenBlockOfConst. rewrite Hkind.
    destruct (isFromCaller c); [| reflexivity].
    rewrite switchValueCases_amended. reflexivity.
Qed.

End TerminatorProperties.

(** In the sample the switch is on the literal 5 of the caller, the second
    case is the literal 5, and the first case value is a load: the source
    stops at the first case and names no successor, where the words of the
    specification name the successor of the second case. *)
Lemma switch_value_first_match_fails :
  let E := Sample.externals in
  let M := Sample.switchOnArgument in
  let T := Sample.calleeTracker 3 in
  getIntConst E M 20 T (getOperand Sample.switchTerminator 0) 0
  = Ok ({| value := 5; isValid := true; isFromCaller := true |}, T) /\
  switchValue_claimed M [(Some 301, 31); (Some 302, 32)]%positive (Some 33%positive) 5
  = Some 32%positive /\
  getTakenBlock E M 20 T Sample.switchTerminator = Ok (None, T) /\
  getTakenBlock E M 20 T Sample.switchTerminator
  <> Ok (switchValue_claimed M [(Some 301, 31); (Some 302, 32)]%positive
           (Some 33%positive) 5, T).
Proof.
  intros E M T.
  split; [vm_compute; reflexivity |]. split; [vm_compute; reflexivity |].
  split; [vm_compute; reflexivity |]. vm_compute. discriminate.
Qed.

Lemma taken_block_from_caller_constant_witness :
  let E := Sample.externals in
  let T2 := Sample.calleeTracker 2 in
  let T3 := Sample.calleeTracker 3 in
  let branch :=
    {| getKind := CondBranchInst 21 22; getOperands := [Some 200%positive];
       inst_getFunction := 2%positive |} in
  (getTakenBlock E Sample.fallThrough 20 T2 branch = Ok (Some 21%positive, T2) /\
   foldsByConstant branch = true /\
   exists c,
     getIntConst E Sample.fallThrough 20 T2 (getOperand branch 0) 0 = Ok (c, T2) /\
     isFromCaller c = true /\
     takenBlockOfConst Sample.fallThrough branch c = Some 21%positive) /\
  (getIntConst E Sample.switchOnArgument 20 T3 (getOperand Sample.switchTerminator 0) 0
   = Ok (IntConst_make 5 true, T3) /\
   getTakenBlock E Sample.switchOnArgument 20 T3 Sample.switchTerminator =
   Ok (if isFromCaller (IntConst_make 5 true)
       then switchValue_amended Sample.switchOnArgument
              [(Some 301, 31); (Some 302, 32)]%positive (Some 33%positive)
              (value (IntConst_make 5 true))
       else None, T3)).
Proof.
  intros E T2 T3 branch. split.
  - assert (H : getTakenBlock E Sample.fallThrough 20 T2 branch = Ok (Some 21%positive, T2))
      by (vm_compute; reflexivity).
    split; [exact H |].
    destruct (proj1 (taken_block_from_caller_constant E Sample.fallThrough 20 T2 branch)
                _ _ H) as [Hconstant | [Hdefinition _]];
      [exact Hconstant | discriminate Hdefinition].
  - assert (H : getIntConst E Sample.switchOnArgument 20 T3
                  (getOperand Sample.switchTerminator 0) 0
                = Ok (IntConst_make 5 true, T3)) by (vm_compute; reflexivity).
    split; [exact H |].
    exact (proj2 (proj2 (proj2
             (taken_block_from_caller_constant E Sample.switchOnArgument 20 T3
                Sample.switchTerminator))) _ _ _ _ eq_refl H).
Defined.

(** ** What the tracker keeps *)

Section TrackerFrame.

Variable E : Externals.
Variable M : SILModule.
Variable fuel : nat.

Lemma sameView_refl T : sameView T T.
Proof. repeat split. Qed.

Lemma sameView_trans T1 T2 T3 : sameView T1 T2 -> sameView T2 T3 -> sameView T1 T3.
Proof.
  intros (H1 & H2 & H3 & H4 & H5) (H1' & H2' & H3' & H4' & H5').
  repeat split; congruence.
Qed.

(** What a run of [getIntConst] leaves untouched. *)
Lemma getBuiltinConst_body_view eval T BI ID c T' :
  (forall T val c T', eval T val = Ok (c, T') -> sameView T T') ->
  getBuiltinConst_body E eval T BI ID = Ok (c, T') -> sameView T T'.
Proof.
  intros Heval H.
  assert (Hbinary : forall fold divisor,
    (let* (lhs, T) := eval T (getOperand BI 0) in
     let* (rhs, T) := eval T (getOperand BI 1) in
     if isValid lhs && isValid rhs && (negb divisor || negb (value rhs =? 0))
     then Ok (IntConst_make (fold (value lhs) (value rhs) ID)
                (isFromCaller lhs || isFromCaller rhs), T)
     else Ok (IntConst_invalid, T)) = Ok (c, T') -> sameView T T').
  { intros fold divisor Hb.
    split_run Hb as r1 H1. destruct r1 as [lhs T1].
    split_run Hb as r2 H2. destruct r2 as [rhs T2].
    apply Heval in H1, H2.
    destruct (isValid lhs && isValid rhs && (negb divisor || negb (value rhs =? 0)));
      injection Hb as _ <-; eapply sameView_trans; eassumption. }
  assert (Hunary :
    (let* (val, T) := eval T (getOperand BI 0) in
     if isValid val
     then Ok (IntConst_make (constantFoldCast E (value val) ID) (isFromCaller val), T)
     else Ok (IntConst_invalid, T)) = Ok (c, T') -> sameView T T').
  { intros Hu. split_run Hu as r1 H1. destruct r1 as [val T1].
    apply Heval in H1. destruct (isValid val); injection Hu as _ <-; exact H1. }
  destruct ID;
    first
      [ exact (Hbinary (constantFoldComparison E) false H)
      | exact (Hbinary (constantFoldBinaryWithOverflow E) false H)
      | exact (Hbinary (constantFoldDiv E) true H)
      | exact (Hbinary (constantFoldBitOperation E) false H)
      | exact (Hunary H)
      | injection H as _ <-; apply sameView_refl ].
Qed.

Lemma getIntConst_upto_view depthLeft T val c T' :
  getIntConst_upto E M fuel depthLeft T val = Ok (c, T') -> sameView T T'.
Proof.
  revert T val c T'. induction depthLeft as [| k IH]; intros T val c T' H; simpl in H.
  - injection H as _ <-. apply sameView_refl.
  - split_run H as def Hdef. destruct def as [d |];
      [| injection H as _ <-; apply sameView_refl].
    split_run H as inst Hinst.
    destruct (getKind inst); try (injection H as _ <-; apply sameView_refl).
    destruct (constCache T !! d); [injection H as _ <-; apply sameView_refl |].
    split_run H as r Hbody. destruct r as [builtinConst T1]. injection H as _ <-.
    apply getBuiltinConst_body_view in Hbody; [| exact IH].
    destruct Hbody as (H1 & H2 & H3 & H4 & H5). repeat split; assumption.
Qed.

Lemma sameView_identity T T' : sameView T T' -> sameIdentity T T'.
Proof. intros (_ & _ & Hcaller & HAI & HF). repeat split; assumption. Qed.

Lemma sameIdentity_refl T : sameIdentity T T.
Proof. repeat split. Qed.

Lemma sameIdentity_trans T1 T2 T3 :
  sameIdentity T1 T2 -> sameIdentity T2 T3 -> sameIdentity T1 T3.
Proof. intros (H1 & H2 & H3) (H1' & H2' & H3'). repeat split; congruence. Qed.

Lemma trackInst_identity T i T' : trackInst M fuel T i = Ok T' -> sameIdentity T T'.
Proof.
  unfold trackInst. intros H. split_run H as ins Hins.
  destruct (getKind ins); try (injection H as <-; apply sameIdentity_refl).
  - split_run H as r Hscan. destruct r as [baseAddr projections].
    destruct (getMemoryContent T baseAddr); injection H as <-; repeat split.
  - split_run H as r Hscan. destruct r as [baseAddr projections].
    injection H as <-. repeat split.
  - destruct (negb isTakeOfSrc); [| injection H as <-; apply sameIdentity_refl].
    split_run H as r Hscan. destruct r as [loadAddr projections].
    destruct (getMemoryContent T loadAddr);
      [| injection H as <-; apply sameIdentity_refl].
    split_run H as r' Hscan'. destruct r' as [storeAddr projections'].
    injection H as <-. repeat split.
Qed.

Lemma trackInsts_identity insts T T' :
  trackInsts M fuel insts T = Ok T' -> sameIdentity T T'.
Proof.
  revert T. induction insts as [| i rest IH]; intros T H; simpl in H.
  - injection H as <-. apply sameIdentity_refl.
  - split_run H as T1 Hfirst. eapply sameIdentity_trans;
      [eapply trackInst_identity; exact Hfirst | apply IH; exact H].
Qed.

Lemma trackInsts_app insts1 insts2 T :
  trackInsts M fuel (insts1 ++ insts2) T =
  let* T1 := trackInsts M fuel insts1 T in trackInsts M fuel insts2 T1.
Proof.
  revert T. induction insts1 as [| i rest IH]; intros T; simpl; [reflexivity |].
  destruct (trackInst M fuel T i) as [T1 | e]; simpl; [apply IH | reflexivity].
Qed.

Lemma getTakenBlock_view T term taken T' :
  getTakenBlock E M fuel T term = Ok (taken, T') -> sameView T T'.
Proof.
  unfold getTakenBlock. intros H.
  destruct (getKind term); try (injection H as _ <-; apply sameView_refl).
  - split_run H as r Hconst. destruct r as [c T1]. injection H as _ <-.
    eapply getIntConst_upto_view. exact Hconst.
  - split_run H as r Hconst. destruct r as [c T1]. injection H as _ <-.
    eapply getIntConst_upto_view. exact Hconst.
  - split_run H as def Hdef.
    destruct def as [[d EI] |]; [| injection H as _ <-; apply sameView_refl].
    destruct (getKind EI); try (injection H as _ <-; apply sameView_refl).
    destruct (switchEnumCases cases element); injection H as _ <-; apply sameView_refl.
  - split_run H as def Hdef.
    destruct def as [[d UCI] |]; [| injection H as _ <-; apply sameView_refl].
    destruct (getKind UCI); try (injection H as _ <-; apply sameView_refl).
    destruct (isExactSuperclassOf E CastType (getType E (getOperand UCI 0)));
      [injection H as _ <-; apply sameView_refl |].
    destruct (negb (isBindableToSuperclassOf E (getType E (getOperand UCI 0)) CastType));
      injection H as _ <-; apply sameView_refl.
Qed.

End TrackerFrame.

(** ** The decision of the profitability engine *)

Section DecisionProperties.

Variable E : Externals.
Variable M : SILModule.
Variable An : Analyses.
Variable C : Config.
Variable fuel : nat.

(** Claim C3, as amended.  An always-inline callee is profitable
    whatever it costs, and the counter of caller blocks is left as it
    was.  Any other callee is profitable exactly when
    [CalleeCost <= Threshold] for the cost, the benefit and the test
    threshold that the walk of the callee computed, and when it is
    accepted the number of its blocks is added to the counter (on
    [unsigned]); when it is refused the counter is unchanged. *)
Theorem profitability_decision this AI apply Callee CalleeF loopDepthOfAI
    callerTracker NumCallerBlocks :
  getInstruction M AI = Ok apply ->
  getReferencedFunction M apply = Some Callee ->
  getFunction M Callee = Ok CalleeF ->
  (getInlineStrategy CalleeF = AlwaysInline ->
   isProfitableToInline E M An C fuel this AI loopDepthOfAI callerTracker
     NumCallerBlocks = Ok (true, NumCallerBlocks, this)) /\
  (getInlineStrategy CalleeF <> AlwaysInline ->
   forall profitable blocks this',
     isProfitableToInline E M An C fuel this AI loopDepthOfAI callerTracker
       NumCallerBlocks = Ok (profitable, blocks, this') ->
     exists w CallerF,
       analyzeCallee E M An C fuel AI apply Callee CalleeF loopDepthOfAI callerTracker
       = Ok w /\
       getFunction M (inst_getFunction apply) = Ok CallerF /\
       (profitable = true <->
        CalleeCost w <=
        computeThreshold (Benefit w) (testThreshold w) (isThunk CallerF)
          NumCallerBlocks) /\
       blocks =
       if profitable then UInt.add NumCallerBlocks (fn_size CalleeF)
       else NumCallerBlocks).
Proof.
  intros Happly Hcallee HcalleeF. unfold isProfitableToInline.
  rewrite Happly. simpl. rewrite Hcallee. simpl. rewrite HcalleeF. simpl.
  split.
  - intros ->. reflexivity.
  - intros Hnot profitable blocks this' Hrun.
    assert (Hwalk :
      (let* w := analyzeCallee E M An C fuel AI apply Callee CalleeF loopDepthOfAI
                   callerTracker in
       let* CallerF := getFunction M (inst_getFunction apply) in
       let Threshold :=
         computeThreshold (Benefit w) (testThreshold w) (isThunk CallerF)
           NumCallerBlocks in
       if Threshold <? CalleeCost w then Ok (false, NumCallerBlocks, this)
       else
         Ok (true, UInt.add NumCallerBlocks (fn_size CalleeF),
             if DebugEnabled C then dumpCaller this (inst_getFunction apply) else this))
      = Ok (profitable, blocks, this')).
    { destruct (getInlineStrategy CalleeF); [exact Hrun | exact Hrun | contradiction]. }
    clear Hrun. invert_run Hwalk. rename a into w.
    invert_run Hwalk. rename a into CallerF.
    exists w, CallerF. split; [exact Hrun |]. split; [exact Hrun0 |].
    simpl in Hwalk.
    destruct (Z.ltb_spec
                (computeThreshold (Benefit w) (testThreshold w) (isThunk CallerF)
                   NumCallerBlocks) (CalleeCost w));
      injection Hwalk as <- <- <-; split; try reflexivity; split;
        try discriminate; try reflexivity; lia.
Qed.

End DecisionProperties.

(** The callee of three blocks is marked always-inline: the call site is
    accepted and the counter of caller blocks stays at 1, where the claim has
    it grow to 4. *)
Lemma always_inline_leaves_counter :
  isProfitableToInline Sample.externals Sample.forced Sample.fallThroughAnalyses
    (Sample.config (-1)) 20 Sample.fresh 102%positive 0 (ConstantTracker_caller 1) 1
  = Ok (true, 1, Sample.fresh) /\
  UInt.add 1 (fn_size (Sample.function [20; 21; 22]%positive AlwaysInline)) = 4.
Proof. split; vm_compute; reflexivity. Qed.

Lemma profitability_decision_witness :
  let E := Sample.externals in
  let M := Sample.fallThrough in
  let An := Sample.fallThroughAnalyses in
  let C := Sample.config (-1) in
  let T := ConstantTracker_caller 1 in
  (getInstruction M 102%positive = Ok Sample.call /\
   getReferencedFunction M Sample.call = Some 2%positive /\
   getFunction M 2%positive = Ok Sample.callee /\
   getInlineStrategy Sample.callee <> AlwaysInline /\
   isProfitableToInline E M An C 20 Sample.fresh 102%positive 0 T 1
   = Ok (true, 4, dumpCaller Sample.fresh 1%positive)) /\
  exists w CallerF,
    analyzeCallee E M An C 20 102%positive Sample.call 2%positive Sample.callee 0 T
    = Ok w /\
    getFunction M (inst_getFunction Sample.call) = Ok CallerF /\
    (true = true <->
     CalleeCost w <=
     computeThreshold (Benefit w) (testThreshold w) (isThunk CallerF) 1) /\
    4 = if true then UInt.add 1 (fn_size Sample.callee) else 1.
Proof.
  intros E M An C T.
  assert (H1 : getInstruction M 102%positive = Ok Sample.call) by (vm_compute; reflexivity).
  assert (H2 : getReferencedFunction M Sample.call = Some 2%positive)
    by (vm_compute; reflexivity).
  assert (H3 : getFunction M 2%positive = Ok Sample.callee) by (vm_compute; reflexivity).
  assert (H4 : getInlineStrategy Sample.callee <> AlwaysInline) by (vm_compute; discriminate).
  assert (H5 : isProfitableToInline E M An C 20 Sample.fresh 102%positive 0 T 1
               = Ok (true, 4, dumpCaller Sample.fresh 1%positive))
    by (vm_compute; reflexivity).
  split; [repeat split; assumption |].
  exact (proj2 (profitability_decision E M An C 20 Sample.fresh 102%positive Sample.call
                  2%positive Sample.callee 0 T 1 H1 H2 H3) H4 _ _ _ H5).
Defined.

(** ** The eligibility filter and the collector *)

Section CollectorProperties.

Variable E : Externals.
Variable M : SILModule.
Variable An : Analyses.
Variable C : Config.
Variable fuel : nat.

Lemma getEligibleFunction_Some inst Callee :
  getEligibleFunction E M C inst = Ok (Some Callee) ->
  exists CalleeF CallerF, Eligible E M C inst Callee CalleeF CallerF.
Proof.
  unfold getEligibleFunction. intros H.
  destruct (getReferencedFunction M inst) as [Callee' |] eqn:Hcallee; [| discriminate].
  invert_run H. rename a into CalleeF.
  destruct (skippedBySelection C CalleeF) eqn:Hselection; [discriminate |].
  destruct (fn_empty CalleeF || isExternalDeclaration CalleeF) eqn:Hbody; [discriminate |].
  apply orb_false_elim in Hbody.
  destruct (getInlineStrategy CalleeF) eqn:Hstrategy; try discriminate.
  - destruct (shouldOptimize CalleeF) eqn:Hoptimize; [| discriminate].
    destruct (hasSubstitutions inst) eqn:Hsubs; [discriminate |].
    destruct (computeMayBindDynamicSelf E CalleeF) eqn:Hself; [discriminate |].
    simpl in H. case_bool_decide as Hcaller; [discriminate |].
    invert_run H. rename a into CallerF.
    destruct (isFragile CallerF && negb (isFragile CalleeF)) eqn:Hfragile; [discriminate |].
    invert_run H. destruct a; [discriminate |]. injection H as <-.
    exists CalleeF, CallerF. constructor; try assumption; try congruence.
    intros Hf. rewrite Hf in Hfragile. simpl in Hfragile.
    destruct (isFragile CalleeF); [reflexivity | discriminate].
  - destruct (shouldOptimize CalleeF) eqn:Hoptimize; [| discriminate].
    destruct (hasSubstitutions inst) eqn:Hsubs; [discriminate |].
    destruct (computeMayBindDynamicSelf E CalleeF) eqn:Hself; [discriminate |].
    simpl in H. case_bool_decide as Hcaller; [discriminate |].
    invert_run H. rename a into CallerF.
    destruct (isFragile CallerF && negb (isFragile CalleeF)) eqn:Hfragile; [discriminate |].
    invert_run H. destruct a; [discriminate |]. injection H as <-.
    exists CalleeF, CallerF. constructor; try assumption; try congruence.
    intros Hf. rewrite Hf in Hfragile. simpl in Hfragile.
    destruct (isFragile CalleeF); [reflexivity | discriminate].
Qed.

Lemma visitColdInstruction_eligible st i st' :
  visitColdInstruction E M C st i = Ok st' ->
  Forall (eligibleSite E M C) st.1 -> Forall (eligibleSite E M C) st'.1.
Proof.
  unfold visitColdInstruction. intros H Hst.
  invert_run H. rename a into inst.
  destruct (isApplyInst inst); [| injection H as <-; exact Hst].
  invert_run H. destruct a as [Callee |]; [| injection H as <-; exact Hst].
  invert_run H. invert_run H. destruct a0 as [profitable this'].
  destruct profitable; injection H as <-; simpl; [| exact Hst].
  apply Forall_app. split; [exact Hst |].
  apply Forall_singleton. exists inst, Callee. split; assumption.
Qed.

Lemma visitColdInstructions_eligible insts st st' :
  visitColdInstructions E M C insts st = Ok st' ->
  Forall (eligibleSite E M C) st.1 -> Forall (eligibleSite E M C) st'.1.
Proof.
  revert st. induction insts as [| i rest IH]; intros st H Hst; simpl in H.
  - injection H as <-. exact Hst.
  - invert_run H. eapply IH; [exact H |].
    eapply visitColdInstruction_eligible; eassumption.
Qed.

Lemma visitColdBlocks_loop_eligible n buffer st st' :
  visitColdBlocks_loop E M C n buffer st = Ok st' ->
  Forall (eligibleSite E M C) st.1 -> Forall (eligibleSite E M C) st'.1.
Proof.
  revert buffer st. induction n as [| n IH]; intros buffer st H Hst;
    destruct buffer as [| node rest]; simpl in H;
    try (injection H as <-; exact Hst); try discriminate.
  invert_run H. invert_run H. eapply IH; [exact H |].
  eapply visitColdInstructions_eligible; eassumption.
Qed.

Lemma collectInstruction_eligible loopDepth st i st' :
  collectInstruction E M An C fuel loopDepth st i = Ok st' ->
  Forall (eligibleSite E M C) (InitialCandidates st) ->
  Forall (eligibleSite E M C) (InitialCandidates st').
Proof.
  unfold collectInstruction. intros H Hst.
  invert_run H. simpl in H. invert_run H. rename a0 into inst.
  destruct (isFullApplySite inst); simpl in H; [| injection H as <-; exact Hst].
  invert_run H. destruct a0 as [Callee |]; [| injection H as <-; exact Hst].
  invert_run H. destruct a0 as [[profitable blocks] this'].
  injection H as <-. simpl.
  destruct profitable; [| exact Hst].
  apply Forall_app. split; [exact Hst |].
  apply Forall_singleton. exists inst, Callee. split; assumption.
Qed.

Lemma collectInstructions_eligible loopDepth insts st st' :
  collectInstructions E M An C fuel loopDepth insts st = Ok st' ->
  Forall (eligibleSite E M C) (InitialCandidates st) ->
  Forall (eligibleSite E M C) (InitialCandidates st').
Proof.
  revert st. induction insts as [| i rest IH]; intros st H Hst; simpl in H.
  - injection H as <-. exact Hst.
  - invert_run H. eapply IH; [exact H |].
    eapply collectInstruction_eligible; eassumption.
Qed.

Lemma pushChildrenIf_invariant {S : Type} (P : S -> Prop)
    (pred : S -> DominanceInfoNode -> Result (bool * S)) children s pushed s' :
  (forall s child keep s', P s -> pred s child = Ok (keep, s') -> P s') ->
  P s -> pushChildrenIf pred children s = Ok (pushed, s') -> P s'.
Proof.
  intros Hpred. revert s pushed.
  induction children as [| child rest IH]; intros s pushed Hs H; simpl in H.
  - injection H as _ <-. exact Hs.
  - invert_run H. destruct a as [keep s1].
    invert_run H. destruct a as [pushed' s2]. injection H as _ <-.
    eapply IH; [| exact Hrun0]. eapply Hpred; eassumption.
Qed.

Lemma collectChild_eligible block st child keep st' :
  collectChild E M An C block st child = Ok (keep, st') ->
  Forall (eligibleSite E M C) (InitialCandidates st) ->
  Forall (eligibleSite E M C) (InitialCandidates st').
Proof.
  unfold collectChild. intros H Hst.
  destruct (isSlowPath An block (node_block child)).
  - invert_run H. destruct a as [candidates this']. injection H as _ <-. simpl.
    apply (visitColdBlocks_loop_eligible _ _ _ _ Hrun). exact Hst.
  - injection H as _ <-. exact Hst.
Qed.

Lemma collectBlock_eligible Caller node st pushed st' :
  collectBlock E M An C fuel Caller node st = Ok (pushed, st') ->
  Forall (eligibleSite E M C) (InitialCandidates st) ->
  Forall (eligibleSite E M C) (InitialCandidates st').
Proof.
  unfold collectBlock. intros H Hst.
  invert_run H. invert_run H.
  eapply (pushChildrenIf_invariant
            (fun s => Forall (eligibleSite E M C) (InitialCandidates s))); [| | exact H].
  - intros s child keep s1 Hs Hchild. eapply collectChild_eligible; eassumption.
  - eapply collectInstructions_eligible; [exact Hrun0 | exact Hst].
Qed.

Lemma collectWalk_eligible n Caller buffer st st' :
  collectWalk E M An C fuel n Caller buffer st = Ok st' ->
  Forall (eligibleSite E M C) (InitialCandidates st) ->
  Forall (eligibleSite E M C) (InitialCandidates st').
Proof.
  revert buffer st. induction n as [| n IH]; intros buffer st H Hst;
    destruct buffer as [| node rest]; simpl in H;
    try (injection H as <-; exact Hst); try discriminate.
  invert_run H. destruct a as [pushed st1]. eapply IH; [exact H |].
  eapply collectBlock_eligible; eassumption.
Qed.

Lemma resolveCallees_fst candidates resolved :
  resolveCallees M candidates = Ok resolved -> resolved.*1 = candidates.
Proof.
  revert resolved. induction candidates as [| AI rest IH]; intros resolved H; simpl in H.
  - injection H as <-. reflexivity.
  - invert_run H. invert_run H. invert_run H. injection H as <-.
    simpl. f_equal. apply IH. exact Hrun1.
Qed.

Lemma multiplicityGuard_subset candidates Applies AI :
  AI ∈ multiplicityGuard candidates Applies -> AI ∈ Applies \/ AI ∈ candidates.*1.
Proof.
  unfold multiplicityGuard. rewrite copyCandidates_filter.
  intros [H | H]%elem_of_app; [left; exact H | right].
  apply list_elem_of_fmap in H as [p [-> Hp]].
  apply list_elem_of_filter in Hp as [_ Hp].
  apply list_elem_of_fmap. exists p. split; [reflexivity | exact Hp].
Qed.

(** Every call site that the collector returns passed the filter. *)
Lemma collectAppliesToInline_eligible this Caller Applies this' :
  collectAppliesToInline E M An C fuel this Caller [] = Ok (Applies, this') ->
  Forall (eligibleSite E M C) Applies.
Proof.
  unfold collectAppliesToInline. intros H.
  invert_run H. invert_run H. invert_run H. invert_run H. rename a2 into st.
  invert_run H. rename a2 into resolved. injection H as <- <-.
  apply collectWalk_eligible in Hrun2; [| constructor]. simpl in Hrun2.
  apply Forall_forall. intros AI HAI.
  apply multiplicityGuard_subset in HAI as [HAI | HAI]; [inversion HAI |].
  rewrite (resolveCallees_fst _ _ Hrun3) in HAI.
  rewrite Forall_forall in Hrun2. apply Hrun2. exact HAI.
Qed.

End CollectorProperties.

(** ** The inline driver *)

Section DriverProperties.

Variable E : Externals.
Variable Sv : Services.
Variable An : Analyses.
Variable C : Config.
Variable fuel : nat.

Lemma spliced_app M attempts1 M1 attempts2 M2 :
  spliced Sv M attempts1 M1 -> spliced Sv M1 attempts2 M2 ->
  spliced Sv M (attempts1 ++ attempts2) M2.
Proof.
  revert M. induction attempts1 as [| [AI Success] rest IH]; intros M H1 H2; simpl in *.
  - subst M1. exact H2.
  - destruct H1 as (apply & Happly & Hresult & Hrest).
    exists apply. split; [exact Happly |]. split; [exact Hresult |].
    apply IH; assumption.
Qed.

Lemma succeeded_app attempts1 attempts2 :
  succeeded (attempts1 ++ attempts2) = succeeded attempts1 ++ succeeded attempts2.
Proof. unfold succeeded. rewrite filter_app, fmap_app. reflexivity. Qed.

Lemma succeeded_sublist attempts : succeeded attempts `sublist_of` attempts.*1.
Proof. unfold succeeded. apply fmap_sublist. apply sublist_filter. Qed.

Lemma succeeded_all attempts :
  Forall (fun p => p.2 = true) attempts -> succeeded attempts = attempts.*1.
Proof.
  unfold succeeded. induction 1 as [| p rest Hp Hrest IH]; [reflexivity |].
  rewrite filter_cons_True by exact Hp. rewrite !fmap_cons, IH. reflexivity.
Qed.

Lemma assertIn_Ok b u :
  assertIn C b = Ok u -> AssertsEnabled C = true -> b = true.
Proof.
  unfold assertIn. intros H Hasserts. rewrite Hasserts in H.
  destruct b; [reflexivity | discriminate].
Qed.

(** One iteration of the loop over the candidates: the candidate is
    skipped, or [inlineFunction] is called on it and the call is
    counted. *)
Lemma inlineCandidate_outcome Caller st AI st' :
  inlineCandidate Sv C Caller st AI = Ok st' ->
  st' = st \/
  exists Success,
    spliced Sv (module st) [(AI, Success)] (module st') /\
    inlined st' = inlined st ++ succeeded [(AI, Success)] /\
    (AssertsEnabled C = true -> Success = true) /\
    NumFunctionsInlined (driverInliner st')
    = UInt.add (NumFunctionsInlined (driverInliner st)) 1.
Proof.
  unfold inlineCandidate. intros H.
  split_run H as apply Happly. split_run H as Callee HCallee.
  split_run H as CalleeF HCalleeF.
  destruct (negb (shouldOptimize CalleeF)); [injection H as <-; left; reflexivity |].
  destruct (inlineFunction Sv (module st) AI (getArguments apply))
    as [Success M'] eqn:Hsplice.
  split_run H as u Hassert. injection H as <-. right. exists Success. simpl.
  split; [| split; [| split]].
  - exists apply. rewrite Hsplice. auto.
  - destruct Success; [reflexivity | rewrite app_nil_r; reflexivity].
  - intros Hasserts. eapply assertIn_Ok; eassumption.
  - destruct (DebugEnabled C); [| reflexivity].
    unfold dumpCaller. case_bool_decide; reflexivity.
Qed.

Lemma inlineCandidates_outcome Caller AppliesToInline st st' :
  inlineCandidates Sv C Caller AppliesToInline st = Ok st' ->
  exists attempts,
    spliced Sv (module st) attempts (module st') /\
    attempts.*1 `sublist_of` AppliesToInline /\
    inlined st' = inlined st ++ succeeded attempts /\
    (AssertsEnabled C = true -> Forall (fun p => p.2 = true) attempts) /\
    NumFunctionsInlined (driverInliner st')
    = match attempts with
      | [] => NumFunctionsInlined (driverInliner st)
      | _ =>
          UInt.wrap (NumFunctionsInlined (driverInliner st) + Z.of_nat (length attempts))
      end.
Proof.
  revert st. induction AppliesToInline as [| AI rest IH]; intros st H; simpl in H.
  - injection H as <-. exists []. simpl. rewrite app_nil_r.
    repeat split; [constructor | constructor].
  - split_run H as st1 Hfirst.
    destruct (IH _ H) as (attempts & Hspliced & Hsub & Hinlined & Hall & Hcount).
    destruct (inlineCandidate_outcome _ _ _ _ Hfirst)
      as [-> | (Success & Hone & Hin1 & Hsuccess & Hstat)].
    + exists attempts. repeat split; try assumption. apply sublist_cons. exact Hsub.
    + exists ((AI, Success) :: attempts).
      split; [exact (spliced_app _ _ _ _ _ Hone Hspliced) |].
      split; [rewrite fmap_cons; apply sublist_skip; exact Hsub |].
      split; [| split].
      * rewrite Hinlined, Hin1, <- app_assoc, <- succeeded_app. reflexivity.
      * intros Hasserts. constructor; [exact (Hsuccess Hasserts) | exact (Hall Hasserts)].
      * rewrite Hcount, Hstat. unfold UInt.add.
        destruct attempts as [| p attempts']; [reflexivity |].
        rewrite wrap_add_l. f_equal. rewrite !length_cons. lia.
Qed.

(** The first candidate is handed to [inlineFunction]: its callee was
    optimizable when the collector accepted it and nothing has changed the
    IR since. *)
Lemma inlineCandidate_first Caller M this AI st' :
  eligibleSite E M C AI ->
  inlineCandidate Sv C Caller {| module := M; driverInliner := this; inlined := [] |} AI
  = Ok st' ->
  exists Success,
    spliced Sv M [(AI, Success)] (module st') /\
    inlined st' = succeeded [(AI, Success)] /\
    (AssertsEnabled C = true -> Success = true) /\
    NumFunctionsInlined (driverInliner st') = UInt.add (NumFunctionsInlined this) 1.
Proof.
  intros [inst [Callee [Hinst Heligible]]] H.
  apply getEligibleFunction_Some in Heligible as [CalleeF [CallerF Hfacts]].
  destruct Hfacts.
  unfold inlineCandidate in H. simpl in H.
  rewrite Hinst in H. simpl in H.
  rewrite eligible_callee0 in H. simpl in H.
  rewrite eligible_calleeF0 in H. simpl in H.
  rewrite eligible_optimize0 in H. simpl in H.
  destruct (inlineFunction Sv M AI (getArguments inst)) as [Success M'] eqn:Hsplice.
  split_run H as u Hassert. injection H as <-. exists Success. simpl.
  split; [| split; [| split]].
  - exists inst. rewrite Hsplice. auto.
  - destruct Success; reflexivity.
  - intros Hasserts. eapply assertIn_Ok; eassumption.
  - destruct (DebugEnabled C); [| reflexivity].
    unfold dumpCaller. case_bool_decide; reflexivity.
Qed.


(** The three ways in which [inlineCallsIntoFunction] returns. *)
Lemma inlineCallsIntoFunction_cases M this Caller b st :
  inlineCallsIntoFunction E Sv An C fuel M this Caller = Ok (b, st) ->
  exists CallerF,
    getFunction M Caller = Ok CallerF /\
    ((shouldOptimize CallerF = false /\ b = false /\
      st = {| module := M; driverInliner := this; inlined := [] |}) \/
     (shouldOptimize CallerF = true /\
      exists Applies this',
        collectAppliesToInline E M An C fuel this Caller [] = Ok (Applies, this') /\
        ((Applies = [] /\ b = false /\
          st = {| module := M; driverInliner := this'; inlined := [] |}) \/
         (exists AI rest Success more,
            Applies = AI :: rest /\ b = true /\
            spliced Sv M ((AI, Success) :: more) (module st) /\
            more.*1 `sublist_of` rest /\
            inlined st = succeeded ((AI, Success) :: more) /\
            (AssertsEnabled C = true ->
             Success = true /\ Forall (fun p => p.2 = true) more) /\
            NumFunctionsInlined (driverInliner st)
            = UInt.wrap (NumFunctionsInlined this'
                         + Z.of_nat (length ((AI, Success) :: more))))))).
Proof.
  unfold inlineCallsIntoFunction. intros H.
  split_run H as CallerF HCallerF. exists CallerF. split; [exact HCallerF |].
  destruct (shouldOptimize CallerF); simpl in H;
    [right; split; [reflexivity |] | left; injection H as <- <-; auto].
  split_run H as r Hcollect. destruct r as [Applies this'].
  exists Applies, this'. split; [exact Hcollect |].
  destruct Applies as [| AI rest]; [left; injection H as <- <-; auto | right].
  split_run H as st' Hloop. injection H as <- <-.
  simpl in Hloop. split_run Hloop as st1 Hfirst.
  pose proof (collectAppliesToInline_eligible _ _ _ _ _ _ _ _ _ Hcollect) as Heligible.
  apply Forall_cons in Heligible as [HAI _].
  destruct (inlineCandidate_first _ _ _ _ _ HAI Hfirst)
    as (Success & Hone & Hin1 & Hsuccess & Hstat).
  destruct (inlineCandidates_outcome _ _ _ _ Hloop)
    as (more & Hspliced & Hsub & Hinlined & Hall & Hcount).
  exists AI, rest, Success, more. split; [reflexivity |]. split; [reflexivity |].
  split; [exact (spliced_app _ _ _ _ _ Hone Hspliced) |].
  split; [exact Hsub |]. split; [| split].
  - rewrite Hinlined, Hin1, <- succeeded_app. reflexivity.
  - intros Hasserts. split; [exact (Hsuccess Hasserts) | exact (Hall Hasserts)].
  - rewrite Hcount, Hstat. unfold UInt.add.
    destruct more as [| p more'].
    + f_equal.
    + rewrite wrap_add_l. f_equal. rewrite !length_cons. lia.
Qed.


(** Claim C7.  Every call site that the collector returns, and every call
    site that the driver inlines, passed [getEligibleFunction], whatever
    the thresholds and the test mode: its callee is not its caller, its
    caller is not fragile unless the callee is, and the callee has no
    call to itself. *)
Theorem ineligible_never_inlined M this Caller :
  (forall Applies this',
     collectAppliesToInline E M An C fuel this Caller [] = Ok (Applies, this') ->
     forall AI, AI ∈ Applies ->
     exists inst Callee CalleeF CallerF,
       getInstruction M AI = Ok inst /\
       getEligibleFunction E M C inst = Ok (Some Callee) /\
       getReferencedFunction M inst = Some Callee /\
       getFunction M Callee = Ok CalleeF /\
       getFunction M (inst_getFunction inst) = Ok CallerF /\
       inst_getFunction inst <> Callee /\
       (isFragile CallerF = true -> isFragile CalleeF = true) /\
       calleeIsSelfRecursive M Callee = Ok false) /\
  (forall b st,
     inlineCallsIntoFunction E Sv An C fuel M this Caller = Ok (b, st) ->
     forall AI, AI ∈ inlined st ->
     exists Applies this',
       collectAppliesToInline E M An C fuel this Caller [] = Ok (Applies, this') /\
       AI ∈ Applies).
Proof.
  split.
  - intros Applies this' Hrun AI HAI.
    apply collectAppliesToInline_eligible in Hrun.
    rewrite Forall_forall in Hrun.
    destruct (Hrun AI HAI) as [inst [Callee [Hinst Heligible]]].
    destruct (getEligibleFunction_Some _ _ _ _ _ Heligible) as [CalleeF [CallerF []]].
    exists inst, Callee, CalleeF, CallerF. repeat split; assumption.
  - intros b st H AI HAI.
    destruct (inlineCallsIntoFunction_cases _ _ _ _ _ H)
      as (CallerF & HCallerF &
          [(Hopt & -> & ->) |
           (Hopt & Applies & this' & Hcollect &
            [(-> & -> & ->) |
             (AI0 & rest & Success & more & -> & -> & _ & Hsub & Hinlined & _)])]);
      try (inversion HAI; fail).
    exists (AI0 :: rest), this'. split; [exact Hcollect |].
    rewrite Hinlined in HAI.
    apply (elem_of_sublist _ _ _ HAI).
    etrans; [apply succeeded_sublist |].
    rewrite fmap_cons. apply sublist_skip. exact Hsub.
Qed.

End DriverProperties.

(** ** Determinism of the collector

    The collector reads one piece of state that outlives it, the
    [LastPrintedCaller] of the inliner; its candidates do not depend on
    it. *)

Section Determinism.

Variable E : Externals.
Variable M : SILModule.
Variable An : Analyses.
Variable C : Config.
Variable fuel : nat.

Lemma related_refl {A} (c : Result A) : related eq c c.
Proof. destruct c; reflexivity. Qed.

Lemma related_bind {A B} (R : A -> A -> Prop) (R' : B -> B -> Prop)
    (c1 c2 : Result A) (k1 k2 : A -> Result B) :
  related R c1 c2 ->
  (forall a1 a2, R a1 a2 -> related R' (k1 a1) (k2 a2)) ->
  related R' (bind c1 k1) (bind c2 k2).
Proof.
  intros Hc Hk. destruct c1 as [a1 | e1], c2 as [a2 | e2]; simpl in *;
    try contradiction; [apply Hk; exact Hc | exact Hc].
Qed.

(** The same computation first, then related continuations. *)
Lemma related_bind_same {A B} (R' : B -> B -> Prop)
    (c : Result A) (k1 k2 : A -> Result B) :
  (forall a, related R' (k1 a) (k2 a)) ->
  related R' (bind c k1) (bind c k2).
Proof.
  intros Hk. eapply related_bind; [apply related_refl |].
  intros a1 a2 <-. apply Hk.
Qed.

Lemma isProfitableToInline_related this1 this2 AI loopDepthOfAI T blocks :
  related (fun r1 r2 => r1.1 = r2.1)
    (isProfitableToInline E M An C fuel this1 AI loopDepthOfAI T blocks)
    (isProfitableToInline E M An C fuel this2 AI loopDepthOfAI T blocks).
Proof.
  unfold isProfitableToInline.
  apply related_bind_same. intros apply.
  apply related_bind_same. intros Callee.
  apply related_bind_same. intros CalleeF.
  destruct (getInlineStrategy CalleeF); try reflexivity;
    (apply related_bind_same; intros w;
     apply related_bind_same; intros CallerF; simpl;
     destruct (_ <? _); reflexivity).
Qed.

Lemma isProfitableInColdBlock_related this1 this2 AI CalleeF :
  related (fun r1 r2 => r1.1 = r2.1)
    (isProfitableInColdBlock E M C this1 AI CalleeF)
    (isProfitableInColdBlock E M C this2 AI CalleeF).
Proof.
  unfold isProfitableInColdBlock.
  destruct (getInlineStrategy CalleeF); try reflexivity;
    (destruct (0 <=? TestThreshold C); [reflexivity |];
     apply related_bind_same; intros insts;
     destruct (coldBlockLoop E insts 0 (TestThreshold C)); reflexivity).
Qed.

Lemma visitColdInstruction_related st1 st2 i :
  sameCandidates st1 st2 ->
  related sameCandidates
    (visitColdInstruction E M C st1 i) (visitColdInstruction E M C st2 i).
Proof.
  intros Hst. unfold visitColdInstruction.
  apply related_bind_same. intros inst.
  destruct (isApplyInst inst); [| exact Hst].
  apply related_bind_same. intros [Callee |]; [| exact Hst].
  apply related_bind_same. intros CalleeF.
  eapply related_bind; [apply isProfitableInColdBlock_related |].
  intros [p1 t1] [p2 t2] Hp. simpl in Hp. subst p2.
  destruct p1; unfold sameCandidates; simpl; [f_equal |]; exact Hst.
Qed.

Lemma visitColdInstructions_related insts st1 st2 :
  sameCandidates st1 st2 ->
  related sameCandidates
    (visitColdInstructions E M C insts st1) (visitColdInstructions E M C insts st2).
Proof.
  revert st1 st2. induction insts as [| i rest IH]; intros st1 st2 Hst; simpl.
  - exact Hst.
  - eapply related_bind; [apply visitColdInstruction_related; exact Hst |].
    intros a1 a2 Ha. apply IH. exact Ha.
Qed.

Lemma visitColdBlocks_loop_related n buffer st1 st2 :
  sameCandidates st1 st2 ->
  related sameCandidates
    (visitColdBlocks_loop E M C n buffer st1) (visitColdBlocks_loop E M C n buffer st2).
Proof.
  revert buffer st1 st2. induction n as [| n IH]; intros buffer st1 st2 Hst;
    destruct buffer as [| node rest]; simpl; try exact Hst; try reflexivity.
  apply related_bind_same. intros BB.
  eapply related_bind; [apply visitColdInstructions_related; exact Hst |].
  intros a1 a2 Ha. apply IH. exact Ha.
Qed.

Lemma collectInstruction_related loopDepth st1 st2 i :
  sameCollection st1 st2 ->
  related sameCollection
    (collectInstruction E M An C fuel loopDepth st1 i)
    (collectInstruction E M An C fuel loopDepth st2 i).
Proof.
  intros (HT & Hblocks & Hcandidates). unfold collectInstruction.
  rewrite HT, Hblocks, Hcandidates.
  apply related_bind_same. intros T. simpl.
  apply related_bind_same. intros inst.
  destruct (negb (isFullApplySite inst)); [repeat split |].
  apply related_bind_same. intros [Callee |]; [| repeat split].
  eapply related_bind; [apply isProfitableToInline_related |].
  intros [[p1 b1] t1] [[p2 b2] t2] Hp. simpl in Hp. injection Hp as -> ->.
  repeat split.
Qed.

Lemma collectInstructions_related loopDepth insts st1 st2 :
  sameCollection st1 st2 ->
  related sameCollection
    (collectInstructions E M An C fuel loopDepth insts st1)
    (collectInstructions E M An C fuel loopDepth insts st2).
Proof.
  revert st1 st2. induction insts as [| i rest IH]; intros st1 st2 Hst; simpl.
  - exact Hst.
  - eapply related_bind; [apply collectInstruction_related; exact Hst |].
    intros a1 a2 Ha. apply IH. exact Ha.
Qed.

Lemma pushChildrenIf_related {S : Type} (R : S -> S -> Prop)
    (pred : S -> DominanceInfoNode -> Result (bool * S)) children s1 s2 :
  (forall s1 s2 child, R s1 s2 ->
     related (fun r1 r2 => r1.1 = r2.1 /\ R r1.2 r2.2) (pred s1 child) (pred s2 child)) ->
  R s1 s2 ->
  related (fun r1 r2 => r1.1 = r2.1 /\ R r1.2 r2.2)
    (pushChildrenIf pred children s1) (pushChildrenIf pred children s2).
Proof.
  intros Hpred. revert s1 s2.
  induction children as [| child rest IH]; intros s1 s2 Hs; simpl.
  - split; [reflexivity | exact Hs].
  - eapply related_bind; [apply Hpred; exact Hs |].
    intros [k1 t1] [k2 t2] [Hk Ht]. simpl in Hk, Ht. subst k2.
    eapply related_bind; [apply IH; exact Ht |].
    intros [p1 u1] [p2 u2] [Hp Hu]. simpl in Hp, Hu. subst p2.
    split; [reflexivity | exact Hu].
Qed.

Lemma collectChild_related block st1 st2 child :
  sameCollection st1 st2 ->
  related (fun r1 r2 => r1.1 = r2.1 /\ sameCollection r1.2 r2.2)
    (collectChild E M An C block st1 child) (collectChild E M An C block st2 child).
Proof.
  intros (HT & Hblocks & Hcandidates). unfold collectChild.
  destruct (isSlowPath An block (node_block child)); [| repeat split; assumption].
  eapply related_bind.
  - apply (visitColdBlocks_loop_related _ _
             (InitialCandidates st1, inliner st1) (InitialCandidates st2, inliner st2)).
    exact Hcandidates.
  - intros [c1 t1] [c2 t2] Hc. unfold sameCandidates in Hc. simpl in Hc. subst c2.
    repeat split; assumption.
Qed.

Lemma collectBlock_related Caller node st1 st2 :
  sameCollection st1 st2 ->
  related (fun r1 r2 => r1.1 = r2.1 /\ sameCollection r1.2 r2.2)
    (collectBlock E M An C fuel Caller node st1)
    (collectBlock E M An C fuel Caller node st2).
Proof.
  intros (HT & Hblocks & Hcandidates). unfold collectBlock.
  apply related_bind_same. intros BB.
  eapply related_bind.
  - apply collectInstructions_related. rewrite HT. repeat split; assumption.
  - intros a1 a2 Ha. apply pushChildrenIf_related; [| exact Ha].
    intros s1 s2 child Hs. apply collectChild_related. exact Hs.
Qed.

Lemma collectWalk_related n Caller buffer st1 st2 :
  sameCollection st1 st2 ->
  related sameCollection
    (collectWalk E M An C fuel n Caller buffer st1)
    (collectWalk E M An C fuel n Caller buffer st2).
Proof.
  revert buffer st1 st2. induction n as [| n IH]; intros buffer st1 st2 Hst;
    destruct buffer as [| node rest]; simpl; try exact Hst; try reflexivity.
  eapply related_bind; [apply collectBlock_related; exact Hst |].
  intros [p1 u1] [p2 u2] [Hp Hu]. simpl in Hp, Hu. subst p2. apply IH. exact Hu.
Qed.

Lemma collectAppliesToInline_related this1 this2 Caller Applies :
  related (fun r1 r2 => r1.1 = r2.1)
    (collectAppliesToInline E M An C fuel this1 Caller Applies)
    (collectAppliesToInline E M An C fuel this2 Caller Applies).
Proof.
  unfold collectAppliesToInline.
  apply related_bind_same. intros CallerF.
  apply related_bind_same. intros front.
  apply related_bind_same. intros root.
  eapply related_bind; [apply collectWalk_related; repeat split |].
  intros st1 st2 (_ & _ & Hcandidates). rewrite Hcandidates.
  apply related_bind_same. intros resolved. reflexivity.
Qed.

(** Claim C9.  The candidates that the collector finds for a caller are
    the same, in the same order, whatever state an earlier run has left
    in the inliner, and a run that fails, fails again in the same way; so
    a second run on the same function with the same analyses, started
    where the first run stopped, returns the same list. *)
Theorem collector_is_deterministic this1 this2 Caller Applies :
  Result_map fst (collectAppliesToInline E M An C fuel this1 Caller Applies) =
  Result_map fst (collectAppliesToInline E M An C fuel this2 Caller Applies) /\
  forall candidates this1',
    collectAppliesToInline E M An C fuel this1 Caller Applies
    = Ok (candidates, this1') ->
    exists this1'',
      collectAppliesToInline E M An C fuel this1' Caller Applies
      = Ok (candidates, this1'').
Proof.
  assert (Hsame : forall t1 t2,
    Result_map fst (collectAppliesToInline E M An C fuel t1 Caller Applies) =
    Result_map fst (collectAppliesToInline E M An C fuel t2 Caller Applies)).
  { intros t1 t2.
    pose proof (collectAppliesToInline_related t1 t2 Caller Applies) as H.
    destruct (collectAppliesToInline E M An C fuel t1 Caller Applies) as [r1 | e1],
             (collectAppliesToInline E M An C fuel t2 Caller Applies) as [r2 | e2];
      simpl in *; try contradiction; congruence. }
  split; [apply Hsame |].
  intros candidates this1' Hfirst.
  pose proof (Hsame this1 this1') as H. rewrite Hfirst in H. simpl in H.
  destruct (collectAppliesToInline E M An C fuel this1' Caller Applies)
    as [[candidates' this1''] | e]; simpl in H; [| discriminate].
  injection H as ->. exists this1''. reflexivity.
Qed.

End Determinism.

(** ** Dominator trees and the worklist *)

Section Trees.

Lemma node_induction (P : DominanceInfoNode -> Prop) :
  (forall b children, Forall P children -> P (DINode b children)) ->
  forall n, P n.
Proof.
  intros H. fix IH 1. intros [b children]. apply H.
  induction children as [| c rest IHrest]; constructor; [apply IH | exact IHrest].
Qed.

Lemma nodes_self n : n ∈ nodes n.
Proof. destruct n. simpl. left. Qed.

Lemma nodes_unfold n : nodes n = n :: (node_children n ≫= nodes).
Proof. destruct n. reflexivity. Qed.

Lemma blocks_unfold n : blocks n = node_block n :: pending (node_children n).
Proof. unfold blocks, pending. rewrite nodes_unfold. reflexivity. Qed.

Lemma nodes_children root :
  forall pnode cnode,
    pnode ∈ nodes root -> cnode ∈ node_children pnode -> cnode ∈ nodes root.
Proof.
  induction root as [b children IH] using node_induction.
  intros pnode cnode Hp Hc. simpl in Hp. apply elem_of_cons in Hp as [-> | Hp].
  - simpl in Hc. simpl. right. apply list_elem_of_bind.
    exists cnode. split; [apply nodes_self | exact Hc].
  - apply list_elem_of_bind in Hp as [c [Hp Hin]].
    rewrite Forall_forall in IH. simpl. right. apply list_elem_of_bind.
    exists c. split; [| exact Hin]. eapply IH; eassumption.
Qed.

Lemma NoDup_fmap_eq {A B} (f : A -> B) (l : list A) x y :
  NoDup (f <$> l) -> x ∈ l -> y ∈ l -> f x = f y -> x = y.
Proof.
  induction l as [| a l IH]; intros Hnd Hx Hy Hf; [inversion Hx |].
  rewrite fmap_cons in Hnd. apply NoDup_cons in Hnd as [Hnotin Hnd].
  apply elem_of_cons in Hx as [-> | Hx]; apply elem_of_cons in Hy as [-> | Hy].
  - reflexivity.
  - exfalso. apply Hnotin. rewrite Hf. apply list_elem_of_fmap_2. exact Hy.
  - exfalso. apply Hnotin. rewrite <- Hf. apply list_elem_of_fmap_2. exact Hx.
  - apply IH; assumption.
Qed.

Lemma pending_cons node rest :
  pending (node :: rest) = blocks node ++ pending rest.
Proof. unfold pending, blocks. rewrite bind_cons, fmap_app. reflexivity. Qed.

Lemma pending_app l1 l2 : pending (l1 ++ l2) = pending l1 ++ pending l2.
Proof. unfold pending. rewrite bind_app, fmap_app. reflexivity. Qed.

Lemma pending_Permutation l1 l2 : l1 ≡ₚ l2 -> pending l1 ≡ₚ pending l2.
Proof. intros H. unfold pending. rewrite H. reflexivity. Qed.

Lemma node_block_pending l : node_block <$> l ⊆+ pending l.
Proof.
  induction l as [| c rest IH]; [reflexivity |].
  rewrite pending_cons, blocks_unfold, fmap_cons. simpl.
  apply submseteq_skip. etransitivity; [exact IH |].
  apply submseteq_inserts_l. reflexivity.
Qed.

Lemma forest_size_app l1 l2 : forest_size (l1 ++ l2) = (forest_size l1 + forest_size l2)%nat.
Proof. unfold forest_size. rewrite map_app, list_sum_app. reflexivity. Qed.

Lemma forest_size_cons node rest :
  forest_size (node :: rest) = (S (forest_size (node_children node)) + forest_size rest)%nat.
Proof. destruct node. reflexivity. Qed.

Lemma pushChildrenIf_size {S : Type}
    (pred : S -> DominanceInfoNode -> Result (bool * S)) children s pushed s' :
  pushChildrenIf pred children s = Ok (pushed, s') ->
  (forest_size pushed <= forest_size children)%nat.
Proof.
  revert s pushed. induction children as [| child rest IH]; intros s pushed H; simpl in H.
  - injection H as <- _. reflexivity.
  - invert_run H. destruct a as [keep s1].
    invert_run H. destruct a as [pushed' s2]. injection H as <- <-.
    apply IH in Hrun0. unfold forest_size in *. simpl.
    destruct keep; simpl; lia.
Qed.

Lemma submseteq_NoDup {A} (l k : list A) : l ⊆+ k -> NoDup k -> NoDup l.
Proof.
  intros Hsub Hk. apply submseteq_Permutation in Hsub as [rest Hperm].
  rewrite Hperm in Hk. apply NoDup_app in Hk as [Hl _]. exact Hl.
Qed.

End Trees.

(** ** The walk of the callee *)

Section WalkProperties.

Variable E : Externals.
Variable M : SILModule.
Variable An : Analyses.
Variable C : Config.
Variable fuel : nat.

Lemma visitInstruction_trace Callee block st i st' :
  visitInstruction E M An fuel Callee block st i = Ok st' ->
  visitedBlocks st' = visitedBlocks st /\
  exists cost,
    counted st' = (block, i, cost) :: counted st /\
    CalleeCost st' = UInt.add (CalleeCost st) cost.
Proof.
  unfold visitInstruction. intros H.
  split_run H as T HT. cbv zeta in H. split_run H as inst Hinst.
  destruct (0 <=? testThreshold (set_constTracker st T));
    destruct (isApplyInst inst);
    try (split_run H as def Hdef; destruct (isConstantCallee def));
    injection H as <-; simpl; eauto.
Qed.

Lemma visitInstructions_trace Callee block insts st st' :
  visitInstructions E M An fuel Callee block insts st = Ok st' ->
  visitedBlocks st' = visitedBlocks st /\
  (exists new,
     counted st' = new ++ counted st /\
     Forall (fun entry => entry.1.1 = block) new) /\
  (costRecorded st -> costRecorded st').
Proof.
  revert st. induction insts as [| i rest IH]; intros st H; simpl in H.
  - injection H as <-. split; [reflexivity |]. split; [| auto].
    exists []. split; [reflexivity | constructor].
  - split_run H as st1 Hfirst.
    apply visitInstruction_trace in Hfirst as (Hv1 & cost & Hc1 & Hcost1).
    apply IH in H as (Hv & (new & Hc & Hnew) & Hcost).
    split; [congruence |]. split.
    + exists (new ++ [(block, i, cost)]). split.
      * rewrite Hc, Hc1, <- app_assoc. reflexivity.
      * apply Forall_app. split; [exact Hnew |]. apply Forall_singleton. reflexivity.
    + intros Hst. apply Hcost. unfold costRecorded in *.
      rewrite Hcost1, Hc1, Hst. simpl. unfold UInt.add.
      rewrite wrap_add_l. f_equal. lia.
Qed.

Lemma pushChildrenIf_childIsLive block taken children (st : WalkState) pushed st' :
  pushChildrenIf
    (fun s child => let* keep := childIsLive M block taken child in Ok (keep, s))
    children st = Ok (pushed, st') ->
  st' = st /\
  exists dropped,
    children ≡ₚ pushed ++ dropped /\
    Forall (fun c => liveAfter M block (Some taken) (node_block c)) pushed /\
    Forall (fun c => deadAfter M block taken (node_block c)) dropped.
Proof.
  revert pushed. induction children as [| child rest IH]; intros pushed H; simpl in H.
  - injection H as <- <-. split; [reflexivity |]. exists []. repeat constructor.
  - split_run H as r Hchild. destruct r as [keep s1].
    split_run Hchild as keep' Hlive. injection Hchild as -> <-.
    split_run H as r Hrest. destruct r as [pushed' s2]. injection H as <- <-.
    apply IH in Hrest as (-> & dropped & Hperm & Hpushed & Hdropped).
    split; [reflexivity |].
    unfold childIsLive in Hlive. split_run Hlive as childBB HBB.
    injection Hlive as Hkeep.
    unfold getBasicBlock, deref in HBB.
    destruct (mod_blocks M !! node_block child) as [BB |] eqn:Hlookup; [| discriminate].
    injection HBB as ->.
    destruct keep.
    + exists dropped. split; [simpl; rewrite Hperm; reflexivity |].
      split; [| exact Hdropped]. constructor; [| exact Hpushed].
      exists childBB. split; [exact Hlookup |].
      apply orb_true_iff in Hkeep as [Hpred | Htaken].
      * left. apply negb_true_iff, bool_decide_eq_false in Hpred. exact Hpred.
      * right. apply bool_decide_eq_true in Htaken. exact Htaken.
    + exists (child :: dropped). split.
      * rewrite Hperm. apply Permutation_middle.
      * split; [exact Hpushed |]. constructor; [| exact Hdropped].
        exists childBB. split; [exact Hlookup |].
        apply orb_false_iff in Hkeep as [Hpred Htaken].
        apply negb_false_iff, bool_decide_eq_true in Hpred.
        apply bool_decide_eq_false in Htaken. split; assumption.
Qed.

Lemma visitBlock_BlockVisit Callee node st pushed st' :
  visitBlock E M An fuel Callee node st = Ok (pushed, st') ->
  exists takenBlock dropped, BlockVisit E M fuel node st st' pushed takenBlock dropped.
Proof.
  unfold visitBlock. intros H.
  split_run H as BB HBB. cbv zeta in H.
  split_run H as st1 Hinsts. split_run H as term Hterm.
  split_run H as r Htaken. destruct r as [takenBlock T].
  apply visitInstructions_trace in Hinsts as (Hv & Hcounted & Hcost).
  simpl in Hv, Hcounted.
  unfold getBasicBlock, deref in HBB.
  destruct (mod_blocks M !! node_block node) as [BB' |] eqn:Hlookup; [| discriminate].
  injection HBB as ->.
  destruct takenBlock as [taken |].
  - apply pushChildrenIf_childIsLive in H as (-> & dropped & Hperm & Hpushed & Hdropped).
    exists (Some taken), dropped. constructor; simpl; try assumption.
    + rewrite Hv. reflexivity.
    + intros taken' [= <-]. exists BB, term, (constTracker st1), T. auto.
  - injection H as <- <-. exists None, []. constructor; simpl; try assumption;
      try reflexivity.
    + rewrite Hv. reflexivity.
    + rewrite app_nil_r. reflexivity.
    + apply Forall_forall. intros c _. exact Logic.I.
    + intros taken' [=].
Qed.

Lemma justified_mono root trace trace' cnode :
  (forall entry, entry ∈ trace -> entry ∈ trace') ->
  justified M root trace cnode -> justified M root trace' cnode.
Proof.
  intros Hsub [-> | (pnode & ptk & Hp & Hc & Hin & Hlive)]; [left; reflexivity |].
  right. exists pnode, ptk. auto.
Qed.

Lemma WalkInvariant_step root node rest st st' pushed takenBlock dropped :
  WalkInvariant E M fuel root (node :: rest) st ->
  BlockVisit E M fuel node st st' pushed takenBlock dropped ->
  WalkInvariant E M fuel root (rest ++ pushed) st'.
Proof.
  intros [Hnodes Hbuffer Hvisited Hcounted Hfolded Hcost]
         [Hrec (new & Hnew & Hblock) Hcost' Hperm Hpushed _ Hfold].
  assert (Hnode : node ∈ nodes root) by (apply Hnodes; left).
  assert (Hmono : forall entry, entry ∈ visitedBlocks st -> entry ∈ visitedBlocks st')
    by (intros entry Hentry; rewrite Hrec; right; exact Hentry).
  assert (Hhead : (node_block node, takenBlock) ∈ visitedBlocks st')
    by (rewrite Hrec; left).
  assert (Hchild : forall c, c ∈ pushed -> c ∈ node_children node)
    by (intros c Hc; rewrite Hperm; apply elem_of_app; left; exact Hc).
  constructor.
  - intros c [Hc | Hc]%elem_of_app.
    + apply Hnodes. right. exact Hc.
    + eapply nodes_children; [exact Hnode | apply Hchild; exact Hc].
  - intros c [Hc | Hc]%elem_of_app.
    + eapply justified_mono; [exact Hmono |]. apply Hbuffer. right. exact Hc.
    + right. exists node, takenBlock. repeat split; auto.
      rewrite Forall_forall in Hpushed. apply Hpushed. exact Hc.
  - intros b tk Hin. rewrite Hrec in Hin. apply elem_of_cons in Hin as [[= -> ->] | Hin].
    + exists node. repeat split; [exact Hnode |].
      eapply justified_mono; [exact Hmono |]. apply Hbuffer. left.
    + destruct (Hvisited b tk Hin) as (n & Hn & Hb & Hj).
      exists n. repeat split; [exact Hn | exact Hb |].
      eapply justified_mono; [exact Hmono | exact Hj].
  - intros b i cost Hin. rewrite Hnew in Hin. apply elem_of_app in Hin as [Hin | Hin].
    + rewrite Forall_forall in Hblock. apply Hblock in Hin. simpl in Hin. subst b.
      exists takenBlock. exact Hhead.
    + destruct (Hcounted b i cost Hin) as [tk Htk]. exists tk. apply Hmono. exact Htk.
  - intros b taken Hin. rewrite Hrec in Hin. apply elem_of_cons in Hin as [[= -> Htk] | Hin].
    + apply Hfold. symmetry. exact Htk.
    + apply Hfolded. exact Hin.
  - apply Hcost'. exact Hcost.
Qed.

Lemma walkCallee_WalkInvariant root n Callee buffer st w :
  walkCallee E M An fuel n Callee buffer st = Ok w ->
  WalkInvariant E M fuel root buffer st ->
  WalkInvariant E M fuel root [] w.
Proof.
  revert buffer st. induction n as [| n IH]; intros buffer st H Hinv;
    destruct buffer as [| node rest]; simpl in H;
    try (injection H as <-; exact Hinv); try discriminate.
  split_run H as r Hvisit. destruct r as [pushed st1].
  apply visitBlock_BlockVisit in Hvisit as (takenBlock & dropped & Hvisit).
  eapply IH; [exact H |]. eapply WalkInvariant_step; eassumption.
Qed.

Lemma live_not_dead block taken child :
  liveAfter M block (Some taken) child -> deadAfter M block taken child -> False.
Proof.
  intros (BB & HBB & Hlive) (BB' & HBB' & Hpred & Hne).
  rewrite HBB in HBB'. injection HBB' as <-.
  destruct Hlive as [Hlive | Hlive]; contradiction.
Qed.

Lemma PruneInvariant_step root skipped node rest st st' pushed takenBlock dropped :
  NoDup (blocks root) ->
  PruneInvariant M root skipped (node :: rest) st ->
  BlockVisit E M fuel node st st' pushed takenBlock dropped ->
  PruneInvariant M root (skipped ++ (node_block <$> dropped)) (rest ++ pushed) st'.
Proof.
  intros Hroot [Hnodup Hnodes Hskipped]
         [Hrec _ _ Hperm Hpushed Hdropped _].
  assert (Hnode : node ∈ nodes root) by (apply Hnodes; left).
  constructor.
  - eapply submseteq_NoDup; [| exact Hnodup].
    rewrite Hrec, pending_cons, blocks_unfold, pending_app.
    rewrite (pending_Permutation _ _ Hperm), pending_app. rewrite fmap_cons. simpl.
    pose proof (node_block_pending dropped) as Hsub.
    revert Hsub.
    generalize (node_block <$> dropped) (pending dropped) (pending pushed)
               (pending rest) (visitedBlocks st).*1 (node_block node).
    intros D Pd P R V b Hsub.
    transitivity (b :: V ++ skipped ++ P ++ D ++ R).
    { apply submseteq_skip. apply Permutation_submseteq. solve_Permutation. }
    transitivity (b :: V ++ skipped ++ P ++ Pd ++ R).
    { apply submseteq_skip. repeat apply submseteq_skips_l.
      apply submseteq_skips_r. exact Hsub. }
    apply Permutation_submseteq. solve_Permutation.
  - intros c [Hc | Hc]%elem_of_app.
    + apply Hnodes. right. exact Hc.
    + eapply nodes_children; [exact Hnode |].
      rewrite Hperm. apply elem_of_app. left. exact Hc.
  - intros pnode cnode taken Hp Hc Hin Hdead.
    rewrite Hrec in Hin. apply elem_of_app.
    apply elem_of_cons in Hin as [[= Hblock <-] | Hin].
    + right.
      assert (pnode = node) as ->
        by (eapply (NoDup_fmap_eq node_block); [exact Hroot | | | ]; assumption).
      rewrite Hperm in Hc. apply elem_of_app in Hc as [Hc | Hc].
      * exfalso. rewrite Forall_forall in Hpushed.
        eapply live_not_dead; [apply Hpushed; exact Hc | exact Hdead].
      * apply list_elem_of_fmap_2. exact Hc.
    + left. eapply Hskipped; eassumption.
Qed.

Lemma walkCallee_PruneInvariant root n Callee skipped buffer st w :
  NoDup (blocks root) ->
  walkCallee E M An fuel n Callee buffer st = Ok w ->
  PruneInvariant M root skipped buffer st ->
  exists skipped', PruneInvariant M root skipped' [] w.
Proof.
  intros Hroot. revert skipped buffer st.
  induction n as [| n IH]; intros skipped buffer st H Hinv;
    destruct buffer as [| node rest]; simpl in H;
    try (injection H as <-; exists skipped; exact Hinv); try discriminate.
  split_run H as r Hvisit. destruct r as [pushed st1].
  apply visitBlock_BlockVisit in Hvisit as (takenBlock & dropped & Hvisit).
  eapply IH; [exact H |]. eapply PruneInvariant_step; eassumption.
Qed.

Lemma getTakenBlock_cond_br T term TrueBB FalseBB taken T' :
  getKind term = CondBranchInst TrueBB FalseBB ->
  getTakenBlock E M fuel T term = Ok (Some taken, T') ->
  exists c,
    getIntConst E M fuel T (getOperand term 0) 0 = Ok (c, T') /\
    isFromCaller c = true /\
    taken = if negb (value c =? 0) then TrueBB else FalseBB.
Proof.
  intros Hkind H. unfold getTakenBlock in H. rewrite Hkind in H.
  split_run H as r Hconst. destruct r as [c T1]. injection H as Htaken <-.
  exists c. split; [exact Hconst |].
  unfold takenBlockOfConst in Htaken. rewrite Hkind in Htaken.
  destruct (isFromCaller c); [| discriminate].
  injection Htaken as <-. split; reflexivity.
Qed.

Lemma visitInstruction_cost Callee block st i st' :
  visitInstruction E M An fuel Callee block st i = Ok st' ->
  trackInst M fuel (constTracker st) i = Ok (constTracker st') /\
  exists inst cost,
    getInstruction M i = Ok inst /\
    counted st' = (block, i, cost) :: counted st /\
    (cost = testCost inst \/ cost = UInt.wrap (instructionInlineCost E inst)).
Proof.
  unfold visitInstruction. intros H.
  split_run H as T HT. cbv zeta in H. split_run H as inst Hinst.
  assert (Hgoal : forall st0,
            constTracker st0 = T ->
            (exists cost,
               counted st0 = (block, i, cost) :: counted st /\
               (cost = testCost inst \/
                cost = UInt.wrap (instructionInlineCost E inst))) ->
            (if isApplyInst inst
             then
               let* def := getDefInCaller E M fuel (constTracker st0) (getCallee inst) in
               if isConstantCallee def
               then
                 Ok (doubleTestThreshold
                       (addBenefit st0
                          (UInt.add ConstCalleeBenefit
                             (UInt.mul (LI_getLoopDepth An Callee block)
                                LoopBenefitFactor))))
               else Ok st0
             else Ok st0) = Ok st' ->
            Ok T = Ok (constTracker st') /\
            exists inst0 cost,
              Ok inst = Ok inst0 /\
              counted st' = (block, i, cost) :: counted st /\
              (cost = testCost inst0 \/
               cost = UInt.wrap (instructionInlineCost E inst0))).
  { intros st0 HT0 (cost & Hcount & Hcost) H0.
    destruct (isApplyInst inst);
      [split_run H0 as def Hdef; destruct (isConstantCallee def) |];
      injection H0 as <-; simpl; rewrite HT0;
      (split; [reflexivity |]); exists inst, cost; auto. }
  rewrite HT, Hinst.
  destruct (0 <=? testThreshold (set_constTracker st T)).
  - apply (Hgoal (addCost (set_constTracker st T) block i (testCost inst)) eq_refl);
      [| exact H].
    exists (testCost inst). simpl. auto.
  - apply (Hgoal (addCost (set_constTracker st T) block i
                    (UInt.wrap (instructionInlineCost E inst))) eq_refl); [| exact H].
    exists (UInt.wrap (instructionInlineCost E inst)). simpl. auto.
Qed.

Lemma visitInstructions_cost Callee block insts st st' :
  visitInstructions E M An fuel Callee block insts st = Ok st' ->
  trackInsts M fuel insts (constTracker st) = Ok (constTracker st') /\
  (forall entry, entry ∈ counted st -> entry ∈ counted st') /\
  forall i, i ∈ insts ->
    exists inst cost,
      getInstruction M i = Ok inst /\
      (block, i, cost) ∈ counted st' /\
      (cost = testCost inst \/ cost = UInt.wrap (instructionInlineCost E inst)).
Proof.
  revert st. induction insts as [| i rest IH]; intros st H; simpl in H.
  - injection H as <-. split; [reflexivity |]. split; [auto |].
    intros i Hi. inversion Hi.
  - split_run H as st1 Hfirst.
    apply visitInstruction_cost in Hfirst
      as (Htrack & inst & cost & Hinst & Hcount & Hcost).
    apply IH in H as (Htracks & Hmono & Hall).
    split; [simpl; rewrite Htrack; exact Htracks |].
    split.
    + intros entry Hentry. apply Hmono. rewrite Hcount. right. exact Hentry.
    + intros i' [-> | Hi']%elem_of_cons; [| apply Hall; exact Hi'].
      exists inst, cost. split; [exact Hinst |]. split; [| exact Hcost].
      apply Hmono. rewrite Hcount. left.
Qed.

(** One iteration of the walk: what the terminator folder was given and
    what was counted. *)
Lemma visitBlock_facts Callee node st pushed st' :
  visitBlock E M An fuel Callee node st = Ok (pushed, st') ->
  exists BB term T takenBlock,
    mod_blocks M !! node_block node = Some BB /\
    getTerminator M BB = Ok term /\
    trackInsts M fuel (bb_instructions BB) (beginBlock (constTracker st)) = Ok T /\
    getTakenBlock E M fuel T term = Ok (takenBlock, constTracker st') /\
    visitedBlocks st' = (node_block node, takenBlock) :: visitedBlocks st /\
    (forall entry, entry ∈ counted st -> entry ∈ counted st') /\
    forall i, i ∈ bb_instructions BB ->
      exists inst cost,
        getInstruction M i = Ok inst /\
        (node_block node, i, cost) ∈ counted st' /\
        (cost = testCost inst \/ cost = UInt.wrap (instructionInlineCost E inst)).
Proof.
  unfold visitBlock. intros H.
  split_run H as BB HBB. cbv zeta in H.
  split_run H as st1 Hinsts. split_run H as term Hterm.
  split_run H as r Htaken. destruct r as [takenBlock T'].
  pose proof (visitInstructions_trace _ _ _ _ _ Hinsts) as (Hv & _ & _).
  apply visitInstructions_cost in Hinsts as (Htracks & Hmono & Hall).
  simpl in Htracks, Hmono, Hv.
  unfold getBasicBlock, deref in HBB.
  destruct (mod_blocks M !! node_block node) as [BB' |] eqn:Hlookup; [| discriminate].
  injection HBB as ->.
  exists BB, term, (constTracker st1), takenBlock.
  assert (Hstate : constTracker st' = T' /\
                   visitedBlocks st' = (node_block node, takenBlock) :: visitedBlocks st /\
                   counted st' = counted st1).
  { destruct takenBlock as [taken |].
    - apply pushChildrenIf_childIsLive in H as (-> & _). simpl.
      rewrite Hv. auto.
    - injection H as _ <-. simpl. rewrite Hv. auto. }
  destruct Hstate as (HT' & Hvisited & Hcounted).
  rewrite HT', Hcounted. auto 10.
Qed.

Lemma walkCallee_recorded identity n Callee buffer st w :
  walkCallee E M An fuel n Callee buffer st = Ok w ->
  sameIdentity identity (constTracker st) ->
  (forall b tk, (b, tk) ∈ visitedBlocks st ->
     foldedAt E M fuel identity b tk /\ countedAt E M st b) ->
  forall b tk, (b, tk) ∈ visitedBlocks w ->
    foldedAt E M fuel identity b tk /\ countedAt E M w b.
Proof.
  revert buffer st. induction n as [| n IH]; intros buffer st H Hid Hinv;
    destruct buffer as [| node rest]; simpl in H;
    try (injection H as <-; exact Hinv); try discriminate.
  split_run H as r Hvisit. destruct r as [pushed st1].
  apply visitBlock_facts in Hvisit
    as (BB & term & T & takenBlock & HBB & Hterm & Htracks & Htaken & Hvisited
        & Hmono & Hall).
  assert (HidT : sameIdentity identity T).
  { eapply sameIdentity_trans; [exact Hid |].
    eapply sameIdentity_trans; [| eapply trackInsts_identity; exact Htracks].
    repeat split. }
  eapply IH; [exact H | |].
  - eapply sameIdentity_trans; [exact HidT |].
    apply sameView_identity. eapply getTakenBlock_view. exact Htaken.
  - intros b tk Hin. rewrite Hvisited in Hin.
    apply elem_of_cons in Hin as [[= -> ->] | Hin].
    + split.
      * exists BB, term, (constTracker st), T, (constTracker st1). auto.
      * intros BB' i HBB' Hi. assert (BB' = BB) as -> by congruence.
        apply Hall. exact Hi.
    + destruct (Hinv b tk Hin) as [Hfolded Hcounted]. split; [exact Hfolded |].
      intros BB' i HBB' Hi.
      destruct (Hcounted BB' i HBB' Hi) as (inst & cost & Hinst & Hentry & Hcost).
      exists inst, cost. auto.
Qed.

Lemma walkCallee_visits n Callee buffer st w :
  walkCallee E M An fuel n Callee buffer st = Ok w ->
  (forall entry, entry ∈ visitedBlocks st -> entry ∈ visitedBlocks w) /\
  forall node, node ∈ buffer -> exists tk, (node_block node, tk) ∈ visitedBlocks w.
Proof.
  revert buffer st. induction n as [| n IH]; intros buffer st H;
    destruct buffer as [| node rest]; simpl in H; try discriminate;
    try (injection H as <-; split; [auto | intros node Hnode; inversion Hnode]).
  split_run H as r Hvisit. destruct r as [pushed st1].
  apply visitBlock_BlockVisit in Hvisit as (takenBlock & dropped & [Hrec _ _ _ _ _ _]).
  apply IH in H as [Hmono Hbuffer].
  assert (Hmono' : forall entry, entry ∈ visitedBlocks st -> entry ∈ visitedBlocks w)
    by (intros entry Hentry; apply Hmono; rewrite Hrec; right; exact Hentry).
  split; [exact Hmono' |].
  intros node' [-> | Hnode']%elem_of_cons.
  - exists takenBlock. apply Hmono. rewrite Hrec. left.
  - apply Hbuffer. apply elem_of_app. left. exact Hnode'.
Qed.

Lemma walkCallee_live root n Callee buffer st w :
  NoDup (blocks root) ->
  walkCallee E M An fuel n Callee buffer st = Ok w ->
  (forall node, node ∈ buffer -> node ∈ nodes root) ->
  liveVisited M root st buffer ->
  liveVisited M root w [].
Proof.
  intros Hroot. revert buffer st.
  induction n as [| n IH]; intros buffer st H Hnodes Hlive;
    destruct buffer as [| node rest]; simpl in H;
    try (injection H as <-; exact Hlive); try discriminate.
  split_run H as r Hvisit. destruct r as [pushed st1].
  apply visitBlock_BlockVisit in Hvisit
    as (takenBlock & dropped & [Hrec _ _ Hperm Hpushed Hdropped _]).
  assert (Hnode : node ∈ nodes root) by (apply Hnodes; left).
  eapply IH; [exact H | |].
  - intros c [Hc | Hc]%elem_of_app.
    + apply Hnodes. right. exact Hc.
    + eapply nodes_children; [exact Hnode |].
      rewrite Hperm. apply elem_of_app. left. exact Hc.
  - intros pnode ptk cnode Hp Hin Hc Hrule. rewrite Hrec in Hin.
    apply elem_of_cons in Hin as [[= Hblock ->] | Hin].
    + assert (pnode = node) as ->
        by (eapply (NoDup_fmap_eq node_block); [exact Hroot | | | ]; assumption).
      rewrite Hperm in Hc. apply elem_of_app in Hc as [Hc | Hc].
      * right. apply elem_of_app. right. exact Hc.
      * exfalso. destruct takenBlock as [taken |].
        -- rewrite Forall_forall in Hdropped.
           eapply live_not_dead; [exact Hrule | apply Hdropped; exact Hc].
        -- subst dropped. inversion Hc.
    + destruct (Hlive pnode ptk cnode Hp Hin Hc Hrule) as [[tk Htk] | Hbuffer].
      * left. exists tk. rewrite Hrec. right. exact Htk.
      * apply elem_of_cons in Hbuffer as [-> | Hrest].
        -- left. exists takenBlock. rewrite Hrec. left.
        -- right. apply elem_of_app. left. exact Hrest.
Qed.

(** Claim C1, as amended.  In the walk of the callee a block other than
    the root is visited only as a child, in the dominator tree, of a
    visited block, and when the terminator folder found the successor
    [taken] of that block, only if that block is NOT the single
    predecessor of the child or the child is [taken].  Costs are counted
    for the instructions of visited blocks only.  What is recorded for a
    visited block is what the terminator folder returns on the tracker of
    the callee after the instructions of the block; for a [cond_br] the
    known successor is the true or the false block by a constant that
    has the from-caller flag.  In a dominator tree that has every block
    once, a child whose single predecessor is the block just finished
    and that is not the taken successor (the not-taken successor of such
    a [cond_br], when it has no other predecessor) is never visited and
    none of its instructions is counted toward [CalleeCost].  The root is
    visited, and in such a tree every child that the rule accepts after a
    visited block (a not-taken successor with another predecessor
    included) is visited.  Every instruction of a visited block is
    counted, with its test cost or its regular cost. *)
Theorem dead_successors_are_pruned AI apply Callee CalleeF loopDepthOfAI
    callerTracker front root w :
  head (fn_blocks CalleeF) = Some front ->
  getNode (DA_get An Callee) front = Some root ->
  analyzeCallee E M An C fuel AI apply Callee CalleeF loopDepthOfAI callerTracker
  = Ok w ->
  (forall child tk,
     (child, tk) ∈ visitedBlocks w ->
     child = node_block root \/
     exists pnode cnode ptk,
       pnode ∈ nodes root /\ cnode ∈ node_children pnode /\
       node_block cnode = child /\
       (node_block pnode, ptk) ∈ visitedBlocks w /\
       liveAfter M (node_block pnode) ptk child) /\
  (CalleeCost w = UInt.wrap (sumCosts (counted w)) /\
   forall b i cost, (b, i, cost) ∈ counted w -> exists tk, (b, tk) ∈ visitedBlocks w) /\
  (forall b tk,
     (b, tk) ∈ visitedBlocks w ->
     exists BB term T0 T T',
       mod_blocks M !! b = Some BB /\
       getTerminator M BB = Ok term /\
       sameIdentity (ConstantTracker_callee Callee callerTracker AI) T0 /\
       trackInsts M fuel (bb_instructions BB) (beginBlock T0) = Ok T /\
       getTakenBlock E M fuel T term = Ok (tk, T') /\
       forall taken TrueBB FalseBB,
         tk = Some taken ->
         getKind term = CondBranchInst TrueBB FalseBB ->
         exists c,
           getIntConst E M fuel T (getOperand term 0) 0 = Ok (c, T') /\
           isFromCaller c = true /\
           taken = if negb (value c =? 0) then TrueBB else FalseBB) /\
  (NoDup (blocks root) ->
   forall pnode cnode taken,
     pnode ∈ nodes root -> cnode ∈ node_children pnode ->
     (node_block pnode, Some taken) ∈ visitedBlocks w ->
     deadAfter M (node_block pnode) taken (node_block cnode) ->
     (forall tk, (node_block cnode, tk) ∉ visitedBlocks w) /\
     (forall i cost, (node_block cnode, i, cost) ∉ counted w)) /\
  ((exists tk, (node_block root, tk) ∈ visitedBlocks w) /\
   (NoDup (blocks root) ->
    forall pnode cnode ptk,
      pnode ∈ nodes root -> cnode ∈ node_children pnode ->
      (node_block pnode, ptk) ∈ visitedBlocks w ->
      liveAfter M (node_block pnode) ptk (node_block cnode) ->
      exists tk, (node_block cnode, tk) ∈ visitedBlocks w)) /\
  (forall b tk,
     (b, tk) ∈ visitedBlocks w ->
     forall BB i,
       mod_blocks M !! b = Some BB -> i ∈ bb_instructions BB ->
       exists inst cost,
         getInstruction M i = Ok inst /\
         (b, i, cost) ∈ counted w /\
         (cost = testCost inst \/ cost = UInt.wrap (instructionInlineCost E inst))).
Proof.
  intros Hfront Hroot H. unfold analyzeCallee in H.
  rewrite Hfront in H. simpl in H. rewrite Hroot in H. simpl in H.
  set (st0 := {| CalleeCost := 0; Benefit := _; testThreshold := _;
                 constTracker := _; visitedBlocks := []; counted := [] |}) in H.
  assert (Hinv0 : WalkInvariant E M fuel root [root] st0).
  { constructor; simpl.
    - intros node ->%list_elem_of_singleton. apply nodes_self.
    - intros node ->%list_elem_of_singleton. left. reflexivity.
    - intros b tk Hin. inversion Hin.
    - intros b i cost Hin. inversion Hin.
    - intros b taken Hin. inversion Hin.
    - reflexivity. }
  pose proof (walkCallee_WalkInvariant _ _ _ _ _ _ H Hinv0)
    as [_ _ Hvisited Hcounted Hfolded Hcost].
  assert (Hrecorded : forall b tk, (b, tk) ∈ visitedBlocks w ->
            foldedAt E M fuel (ConstantTracker_callee Callee callerTracker AI) b tk /\
            countedAt E M w b).
  { eapply (walkCallee_recorded _ _ _ _ _ _ H).
    - apply sameIdentity_refl.
    - intros b tk Hin. inversion Hin. }
  split; [| split; [| split; [| split; [| split]]]].
  - intros child tk Hin.
    destruct (Hvisited child tk Hin)
      as (node & Hnode & Hblock & [-> | (pnode & ptk & Hp & Hc & Hpin & Hlive)]).
    + left. symmetry. exact Hblock.
    + right. exists pnode, node, ptk. rewrite Hblock in Hlive. auto.
  - split; [exact Hcost | exact Hcounted].
  - intros b tk Hin.
    destruct (Hrecorded b tk Hin)
      as [(BB & term & T0 & T & T' & HBB & Hterm & Hid & Htracks & Htaken) _].
    exists BB, term, T0, T, T'.
    split; [exact HBB |]. split; [exact Hterm |]. split; [exact Hid |].
    split; [exact Htracks |]. split; [exact Htaken |].
    intros taken TrueBB FalseBB -> Hkind. eapply getTakenBlock_cond_br; eassumption.
  - intros Hnodup pnode cnode taken Hp Hc Hin Hdead.
    assert (Hprune0 : PruneInvariant M root [] [root] st0).
    { constructor; simpl.
      - rewrite pending_cons. unfold pending. simpl. rewrite app_nil_r. exact Hnodup.
      - intros node ->%list_elem_of_singleton. apply nodes_self.
      - intros ? ? ? _ _ Hempty. inversion Hempty. }
    destruct (walkCallee_PruneInvariant _ _ _ _ _ _ _ Hnodup H Hprune0)
      as (skipped & [Hnd _ Hskipped]).
    assert (Hs : node_block cnode ∈ skipped) by (eapply Hskipped; eassumption).
    apply NoDup_app in Hnd as (_ & Hdisjoint & _).
    assert (Hnot : forall tk, (node_block cnode, tk) ∉ visitedBlocks w).
    { intros tk Htk. eapply Hdisjoint.
      - apply (list_elem_of_fmap_2 fst) in Htk. exact Htk.
      - apply elem_of_app. left. exact Hs. }
    split; [exact Hnot |].
    intros i cost Hcount. destruct (Hcounted _ _ _ Hcount) as [tk Htk].
    exact (Hnot tk Htk).
  - split.
    + apply (walkCallee_visits _ _ _ _ _ H). left.
    + intros Hnodup pnode cnode ptk Hp Hc Hin Hrule.
      assert (Hlive0 : liveVisited M root st0 [root])
        by (intros ? ? ? _ Hempty; inversion Hempty).
      assert (Hnodes0 : forall node, node ∈ [root] -> node ∈ nodes root)
        by (intros node ->%list_elem_of_singleton; apply nodes_self).
      destruct (walkCallee_live _ _ _ _ _ _ Hnodup H Hnodes0 Hlive0
                  pnode ptk cnode Hp Hin Hc Hrule) as [Hdone | Hempty];
        [exact Hdone | inversion Hempty].
  - intros b tk Hin. exact (proj2 (Hrecorded b tk Hin)).
Qed.

End WalkProperties.

(** In the first sample the branch of block 20 is on the literal 1 of the
    caller, so block 21 is taken and block 22 is the not-taken successor.
    Block 22 has two predecessors: it is visited, against the rule in the
    words of the specification, and its two builtins are counted. *)
Lemma not_taken_successor_is_counted :
  exists w,
    analyzeCallee Sample.externals Sample.fallThrough Sample.fallThroughAnalyses
      (Sample.config 10) 20 102%positive Sample.call 2%positive Sample.callee 0
      (ConstantTracker_caller 1) = Ok w /\
    visitedBlocks w
    = [(22, None); (21, None); (20, Some 21)]%positive /\
    ~ liveAfter_claimed Sample.fallThrough 20%positive (Some 21%positive) 22%positive /\
    (22%positive, 220%positive, 1) ∈ counted w /\
    (22%positive, 221%positive, 1) ∈ counted w /\
    CalleeCost w = 3.
Proof.
  eexists. split; [vm_compute; reflexivity |].
  split; [reflexivity |]. split.
  - intros (BB & HBB & Hrule). vm_compute in HBB. injection HBB as <-.
    destruct Hrule as [Hpred | Htaken]; [vm_compute in Hpred |]; discriminate.
  - split; [| split; [| reflexivity]]; simpl; rewrite !elem_of_cons; auto.
Qed.

(** In the diamond the arm of block 42 is dropped: its single predecessor
    is block 40 and block 41 is taken.  Its two builtins are not counted
    and the cost of the callee is the one builtin of block 41.  Block 43
    has two predecessors: it is visited and its instruction is counted. *)
Lemma dead_successors_are_pruned_witness :
  exists w,
    (head (fn_blocks Sample.diamondCallee) = Some 40%positive /\
     getNode (DA_get Sample.diamondAnalyses 4%positive) 40%positive
     = Some Sample.diamondTree /\
     analyzeCallee Sample.externals Sample.diamond Sample.diamondAnalyses
       (Sample.config 10) 20 102%positive Sample.diamondCall 4%positive
       Sample.diamondCallee 0 (ConstantTracker_caller 1) = Ok w) /\
    CalleeCost w = 1 /\
    (forall tk, (42%positive, tk) ∉ visitedBlocks w) /\
    (forall i cost, (42%positive, i, cost) ∉ counted w) /\
    exists tk,
      (43%positive, tk) ∈ visitedBlocks w /\
      exists inst cost,
        getInstruction Sample.diamond 430 = Ok inst /\
        (43%positive, 430%positive, cost) ∈ counted w /\
        (cost = testCost inst \/
         cost = UInt.wrap (instructionInlineCost Sample.externals inst)).
Proof.
  assert (Hfront : head (fn_blocks Sample.diamondCallee) = Some 40%positive)
    by (vm_compute; reflexivity).
  assert (Hroot : getNode (DA_get Sample.diamondAnalyses 4%positive) 40%positive
                  = Some Sample.diamondTree) by (vm_compute; reflexivity).
  assert (Hnodup : NoDup (blocks Sample.diamondTree))
    by (apply (bool_decide_unpack _); vm_compute; exact Logic.I).
  assert (Hparent : Sample.diamondTree ∈ nodes Sample.diamondTree) by apply nodes_self.
  assert (Hchild : DINode 42 [] ∈ node_children Sample.diamondTree)
    by (unfold Sample.diamondTree; simpl; rewrite !elem_of_cons; auto).
  assert (Hchild' : DINode 43 [] ∈ node_children Sample.diamondTree)
    by (unfold Sample.diamondTree; simpl; rewrite !elem_of_cons; auto).
  assert (Hdead : deadAfter Sample.diamond (node_block Sample.diamondTree) 41%positive
                    (node_block (DINode 42 []))).
  { eexists. split; [vm_compute; reflexivity |]. split; [reflexivity | discriminate]. }
  assert (Hlive : liveAfter Sample.diamond (node_block Sample.diamondTree)
                    (Some 41%positive) (node_block (DINode 43 []))).
  { eexists. split; [vm_compute; reflexivity |]. left. discriminate. }
  assert (HBB : mod_blocks Sample.diamond !! 43%positive
                = Some (Sample.block [430%positive] [41%positive; 42%positive]))
    by (vm_compute; reflexivity).
  assert (Hi : 430%positive ∈ bb_instructions
                 (Sample.block [430%positive] [41%positive; 42%positive]))
    by (simpl; left).
  destruct (analyzeCallee Sample.externals Sample.diamond Sample.diamondAnalyses
              (Sample.config 10) 20 102%positive Sample.diamondCall 4%positive
              Sample.diamondCallee 0 (ConstantTracker_caller 1)) as [w | e] eqn:Hrun.
  - assert (Hfacts : CalleeCost w = 1 /\
                     (node_block Sample.diamondTree, Some 41%positive) ∈ visitedBlocks w).
    { vm_compute in Hrun. injection Hrun as <-. split; [reflexivity |].
      unfold Sample.diamondTree. simpl. rewrite !elem_of_cons. auto. }
    destruct Hfacts as [Hcost Hvisited].
    destruct (dead_successors_are_pruned Sample.externals Sample.diamond
                Sample.diamondAnalyses (Sample.config 10) 20 102%positive
                Sample.diamondCall 4%positive Sample.diamondCallee 0
                (ConstantTracker_caller 1) 40%positive Sample.diamondTree w
                Hfront Hroot Hrun)
      as (_ & _ & _ & Hpruned & [_ Hvisits] & Hcounts).
    destruct (Hpruned Hnodup Sample.diamondTree (DINode 42 []) 41%positive
                Hparent Hchild Hvisited Hdead) as [Hnot Hnone].
    destruct (Hvisits Hnodup Sample.diamondTree (DINode 43 []) (Some 41%positive)
                Hparent Hchild' Hvisited Hlive) as [tk Htk].
    exists w. split; [repeat split; assumption |]. split; [exact Hcost |].
    split; [exact Hnot |]. split; [exact Hnone |].
    exists tk. split; [exact Htk |].
    exact (Hcounts 43%positive tk Htk _ 430%positive HBB Hi).
  - exfalso. vm_compute in Hrun. discriminate Hrun.
Defined.



Lemma ineligible_never_inlined_witness :
  let E := Sample.externals in
  let M := Sample.fallThrough in
  let An := Sample.fallThroughAnalyses in
  let C := Sample.config (-1) in
  (collectAppliesToInline E M An C 20 Sample.fresh 1%positive []
   = Ok ([102%positive], dumpCaller Sample.fresh 1%positive) /\
   102%positive ∈ [102%positive]) /\
  exists inst Callee CalleeF CallerF,
    getInstruction M 102%positive = Ok inst /\
    getEligibleFunction E M C inst = Ok (Some Callee) /\
    getReferencedFunction M inst = Some Callee /\
    getFunction M Callee = Ok CalleeF /\
    getFunction M (inst_getFunction inst) = Ok CallerF /\
    inst_getFunction inst <> Callee /\
    (isFragile CallerF = true -> isFragile CalleeF = true) /\
    calleeIsSelfRecursive M Callee = Ok false.
Proof.
  intros E M An C.
  assert (Hrun : collectAppliesToInline E M An C 20 Sample.fresh 1%positive []
                 = Ok ([102%positive], dumpCaller Sample.fresh 1%positive))
    by (vm_compute; reflexivity).
  assert (Hin : 102%positive ∈ [102%positive]) by left.
  split; [split; assumption |].
  exact (proj1 (ineligible_never_inlined E Sample.services An C 20 M Sample.fresh
                  1%positive) _ _ Hrun _ Hin).
Defined.

(** ** The bound of the walks

    Each walk is run for as many iterations as its dominator tree has
    nodes.  That is enough: a larger bound gives the same outcome. *)

Section WalkBounds.

Variable E : Externals.
Variable M : SILModule.
Variable An : Analyses.
Variable C : Config.
Variable fuel : nat.

Lemma visitBlock_size Callee node st pushed st' :
  visitBlock E M An fuel Callee node st = Ok (pushed, st') ->
  (forest_size pushed <= forest_size (node_children node))%nat.
Proof.
  unfold visitBlock. intros H.
  split_run H as BB HBB. cbv zeta in H.
  split_run H as st1 Hinsts. split_run H as term Hterm.
  split_run H as r Htaken. destruct r as [[taken |] T].
  - eapply pushChildrenIf_size. exact H.
  - injection H as <- _. reflexivity.
Qed.

Lemma walkCallee_bound n m Callee buffer st :
  (forest_size buffer <= n)%nat -> (forest_size buffer <= m)%nat ->
  walkCallee E M An fuel n Callee buffer st = walkCallee E M An fuel m Callee buffer st.
Proof.
  revert m buffer st. induction n as [| n IH]; intros m buffer st Hn Hm;
    destruct buffer as [| node rest]; try reflexivity;
    try (destruct m; reflexivity);
    rewrite forest_size_cons in Hn, Hm; [lia |].
  destruct m as [| m]; [lia |]. simpl.
  destruct (visitBlock E M An fuel Callee node st) as [[pushed st1] | e] eqn:Hvisit;
    [| reflexivity].
  simpl. apply visitBlock_size in Hvisit.
  apply IH; rewrite forest_size_app; lia.
Qed.

Lemma visitColdBlocks_loop_bound n m buffer st :
  (forest_size buffer <= n)%nat -> (forest_size buffer <= m)%nat ->
  visitColdBlocks_loop E M C n buffer st = visitColdBlocks_loop E M C m buffer st.
Proof.
  revert m buffer st. induction n as [| n IH]; intros m buffer st Hn Hm;
    destruct buffer as [| node rest]; try reflexivity;
    try (destruct m; reflexivity);
    rewrite forest_size_cons in Hn, Hm; [lia |].
  destruct m as [| m]; [lia |]. simpl.
  destruct (getBasicBlock M (node_block node)) as [BB | e]; [| reflexivity]. simpl.
  destruct (visitColdInstructions E M C (bb_instructions BB) st) as [st1 | e];
    [| reflexivity].
  simpl. apply IH; rewrite forest_size_app; lia.
Qed.

Lemma collectWalk_bound n m Caller buffer st :
  (forest_size buffer <= n)%nat -> (forest_size buffer <= m)%nat ->
  collectWalk E M An C fuel n Caller buffer st
  = collectWalk E M An C fuel m Caller buffer st.
Proof.
  revert m buffer st. induction n as [| n IH]; intros m buffer st Hn Hm;
    destruct buffer as [| node rest]; try reflexivity;
    try (destruct m; reflexivity);
    rewrite forest_size_cons in Hn, Hm; [lia |].
  destruct m as [| m]; [lia |]. simpl.
  destruct (collectBlock E M An C fuel Caller node st) as [[pushed st1] | e] eqn:Hblock;
    [| reflexivity].
  simpl. unfold collectBlock in Hblock.
  split_run Hblock as BB HBB. split_run Hblock as st2 Hinsts.
  apply pushChildrenIf_size in Hblock.
  apply IH; rewrite forest_size_app; lia.
Qed.

End WalkBounds.

(** The second run of the collector on the sample starts with the caller
    that the first run printed and finds the same call site. *)
Lemma collector_is_deterministic_witness :
  let run this :=
    collectAppliesToInline Sample.externals Sample.fallThrough
      Sample.fallThroughAnalyses (Sample.config (-1)) 20 this 1%positive [] in
  run Sample.fresh = Ok ([102%positive], dumpCaller Sample.fresh 1%positive) /\
  exists this'',
    run (dumpCaller Sample.fresh 1%positive) = Ok ([102%positive], this'').
Proof.
  intros run.
  assert (Hfirst : run Sample.fresh
                   = Ok ([102%positive], dumpCaller Sample.fresh 1%positive))
    by (vm_compute; reflexivity).
  split; [exact Hfirst |].
  exact (proj2 (collector_is_deterministic Sample.externals Sample.fallThrough
                  Sample.fallThroughAnalyses (Sample.config (-1)) 20 Sample.fresh
                  Sample.fresh 1%positive []) _ _ Hfirst).
Defined.

(** ** The tracker at work

    With a test threshold of 1 the callee that branches on a loaded value
    is inlined: the load is linked to the store of the caller, the branch
    is folded by the literal 7 and only the builtin of the taken block is
    counted.  Without the link all four builtins would be counted and the
    call site refused. *)
Example constant_through_memory :
  collectAppliesToInline Sample.externals Sample.throughMemory
    Sample.throughMemoryAnalyses (Sample.config 1) 20 Sample.fresh 1%positive []
  = Ok ([104%positive], dumpCaller Sample.fresh 1%positive).
Proof. vm_compute. reflexivity. Qed.

(** * Further properties of the source *)

(** ** The threshold *)

(** Property X1.  Outside test mode the threshold is never below the
    trivial ceiling of 20 and never above the larger of the benefit and
    20, whatever the number of caller blocks, and in a thunk it is exactly
    20. *)
Theorem threshold_between_floor_and_benefit Benefit testThreshold callerIsThunk
    NumCallerBlocks :
  UInt.in_range Benefit -> testThreshold < 0 ->
  TrivialFunctionThreshold
  <= computeThreshold Benefit testThreshold callerIsThunk NumCallerBlocks
  <= Z.max Benefit TrivialFunctionThreshold /\
  (callerIsThunk = true ->
   computeThreshold Benefit testThreshold callerIsThunk NumCallerBlocks
   = TrivialFunctionThreshold).
Proof.
  intros HB Ht. unfold computeThreshold.
  destruct (Z.leb_spec 0 testThreshold); [lia |].
  destruct callerIsThunk; [split; [lia | reflexivity] |].
  split; [| discriminate].
  pose proof (blockMinus_range NumCallerBlocks) as Hm.
  unfold UInt.add, UInt.sub, TrivialFunctionThreshold in *.
  unfold UInt.in_range, UInt.modulus in HB.
  rewrite (wrap_small (_ + 20)) by (unfold UInt.in_range, UInt.modulus; lia).
  destruct (Z.ltb_spec (blockMinus NumCallerBlocks + 20) Benefit); [| lia].
  rewrite wrap_small by (unfold UInt.in_range, UInt.modulus; lia). lia.
Qed.

Lemma threshold_between_floor_and_benefit_witness :
  UInt.in_range 120 /\ -1 < 0 /\
  (TrivialFunctionThreshold <= computeThreshold 120 (-1) false 1500
   <= Z.max 120 TrivialFunctionThreshold /\
   (false = true -> computeThreshold 120 (-1) false 1500 = TrivialFunctionThreshold)).
Proof.
  assert (H1 : UInt.in_range 120) by (unfold UInt.in_range, UInt.modulus; lia).
  assert (H2 : -1 < 0) by lia.
  split; [exact H1 |]. split; [exact H2 |].
  exact (threshold_between_floor_and_benefit 120 (-1) false 1500 H1 H2).
Defined.

(** Property X2.  Up to 35020 caller blocks the threshold of the default
    case does not increase when the number of caller blocks grows. *)
Theorem threshold_decays_below_overflow Benefit testThreshold n1 n2 :
  UInt.in_range Benefit -> testThreshold < 0 -> 0 <= n1 <= n2 -> n2 <= 35020 ->
  computeThreshold Benefit testThreshold false n2
  <= computeThreshold Benefit testThreshold false n1.
Proof. apply computeThreshold_decay_small. Qed.

Lemma threshold_decays_below_overflow_witness :
  UInt.in_range 120 /\ -1 < 0 /\ 0 <= 1000 <= 2000 /\ 2000 <= 35020 /\
  computeThreshold 120 (-1) false 2000 <= computeThreshold 120 (-1) false 1000.
Proof.
  assert (H1 : UInt.in_range 120) by (unfold UInt.in_range, UInt.modulus; lia).
  assert (H2 : -1 < 0) by lia.
  assert (H3 : 0 <= 1000 <= 2000) by lia.
  assert (H4 : 2000 <= 35020) by lia.
  repeat (split; [assumption |]).
  exact (threshold_decays_below_overflow 120 (-1) 1000 2000 H1 H2 H3 H4).
Defined.

(** Property X3.  Up to 35020 caller blocks the decay term, which divides
    twice, is at most the cubic formula [counter^3 / denominator^2] and
    less than it by 4 at most. *)
Theorem blockMinus_near_cubic n :
  0 <= n <= 35020 ->
  blockMinus n <= n * n * n / (BlockLimitDenominator * BlockLimitDenominator)
  <= blockMinus n + 4.
Proof.
  intros Hn. rewrite blockMinus_cubic by exact Hn.
  unfold cubicDecay, BlockLimitDenominator.
  pose proof (Z.div_mod (n * n) 10000 ltac:(lia)) as Hq.
  pose proof (Z.mod_pos_bound (n * n) 10000 ltac:(lia)) as Hr.
  set (q := n * n / 10000) in *. set (r := (n * n) mod 10000) in *.
  pose proof (Z.div_mod (q * n) 10000 ltac:(lia)) as Ha.
  pose proof (Z.mod_pos_bound (q * n) 10000 ltac:(lia)) as Hs.
  set (a := q * n / 10000) in *. set (s := (q * n) mod 10000) in *.
  assert (Hcube : n * n * n = a * (10000 * 10000) + (10000 * s + r * n)) by nia.
  assert (Hrest : 0 <= 10000 * s + r * n < 5 * (10000 * 10000)) by nia.
  rewrite Hcube. split.
  - apply Z.div_le_lower_bound; lia.
  - assert ((a * (10000 * 10000) + (10000 * s + r * n)) / (10000 * 10000) < a + 5)
      by (apply Z.div_lt_upper_bound; lia).
    lia.
Qed.

Lemma blockMinus_near_cubic_witness :
  0 <= 4642 <= 35020 /\
  blockMinus 4642 <= 4642 * 4642 * 4642 / (BlockLimitDenominator * BlockLimitDenominator)
  <= blockMinus 4642 + 4.
Proof.
  assert (H : 0 <= 4642 <= 35020) by lia.
  split; [exact H |]. exact (blockMinus_near_cubic 4642 H).
Defined.

(** ** The constant tracker: addresses and memory *)

Section TrackerMemory.

Variable E : Externals.
Variable M : SILModule.
Variable fuel : nat.

Lemma getParam_view T T' val :
  AI T = AI T' -> F T = F T' -> getParam M T val = getParam M T' val.
Proof. intros HAI HF. unfold getParam. rewrite HAI, HF. reflexivity. Qed.

Lemma scanProjections_loop_view n T T' addr projections :
  AI T = AI T' -> F T = F T' ->
  scanProjections_loop M n T addr projections
  = scanProjections_loop M n T' addr projections.
Proof.
  intros HAI HF. revert addr projections.
  induction n as [| n IH]; intros addr projections; simpl; [reflexivity |].
  destruct (isAddressProjection M addr) as [[ins p] |]; [apply IH |].
  rewrite (getParam_view T T' addr HAI HF).
  destruct (getParam M T' addr); [apply IH | reflexivity].
Qed.

Lemma scanProjections_loop_base n T addr projections base found :
  scanProjections_loop M n T addr projections = Ok (base, found) ->
  isAddressProjection M base = None /\ getParam M T base = None /\
  exists more, found = projections ++ more.
Proof.
  revert addr projections. induction n as [| n IH]; intros addr projections H;
    simpl in H; [discriminate |].
  destruct (isAddressProjection M addr) as [[ins p] |] eqn:Hproj.
  - apply IH in H as (Hb & Hp & more & ->).
    split; [exact Hb |]. split; [exact Hp |].
    exists (p :: more). rewrite <- app_assoc. reflexivity.
  - destruct (getParam M T addr) as [param |] eqn:Hparam.
    + apply IH in H. exact H.
    + injection H as <- <-. split; [exact Hproj |]. split; [exact Hparam |].
      exists []. rewrite app_nil_r. reflexivity.
Qed.

(** Property X4.  The base address that [scanProjections] returns is
    neither an address projection nor a parameter with a known argument,
    and scanning it again returns it with no projection. *)
Theorem scanProjections_returns_base T addr base projections :
  scanProjections M fuel T addr = Ok (base, projections) ->
  isAddressProjection M base = None /\
  getParam M T base = None /\
  scanProjections M fuel T base = Ok (base, []).
Proof.
  unfold scanProjections. intros H.
  pose proof (scanProjections_loop_base _ _ _ _ _ _ H) as (Hproj & Hparam & _).
  split; [exact Hproj |]. split; [exact Hparam |].
  destruct fuel as [| n]; [discriminate H |].
  simpl. rewrite Hproj, Hparam. reflexivity.
Qed.

Lemma popProjections_pushed pushed projStack :
  popProjections pushed (pushed ++ projStack) = (true, projStack).
Proof.
  induction pushed as [| p rest IH]; simpl; [reflexivity |].
  rewrite bool_decide_eq_true_2 by reflexivity. exact IH.
Qed.

Lemma push_projections projections (projStack : list nat) :
  fold_left (fun s p => p :: s) projections projStack = rev projections ++ projStack.
Proof.
  revert projStack. induction projections as [| p rest IH]; intros projStack; simpl.
  - reflexivity.
  - rewrite IH, <- app_assoc. reflexivity.
Qed.

(** Property X5.  A load from the address that was just stored to is
    linked to the store, and its stored value is the value of the store:
    the two addresses may be different values, as long as they lead to the
    same base address through the same address projections, and the
    projection stack is left as it was. *)
Theorem load_after_store T store SI load LI val storeAddr loadAddr base projections
    projStack :
  getInstruction M store = Ok SI -> getKind SI = StoreInst ->
  getOperands SI = [val; storeAddr] ->
  getInstruction M load = Ok LI -> getKind LI = LoadInst ->
  getOperands LI = [loadAddr] ->
  scanProjections M fuel T storeAddr = Ok (base, projections) ->
  scanProjections M fuel T loadAddr = Ok (base, projections) ->
  exists T1 T2,
    trackInst M fuel T store = Ok T1 /\
    memoryContent T1 !! base = Some store /\
    trackInst M fuel T1 load = Ok T2 /\
    links T2 !! load = Some store /\
    getStoredValue M fuel T2 load projStack = Ok (val, projStack).
Proof.
  intros HSI Hstore Hops HLI Hload Hopl Hscan Hscanl.
  assert (Hop1 : getOperand SI 1 = storeAddr)
    by (unfold getOperand; rewrite Hops; reflexivity).
  assert (Hop0 : getOperand SI 0 = val) by (unfold getOperand; rewrite Hops; reflexivity).
  assert (Hopl0 : getOperand LI 0 = loadAddr)
    by (unfold getOperand; rewrite Hopl; reflexivity).
  set (T1 := set_memoryContent T (<[base := store]> (memoryContent T))).
  set (T2 := set_links T1 (<[load := store]> (links T1))).
  assert (Hscanl1 : scanProjections M fuel T1 loadAddr = Ok (base, projections))
    by (rewrite <- Hscanl; symmetry; apply scanProjections_loop_view; reflexivity).
  assert (Hscanl2 : scanProjections M fuel T2 loadAddr = Ok (base, projections))
    by (rewrite <- Hscanl; symmetry; apply scanProjections_loop_view; reflexivity).
  assert (Hscan2 : scanProjections M fuel T2 storeAddr = Ok (base, projections))
    by (rewrite <- Hscan; symmetry; apply scanProjections_loop_view; reflexivity).
  exists T1, T2. split; [| split; [| split; [| split]]].
  - unfold trackInst. rewrite HSI. simpl. rewrite Hstore, Hop1, Hscan. reflexivity.
  - simpl. apply lookup_insert_eq.
  - unfold trackInst. rewrite HLI. simpl. rewrite Hload, Hopl0, Hscanl1. simpl.
    rewrite lookup_insert_eq. reflexivity.
  - simpl. apply lookup_insert_eq.
  - unfold getStoredValue. destruct fuel as [| n]; [discriminate Hscan |].
    simpl. rewrite lookup_insert_eq. rewrite HLI. simpl.
    unfold isLoadOrCopyAddr. rewrite Hload. simpl.
    rewrite Hopl0, Hscanl2. simpl. rewrite HSI. simpl.
    rewrite Hop1, Hscan2. simpl.
    rewrite push_projections, popProjections_pushed, Hstore, Hop0. reflexivity.
Qed.

Lemma getStoredValue_loop_view n T T' loadInst projStack :
  sameView T T' ->
  getStoredValue_loop M fuel n T loadInst projStack
  = getStoredValue_loop M fuel n T' loadInst projStack.
Proof.
  intros (Hlinks & _ & Hcaller & HAI & HF). revert loadInst projStack.
  induction n as [| n IH]; intros loadInst projStack; simpl; [reflexivity |].
  rewrite Hlinks, Hcaller.
  destruct (match links T' !! loadInst with
            | Some s => Some s
            | None => match callerTracker T' with
                      | Some caller => links caller !! loadInst
                      | None => None
                      end
            end) as [store |]; [| reflexivity].
  destruct (getInstruction M loadInst) as [load | e]; [| reflexivity]. simpl.
  destruct (assert (isLoadOrCopyAddr load)) as [[] | e]; [| reflexivity]. simpl.
  unfold scanProjections.
  rewrite (scanProjections_loop_view fuel T T' _ [] HAI HF).
  destruct (scanProjections_loop M fuel T' (getOperand load 0) [])
    as [[base1 loadProjections] | e]; [| reflexivity]. simpl.
  destruct (getInstruction M store) as [storeI | e]; [| reflexivity]. simpl.
  rewrite (scanProjections_loop_view fuel T T' _ [] HAI HF).
  destruct (scanProjections_loop M fuel T' (getOperand storeI 1) [])
    as [[base2 storeProjections] | e]; [| reflexivity]. simpl.
  destruct (popProjections _ _) as [[] stack]; [| reflexivity].
  destruct (getKind storeI); try reflexivity. apply IH.
Qed.

Lemma getDef_loop_step n T val projStack :
  getDef_loop E M fuel (S n) T val projStack =
  match val, asInstruction M val with
  | Some id, Some inst =>
      match isObjectProjection inst with
      | Some proj => getDef_loop E M fuel n T (getOperand inst 0) (proj :: projStack)
      | None =>
          match getMember E inst projStack with
          | Some member => getDef_loop E M fuel n T (Some member) (tail projStack)
          | None =>
              let* (loadedVal, projStack) := getStoredValue M fuel T id projStack in
              match loadedVal with
              | Some loaded => getDef_loop E M fuel n T (Some loaded) projStack
              | None =>
                  if isThinToThickFunctionInst inst
                  then getDef_loop E M fuel n T (getOperand inst 0) projStack
                  else Ok (Some id)
              end
          end
      end
  | _, _ =>
      match getParam M T val with
      | Some param => getDef_loop E M fuel n T (Some param) projStack
      | None => Ok None
      end
  end.
Proof. reflexivity. Qed.

Lemma getDef_loop_view n T T' val projStack :
  sameView T T' ->
  getDef_loop E M fuel n T val projStack = getDef_loop E M fuel n T' val projStack.
Proof.
  intros Hview. pose proof Hview as (Hlinks & _ & Hcaller & HAI & HF).
  revert val projStack.
  induction n as [| n IH]; intros val projStack; [reflexivity |].
  rewrite !getDef_loop_step.
  rewrite (getParam_view T T' val HAI HF).
  unfold getStoredValue.
  destruct val as [id |]; [| destruct (getParam M T' None); [apply IH | reflexivity]].
  destruct (asInstruction M (Some id)) as [inst |];
    [| destruct (getParam M T' (Some id)); [apply IH | reflexivity]].
  destruct (isObjectProjection inst); [apply IH |].
  destruct (getMember E inst projStack); [apply IH |].
  rewrite (getStoredValue_loop_view fuel T T' id projStack Hview).
  destruct (getStoredValue_loop M fuel fuel T' id projStack) as [[loaded stack] | e];
    [| reflexivity].
  simpl. destruct loaded; [apply IH |].
  destruct (isThinToThickFunctionInst inst); [apply IH | reflexivity].
Qed.

Lemma getDef_loop_result n T val projStack d :
  getDef_loop E M fuel n T val projStack = Ok (Some d) ->
  exists inst,
    asInstruction M (Some d) = Some inst /\
    isObjectProjection inst = None /\
    isThinToThickFunctionInst inst = false.
Proof.
  revert val projStack. induction n as [| n IH]; intros val projStack H;
    [discriminate |].
  rewrite getDef_loop_step in H.
  destruct val as [id |].
  - destruct (asInstruction M (Some id)) as [inst |] eqn:Hinst.
    + destruct (isObjectProjection inst) eqn:Hobject; [eapply IH; exact H |].
      destruct (getMember E inst projStack); [eapply IH; exact H |].
      split_run H as r Hstored. destruct r as [loaded stack].
      destruct loaded; [eapply IH; exact H |].
      destruct (isThinToThickFunctionInst inst) eqn:Hthin; [eapply IH; exact H |].
      injection H as <-. exists inst. auto.
    + destruct (getParam M T (Some id)); [eapply IH; exact H | discriminate].
  - destruct (asInstruction M None); destruct (getParam M T None);
      try discriminate; eapply IH; exact H.
Qed.

(** Property X6.  The memory content does not outlive a block: in a
    tracker without a caller tracker, a load that has no link yet and that
    is tracked after a store and [beginBlock] is linked to no store, even
    when it loads from the address that was stored to.  The tracker is
    left as [beginBlock] left it, [getStoredValue] finds no value for the
    load and the constant of the load is invalid. *)
Theorem load_after_beginBlock T store SI load LI val storeAddr loadAddr base
    projections base' projections' projStack :
  callerTracker T = None -> links T !! load = None ->
  getInstruction M store = Ok SI -> getKind SI = StoreInst ->
  getOperands SI = [val; storeAddr] ->
  getInstruction M load = Ok LI -> getKind LI = LoadInst ->
  getOperands LI = [loadAddr] ->
  scanProjections M fuel T storeAddr = Ok (base, projections) ->
  scanProjections M fuel T loadAddr = Ok (base', projections') ->
  exists T1,
    trackInst M fuel T store = Ok T1 /\
    memoryContent T1 !! base = Some store /\
    trackInst M fuel (beginBlock T1) load = Ok (beginBlock T1) /\
    links (beginBlock T1) !! load = None /\
    getStoredValue M fuel (beginBlock T1) load projStack = Ok (None, projStack) /\
    getIntConst E M fuel (beginBlock T1) (Some load) 0
    = Ok (IntConst_invalid, beginBlock T1).
Proof.
  intros Hcaller Hlink HSI Hstore Hops HLI Hload Hopl Hscan Hscanl.
  assert (Hop1 : getOperand SI 1 = storeAddr)
    by (unfold getOperand; rewrite Hops; reflexivity).
  assert (Hopl0 : getOperand LI 0 = loadAddr)
    by (unfold getOperand; rewrite Hopl; reflexivity).
  set (T1 := set_memoryContent T (<[base := store]> (memoryContent T))).
  assert (Hscanl1 : scanProjections M fuel (beginBlock T1) loadAddr
                    = Ok (base', projections'))
    by (rewrite <- Hscanl; symmetry; apply scanProjections_loop_view; reflexivity).
  assert (Hstored : forall stack,
            getStoredValue M fuel (beginBlock T1) load stack = Ok (None, stack)).
  { intros stack. unfold getStoredValue.
    destruct fuel as [| n]; [discriminate Hscan |].
    simpl. rewrite Hlink, Hcaller. reflexivity. }
  exists T1. split; [| split; [| split; [| split; [| split]]]].
  - unfold trackInst. rewrite HSI. simpl. rewrite Hstore, Hop1, Hscan. reflexivity.
  - simpl. apply lookup_insert_eq.
  - unfold trackInst. rewrite HLI. simpl. rewrite Hload, Hopl0, Hscanl1. simpl.
    rewrite lookup_empty, Hcaller. reflexivity.
  - exact Hlink.
  - apply Hstored.
  - assert (Hinst : asInstruction M (Some load) = Some LI).
    { unfold getInstruction, deref in HLI.
      destruct (asInstruction M (Some load)); [congruence | discriminate]. }
    assert (Hdef : getDef E M fuel (beginBlock T1) (Some load) = Ok (Some load)).
    { assert (Hfuel : exists n, fuel = S n)
        by (destruct fuel as [| n]; [discriminate Hscan | eauto]).
      destruct Hfuel as [n Hfuel]. unfold getDef.
      replace (getDef_loop E M fuel fuel (beginBlock T1) (Some load) [])
        with (getDef_loop E M fuel (S n) (beginBlock T1) (Some load) [])
        by (rewrite <- Hfuel; reflexivity).
      rewrite getDef_loop_step, Hinst.
      unfold isObjectProjection, isThinToThickFunctionInst. rewrite Hload. simpl.
      rewrite Hstored. reflexivity. }
    unfold getIntConst. simpl. rewrite Hdef. simpl. rewrite HLI. simpl.
    rewrite Hload. reflexivity.
Qed.

(** Property X7.  The definition that [getDef] returns is an instruction
    that cannot be resolved further: it is neither a member extraction nor
    a [thin_to_thick_function] conversion. *)
Theorem getDef_returns_unresolvable T val d :
  getDef E M fuel T val = Ok (Some d) ->
  exists inst,
    getInstruction M d = Ok inst /\
    isObjectProjection inst = None /\
    isThinToThickFunctionInst inst = false.
Proof.
  intros H. apply getDef_loop_result in H as (inst & Hinst & Hobject & Hthin).
  exists inst. unfold getInstruction. rewrite Hinst. auto.
Qed.

(** Property X8.  Asking [getIntConst] again for the same value gives the
    same constant and leaves the tracker as the first call left it: the
    constant of a builtin comes from the cache. *)
Theorem getIntConst_again T val depth c T' :
  getIntConst E M fuel T val depth = Ok (c, T') ->
  getIntConst E M fuel T' val depth = Ok (c, T').
Proof.
  unfold getIntConst. intros H.
  pose proof (getIntConst_upto_view _ _ _ _ _ _ _ _ H) as Hview.
  destruct (10 - depth)%nat as [| k]; simpl in *.
  - injection H as <- <-. reflexivity.
  - unfold getDef in *. rewrite <- (getDef_loop_view fuel T T' val [] Hview).
    split_run H as def Hdef. rewrite Hdef. simpl.
    destruct def as [d |]; [| injection H as <- <-; reflexivity].
    split_run H as inst Hinst. rewrite Hinst. simpl.
    destruct (getKind inst); try (injection H as <- <-; reflexivity).
    destruct (constCache T !! d) as [cached |] eqn:Hcache.
    + injection H as <- <-. rewrite Hcache. reflexivity.
    + split_run H as r Hbody. destruct r as [builtinConst T1].
      injection H as <- <-. simpl. rewrite lookup_insert_eq. reflexivity.
Qed.

End TrackerMemory.

Lemma scanProjections_returns_base_witness :
  scanProjections Sample.localMemory 8 (ConstantTracker_caller 6) (Some 601%positive)
  = Ok (Some 600%positive, [0%nat]) /\
  (isAddressProjection Sample.localMemory (Some 600%positive) = None /\
   getParam Sample.localMemory (ConstantTracker_caller 6) (Some 600%positive) = None /\
   scanProjections Sample.localMemory 8 (ConstantTracker_caller 6) (Some 600%positive)
   = Ok (Some 600%positive, [])).
Proof.
  assert (H : scanProjections Sample.localMemory 8 (ConstantTracker_caller 6)
                (Some 601%positive) = Ok (Some 600%positive, [0%nat]))
    by (vm_compute; reflexivity).
  split; [exact H |].
  exact (scanProjections_returns_base Sample.localMemory 8 (ConstantTracker_caller 6)
           (Some 601%positive) (Some 600%positive) [0%nat] H).
Defined.

Lemma load_after_store_witness :
  exists T1 T2,
    trackInst Sample.localMemory 8 (ConstantTracker_caller 6) 603 = Ok T1 /\
    memoryContent T1 !! Some 600%positive = Some 603%positive /\
    trackInst Sample.localMemory 8 T1 605 = Ok T2 /\
    links T2 !! 605%positive = Some 603%positive /\
    getStoredValue Sample.localMemory 8 T2 605 [] = Ok (Some 602%positive, []).
Proof.
  set (M := Sample.localMemory). set (T := ConstantTracker_caller 6).
  set (SI := {| getKind := StoreInst; getOperands := [Some 602%positive; Some 601%positive];
                inst_getFunction := 6%positive |}).
  set (LI := {| getKind := LoadInst; getOperands := [Some 604%positive];
                inst_getFunction := 6%positive |}).
  assert (H1 : getInstruction M 603 = Ok SI) by (vm_compute; reflexivity).
  assert (H2 : getKind SI = StoreInst) by reflexivity.
  assert (H3 : getOperands SI = [Some 602%positive; Some 601%positive]) by reflexivity.
  assert (H4 : getInstruction M 605 = Ok LI) by (vm_compute; reflexivity).
  assert (H5 : getKind LI = LoadInst) by reflexivity.
  assert (H6 : getOperands LI = [Some 604%positive]) by reflexivity.
  assert (H7 : scanProjections M 8 T (Some 601%positive) = Ok (Some 600%positive, [0%nat]))
    by (vm_compute; reflexivity).
  assert (H8 : scanProjections M 8 T (Some 604%positive) = Ok (Some 600%positive, [0%nat]))
    by (vm_compute; reflexivity).
  exact (load_after_store M 8 T 603 SI 605 LI (Some 602%positive) (Some 601%positive)
           (Some 604%positive) (Some 600%positive) [0%nat] [] H1 H2 H3 H4 H5 H6 H7 H8).
Defined.

Lemma load_after_beginBlock_witness :
  exists T1,
    trackInst Sample.localMemory 8 (ConstantTracker_caller 6) 603 = Ok T1 /\
    memoryContent T1 !! Some 600%positive = Some 603%positive /\
    trackInst Sample.localMemory 8 (beginBlock T1) 605 = Ok (beginBlock T1) /\
    links (beginBlock T1) !! 605%positive = None /\
    getStoredValue Sample.localMemory 8 (beginBlock T1) 605 [] = Ok (None, []) /\
    getIntConst Sample.externals Sample.localMemory 8 (beginBlock T1)
      (Some 605%positive) 0 = Ok (IntConst_invalid, beginBlock T1).
Proof.
  set (M := Sample.localMemory). set (T := ConstantTracker_caller 6).
  set (SI := {| getKind := StoreInst; getOperands := [Some 602%positive; Some 601%positive];
                inst_getFunction := 6%positive |}).
  set (LI := {| getKind := LoadInst; getOperands := [Some 604%positive];
                inst_getFunction := 6%positive |}).
  assert (Hcaller : callerTracker T = None) by reflexivity.
  assert (Hlink : links T !! 605%positive = None) by reflexivity.
  assert (H1 : getInstruction M 603 = Ok SI) by (vm_compute; reflexivity).
  assert (H2 : getKind SI = StoreInst) by reflexivity.
  assert (H3 : getOperands SI = [Some 602%positive; Some 601%positive]) by reflexivity.
  assert (H4 : getInstruction M 605 = Ok LI) by (vm_compute; reflexivity).
  assert (H5 : getKind LI = LoadInst) by reflexivity.
  assert (H6 : getOperands LI = [Some 604%positive]) by reflexivity.
  assert (H7 : scanProjections M 8 T (Some 601%positive) = Ok (Some 600%positive, [0%nat]))
    by (vm_compute; reflexivity).
  assert (H8 : scanProjections M 8 T (Some 604%positive) = Ok (Some 600%positive, [0%nat]))
    by (vm_compute; reflexivity).
  exact (load_after_beginBlock Sample.externals M 8 T 603 SI 605 LI (Some 602%positive)
           (Some 601%positive) (Some 604%positive) (Some 600%positive) [0%nat]
           (Some 600%positive) [0%nat] [] Hcaller Hlink H1 H2 H3 H4 H5 H6 H7 H8).
Defined.

Lemma getDef_returns_unresolvable_witness :
  getDef Sample.externals Sample.localMemory 8 Sample.localMemoryTracker
    (Some 605%positive) = Ok (Some 602%positive) /\
  exists inst,
    getInstruction Sample.localMemory 602 = Ok inst /\
    isObjectProjection inst = None /\
    isThinToThickFunctionInst inst = false.
Proof.
  assert (H : getDef Sample.externals Sample.localMemory 8 Sample.localMemoryTracker
                (Some 605%positive) = Ok (Some 602%positive))
    by (vm_compute; reflexivity).
  split; [exact H |].
  exact (getDef_returns_unresolvable Sample.externals Sample.localMemory 8
           Sample.localMemoryTracker (Some 605%positive) 602 H).
Defined.

Lemma getIntConst_again_witness :
  exists T',
    getIntConst Sample.externals Sample.localMemory 8 Sample.localMemoryTracker
      (Some 606%positive) 0 = Ok (IntConst_make 3 false, T') /\
    constCache T' !! 606%positive = Some (IntConst_make 3 false) /\
    getIntConst Sample.externals Sample.localMemory 8 T' (Some 606%positive) 0
    = Ok (IntConst_make 3 false, T').
Proof.
  destruct (getIntConst Sample.externals Sample.localMemory 8 Sample.localMemoryTracker
              (Some 606%positive) 0) as [[c T'] | e] eqn:Hrun;
    [| vm_compute in Hrun; discriminate Hrun].
  assert (Hc : c = IntConst_make 3 false)
    by (vm_compute in Hrun; injection Hrun as <- _; reflexivity).
  assert (Hcache : constCache T' !! 606%positive = Some (IntConst_make 3 false))
    by (vm_compute in Hrun; injection Hrun as _ <-; vm_compute; reflexivity).
  subst c. exists T'. split; [reflexivity |]. split; [exact Hcache |].
  exact (getIntConst_again Sample.externals Sample.localMemory 8
           Sample.localMemoryTracker (Some 606%positive) 0 _ T' Hrun).
Defined.

(** ** The eligibility filter and the three inliners *)

Section EligibilityExtra.

Variable E : Externals.
Variable M : SILModule.

Lemma getEligibleFunction_selection C1 C2 inst Callee :
  (forall CalleeF,
     skippedBySelection C1 CalleeF = false -> skippedBySelection C2 CalleeF = false) ->
  getEligibleFunction E M C1 inst = Ok (Some Callee) ->
  getEligibleFunction E M C2 inst = Ok (Some Callee).
Proof.
  intros Hskip H. unfold getEligibleFunction in *.
  destruct (getReferencedFunction M inst) as [Callee' |]; [| discriminate].
  destruct (getFunction M Callee') as [CalleeF | e]; [| discriminate]. simpl in *.
  destruct (skippedBySelection C1 CalleeF) eqn:H1; [discriminate |].
  rewrite (Hskip _ H1). exact H.
Qed.

(** Property X9.  The early inliner is the most restrictive and the late
    inliner the least: a call site whose callee the early inliner may
    inline may be inlined by the middle inliner, and one that the middle
    inliner may inline may be inlined by the late inliner. *)
Theorem later_inliners_accept_more C inst Callee :
  (getEligibleFunction E M (withSelection C createEarlyInliner) inst = Ok (Some Callee) ->
   getEligibleFunction E M (withSelection C createPerfInliner) inst = Ok (Some Callee)) /\
  (getEligibleFunction E M (withSelection C createPerfInliner) inst = Ok (Some Callee) ->
   getEligibleFunction E M (withSelection C createLateInliner) inst = Ok (Some Callee)).
Proof.
  split; apply getEligibleFunction_selection; intros CalleeF;
    unfold skippedBySelection; simpl;
    destruct (hasSemanticsAttrs CalleeF || hasEffectsKind CalleeF);
    destruct (hasSemanticsAttrs CalleeF); simpl;
    destruct (hasSemanticsAttrThatStartsWith CalleeF "availability");
    destruct (isGlobalInit CalleeF); simpl; congruence.
Qed.

End EligibilityExtra.

Lemma later_inliners_accept_more_witness :
  let eligible selection :=
    getEligibleFunction Sample.externals Sample.fallThrough
      (withSelection (Sample.config (-1)) selection) Sample.call in
  eligible createEarlyInliner = Ok (Some 2%positive) /\
  eligible createPerfInliner = Ok (Some 2%positive) /\
  eligible createLateInliner = Ok (Some 2%positive).
Proof.
  intros eligible.
  assert (Hearly : eligible createEarlyInliner = Ok (Some 2%positive))
    by (vm_compute; reflexivity).
  pose proof (later_inliners_accept_more Sample.externals Sample.fallThrough
                (Sample.config (-1)) Sample.call 2%positive) as [Hperf Hlate].
  split; [exact Hearly |]. split; [exact (Hperf Hearly) |].
  exact (Hlate (Hperf Hearly)).
Defined.

(** ** The multiplicity guard: order, bound and composition *)

Section GuardExtra.

Implicit Types candidates : list (positive * positive).

Lemma multiplicityGuard_filter candidates Applies :
  Z.of_nat (length candidates) < UInt.modulus ->
  multiplicityGuard candidates Applies =
  Applies ++
  (filter (fun p => occurrences p.2 candidates <= CallsToCalleeThreshold) candidates).*1.
Proof.
  intros Hlen. unfold multiplicityGuard. rewrite copyCandidates_filter. f_equal. f_equal.
  apply list_filter_iff. intros [AI Callee]. simpl.
  rewrite countCallees_lookup, lookup_empty. simpl.
  pose proof (occurrences_bounds Callee candidates) as Hocc.
  destruct (Z.eqb_spec (occurrences Callee candidates) 0) as [-> | _].
  - reflexivity.
  - rewrite wrap_small by (unfold UInt.in_range; lia). reflexivity.
Qed.

Lemma occurrences_filter (Q : positive -> Prop) `{!forall c, Decision (Q c)}
    candidates Callee :
  occurrences Callee (filter (fun p => Q p.2) candidates) =
  if decide (Q Callee) then occurrences Callee candidates else 0.
Proof.
  induction candidates as [| [AI Callee'] rest IH].
  - destruct (decide (Q Callee)); reflexivity.
  - destruct (decide (Q Callee')) as [HQ | HQ].
    + rewrite filter_cons_True by exact HQ.
      destruct (decide (Callee' = Callee)) as [-> | Hne].
      * rewrite !occurrences_cons_eq, IH. destruct (decide (Q Callee)); [lia | contradiction].
      * rewrite !occurrences_cons_ne by exact Hne. exact IH.
    + rewrite filter_cons_False by exact HQ. rewrite IH.
      destruct (decide (Callee' = Callee)) as [-> | Hne].
      * destruct (decide (Q Callee)); [contradiction | reflexivity].
      * rewrite occurrences_cons_ne by exact Hne. reflexivity.
Qed.

Lemma filter_all {A} (P : A -> Prop) `{!forall x, Decision (P x)} (l : list A) :
  Forall P l -> filter P l = l.
Proof.
  induction 1 as [| x l Hx Hl IH]; [reflexivity |].
  rewrite filter_cons_True by exact Hx. rewrite IH. reflexivity.
Qed.

(** Property X10.  The guard appends to the list it is given.  With fewer
    than 2^32 initial candidates, what it appends keeps the order of
    discovery, no callee has more than 1024 call sites in it, and the
    guard would drop nothing from it. *)
Theorem guard_keeps_order_and_bound candidates :
  Z.of_nat (length candidates) < UInt.modulus ->
  let kept :=
    filter (fun p => occurrences p.2 candidates <= CallsToCalleeThreshold) candidates in
  (forall Applies,
     multiplicityGuard candidates Applies = Applies ++ multiplicityGuard candidates []) /\
  multiplicityGuard candidates [] = kept.*1 /\
  multiplicityGuard candidates [] `sublist_of` candidates.*1 /\
  (forall Callee, occurrences Callee kept <= CallsToCalleeThreshold) /\
  multiplicityGuard kept [] = kept.*1.
Proof.
  intros Hlen kept.
  assert (Hguard : multiplicityGuard candidates [] = kept.*1)
    by (rewrite multiplicityGuard_filter by exact Hlen; reflexivity).
  assert (Hbound : forall Callee, occurrences Callee kept <= CallsToCalleeThreshold).
  { intros Callee. subst kept.
    pose proof (occurrences_filter
                  (fun c => occurrences c candidates <= CallsToCalleeThreshold)
                  candidates Callee) as Hocc.
    simpl in Hocc. rewrite Hocc.
    destruct (decide (occurrences Callee candidates <= CallsToCalleeThreshold));
      [assumption | unfold CallsToCalleeThreshold; lia]. }
  split; [| split; [exact Hguard |]; split; [| split; [exact Hbound |]]].
  - intros Applies. rewrite !multiplicityGuard_filter by exact Hlen. reflexivity.
  - rewrite Hguard. apply fmap_sublist. apply sublist_filter.
  - assert (Hkept : Z.of_nat (length kept) < UInt.modulus).
    { pose proof (length_filter
                    (fun p => occurrences p.2 candidates <= CallsToCalleeThreshold)
                    candidates).
      subst kept. lia. }
    rewrite multiplicityGuard_filter by exact Hkept. simpl. f_equal.
    apply filter_all. apply Forall_forall. intros p _. apply Hbound.
Qed.

Lemma guard_keeps_order_and_bound_witness :
  let candidates :=
    replicate 1025 (102%positive, 2%positive) ++ [(103%positive, 3%positive)] in
  Z.of_nat (length candidates) < UInt.modulus /\
  multiplicityGuard candidates [] = [103%positive] /\
  let kept :=
    filter (fun p => occurrences p.2 candidates <= CallsToCalleeThreshold) candidates in
  (forall Applies,
     multiplicityGuard candidates Applies = Applies ++ multiplicityGuard candidates []) /\
  multiplicityGuard candidates [] = kept.*1 /\
  multiplicityGuard candidates [] `sublist_of` candidates.*1 /\
  (forall Callee, occurrences Callee kept <= CallsToCalleeThreshold) /\
  multiplicityGuard kept [] = kept.*1.
Proof.
  intros candidates.
  assert (H : Z.of_nat (length candidates) < UInt.modulus) by (vm_compute; reflexivity).
  assert (Hrun : multiplicityGuard candidates [] = [103%positive])
    by (vm_compute; reflexivity).
  split; [exact H |]. split; [exact Hrun |].
  exact (guard_keeps_order_and_bound candidates H).
Defined.

End GuardExtra.

(** ** The cache of the tracker and the successors of a terminator *)

Section TerminatorExtra.

Variable E : Externals.
Variable M : SILModule.
Variable fuel : nat.

Lemma sameView_cache T T' : sameView T T' -> T' = set_constCache T (constCache T').
Proof.
  destruct T, T'. unfold sameView, set_constCache. simpl.
  intros (-> & -> & -> & -> & ->). reflexivity.
Qed.

Lemma getBuiltinConst_body_cache eval T BI ID c T' :
  (forall T val c T', eval T val = Ok (c, T') -> constCache T ⊆ constCache T') ->
  getBuiltinConst_body E eval T BI ID = Ok (c, T') -> constCache T ⊆ constCache T'.
Proof.
  intros Heval H.
  assert (Hbinary : forall fold divisor,
    (let* (lhs, T) := eval T (getOperand BI 0) in
     let* (rhs, T) := eval T (getOperand BI 1) in
     if isValid lhs && isValid rhs && (negb divisor || negb (value rhs =? 0))
     then Ok (IntConst_make (fold (value lhs) (value rhs) ID)
                (isFromCaller lhs || isFromCaller rhs), T)
     else Ok (IntConst_invalid, T)) = Ok (c, T') -> constCache T ⊆ constCache T').
  { intros fold divisor Hb.
    split_run Hb as r1 H1. destruct r1 as [lhs T1].
    split_run Hb as r2 H2. destruct r2 as [rhs T2].
    apply Heval in H1, H2.
    destruct (isValid lhs && isValid rhs && (negb divisor || negb (value rhs =? 0)));
      injection Hb as _ <-; etrans; eassumption. }
  assert (Hunary :
    (let* (val, T) := eval T (getOperand BI 0) in
     if isValid val
     then Ok (IntConst_make (constantFoldCast E (value val) ID) (isFromCaller val), T)
     else Ok (IntConst_invalid, T)) = Ok (c, T') -> constCache T ⊆ constCache T').
  { intros Hu. split_run Hu as r1 H1. destruct r1 as [val T1].
    apply Heval in H1. destruct (isValid val); injection Hu as _ <-; exact H1. }
  destruct ID;
    first
      [ exact (Hbinary (constantFoldComparison E) false H)
      | exact (Hbinary (constantFoldBinaryWithOverflow E) false H)
      | exact (Hbinary (constantFoldDiv E) true H)
      | exact (Hbinary (constantFoldBitOperation E) false H)
      | exact (Hunary H)
      | injection H as _ <-; reflexivity ].
Qed.

Lemma getIntConst_upto_cache depthLeft T val c T' :
  getIntConst_upto E M fuel depthLeft T val = Ok (c, T') ->
  constCache T ⊆ constCache T'.
Proof.
  revert T val c T'. induction depthLeft as [| k IH]; intros T val c T' H; simpl in H.
  - injection H as _ <-. reflexivity.
  - split_run H as def Hdef. destruct def as [d |];
      [| injection H as _ <-; reflexivity].
    split_run H as inst Hinst.
    destruct (getKind inst); try (injection H as _ <-; reflexivity).
    destruct (constCache T !! d) eqn:Hcache; [injection H as _ <-; reflexivity |].
    split_run H as r Hbody. destruct r as [builtinConst T1]. injection H as _ <-.
    apply getBuiltinConst_body_cache in Hbody; [| exact IH]. simpl.
    apply insert_subseteq_r; assumption.
Qed.

(** Property X11.  A run of [getIntConst] changes nothing of the tracker
    but its cache, and every entry that the cache had is still there with
    the same constant. *)
Theorem getIntConst_only_fills_cache T val depth c T' :
  getIntConst E M fuel T val depth = Ok (c, T') ->
  T' = set_constCache T (constCache T') /\
  forall BI cached, constCache T !! BI = Some cached -> constCache T' !! BI = Some cached.
Proof.
  unfold getIntConst. intros H. split.
  - apply sameView_cache. eapply getIntConst_upto_view. exact H.
  - intros BI cached Hcached.
    eapply lookup_weaken; [exact Hcached |].
    eapply getIntConst_upto_cache. exact H.
Qed.

Lemma switchValueCases_successor cases switchConst b :
  switchValueCases M cases switchConst = Some (Some b) -> b ∈ cases.*2.
Proof.
  induction cases as [| [caseValue caseBB] rest IH]; simpl; [discriminate |].
  destruct (asInstruction M caseValue) as [IL |]; [| discriminate].
  destruct (getKind IL); try discriminate.
  destruct (switchConst =? _).
  - intros [= <-]. left.
  - intros Hrest. right. apply IH. exact Hrest.
Qed.

Lemma switchEnumCases_successor cases element b :
  switchEnumCases cases element = Some b -> b ∈ cases.*2.
Proof.
  induction cases as [| [caseElement caseBB] rest IH]; simpl; [discriminate |].
  case_bool_decide as Helement.
  - intros [= <-]. left.
  - intros Hrest. right. apply IH. exact Hrest.
Qed.

(** Property X12.  The block that [getTakenBlock] returns is one of the
    successors that the terminator names, and the call changes nothing of
    the tracker but its cache. *)
Theorem taken_block_is_a_successor T term taken T' :
  getTakenBlock E M fuel T term = Ok (taken, T') ->
  T' = set_constCache T (constCache T') /\
  forall b, taken = Some b -> b ∈ getSuccessors term.
Proof.
  unfold getTakenBlock, getSuccessors, takenBlockOfConst. intros H.
  assert (Hsame : set_constCache T (constCache T) = T) by (destruct T; reflexivity).
  destruct (getKind term) eqn:Hkind;
    try (injection H as <- <-; split; [symmetry; exact Hsame | discriminate]).
  - split_run H as r Hconst. destruct r as [c T1]. injection H as <- <-.
    split; [apply sameView_cache; eapply getIntConst_upto_view; exact Hconst |].
    intros b Hb. destruct (isFromCaller c); [| discriminate].
    injection Hb as <-. destruct (negb (value c =? 0)); [left | right; left].
  - split_run H as r Hconst. destruct r as [c T1]. injection H as <- <-.
    split; [apply sameView_cache; eapply getIntConst_upto_view; exact Hconst |].
    intros b Hb. destruct (isFromCaller c); [| discriminate].
    apply elem_of_app.
    destruct (switchValueCases M cases (value c)) as [result |] eqn:Hcases.
    + subst result. left. eapply switchValueCases_successor. exact Hcases.
    + right. rewrite Hb. left.
  - split_run H as def Hdef.
    destruct def as [[d EI] |];
      [| injection H as <- <-; split; [symmetry; exact Hsame | discriminate]].
    destruct (getKind EI);
      try (injection H as <- <-; split; [symmetry; exact Hsame | discriminate]).
    destruct (switchEnumCases cases element) as [caseBB |] eqn:Hcases;
      injection H as <- <-; (split; [symmetry; exact Hsame |]); intros b Hb;
      apply elem_of_app.
    + injection Hb as <-. left. eapply switchEnumCases_successor. exact Hcases.
    + right. rewrite Hb. left.
  - split_run H as def Hdef.
    destruct def as [[d UCI] |];
      [| injection H as <- <-; split; [symmetry; exact Hsame | discriminate]].
    destruct (getKind UCI);
      try (injection H as <- <-; split; [symmetry; exact Hsame | discriminate]).
    destruct (isExactSuperclassOf E CastType (getType E (getOperand UCI 0))).
    { injection H as <- <-. split; [symmetry; exact Hsame |].
      intros b [= <-]. left. }
    destruct (negb (isBindableToSuperclassOf E (getType E (getOperand UCI 0)) CastType));
      injection H as <- <-; (split; [symmetry; exact Hsame |]); [| discriminate].
    intros b [= <-]. right. left.
Qed.

End TerminatorExtra.

Lemma getIntConst_only_fills_cache_witness :
  exists T',
    getIntConst Sample.externals Sample.localMemory 8 Sample.localMemoryTracker
      (Some 606%positive) 0 = Ok (IntConst_make 3 false, T') /\
    T' = set_constCache Sample.localMemoryTracker (constCache T') /\
    forall BI cached,
      constCache Sample.localMemoryTracker !! BI = Some cached ->
      constCache T' !! BI = Some cached.
Proof.
  destruct (getIntConst Sample.externals Sample.localMemory 8 Sample.localMemoryTracker
              (Some 606%positive) 0) as [[c T'] | e] eqn:Hrun;
    [| vm_compute in Hrun; discriminate Hrun].
  assert (Hc : c = IntConst_make 3 false)
    by (vm_compute in Hrun; injection Hrun as <- _; reflexivity).
  subst c. exists T'. split; [reflexivity |].
  exact (getIntConst_only_fills_cache Sample.externals Sample.localMemory 8
           Sample.localMemoryTracker (Some 606%positive) 0 _ T' Hrun).
Defined.

Lemma taken_block_is_a_successor_witness :
  let term :=
    {| getKind := CondBranchInst 21 22; getOperands := [Some 200%positive];
       inst_getFunction := 2%positive |} in
  exists T',
    getTakenBlock Sample.externals Sample.fallThrough 20 (Sample.calleeTracker 2) term
    = Ok (Some 21%positive, T') /\
    T' = set_constCache (Sample.calleeTracker 2) (constCache T') /\
    forall b, Some 21%positive = Some b -> b ∈ getSuccessors term.
Proof.
  intros term.
  destruct (getTakenBlock Sample.externals Sample.fallThrough 20
              (Sample.calleeTracker 2) term) as [[taken T'] | e] eqn:Hrun;
    [| vm_compute in Hrun; discriminate Hrun].
  assert (Htaken : taken = Some 21%positive)
    by (vm_compute in Hrun; injection Hrun as <- _; reflexivity).
  subst taken. exists T'. split; [reflexivity |].
  exact (taken_block_is_a_successor Sample.externals Sample.fallThrough 20
           (Sample.calleeTracker 2) term _ T' Hrun).
Defined.

(** ** The blocks that the walk of the callee visits *)

Section WalkExtra.

Variable E : Externals.
Variable M : SILModule.
Variable An : Analyses.
Variable C : Config.
Variable fuel : nat.

Lemma getNode_block n block found :
  getNode n block = Some found -> node_block found = block /\ found ∈ nodes n.
Proof.
  revert found. induction n as [b children IH] using node_induction.
  intros found H. simpl in H. case_bool_decide as Hb.
  - injection H as <-. split; [exact Hb | apply nodes_self].
  - assert (Hsearch : node_block found = block /\ found ∈ children ≫= nodes).
    { induction children as [| c rest IHrest]; [discriminate |].
      apply Forall_cons in IH as [IHc IHforall].
      destruct (getNode c block) as [found' |] eqn:Hc.
      - injection H as ->. destruct (IHc _ eq_refl) as [Hblock Hin].
        split; [exact Hblock |]. rewrite bind_cons. apply elem_of_app. left. exact Hin.
      - destruct (IHrest IHforall H) as [Hblock Hin].
        split; [exact Hblock |]. rewrite bind_cons. apply elem_of_app. right. exact Hin. }
    destruct Hsearch as [Hblock Hin]. split; [exact Hblock |]. simpl. right. exact Hin.
Qed.

Lemma walkCallee_trace n Callee buffer st w :
  walkCallee E M An fuel n Callee buffer st = Ok w ->
  exists more,
    visitedBlocks w = more ++ visitedBlocks st /\
    (length more <= n)%nat /\
    match buffer with
    | node :: _ => exists tk, last more = Some (node_block node, tk)
    | [] => more = []
    end.
Proof.
  revert buffer st. induction n as [| n IH]; intros buffer st H;
    destruct buffer as [| node rest]; simpl in H; try discriminate;
    try (injection H as <-; exists []; repeat split; simpl; lia).
  split_run H as r Hvisit. destruct r as [pushed st1].
  apply visitBlock_BlockVisit in Hvisit as (takenBlock & dropped & [Hrec _ _ _ _ _ _]).
  apply IH in H as (more & Hmore & Hlen & _).
  exists (more ++ [(node_block node, takenBlock)]).
  rewrite Hmore, Hrec, <- app_assoc. split; [reflexivity |].
  rewrite length_app. simpl. split; [lia |].
  exists takenBlock. apply last_snoc.
Qed.

(** Property X13.  The walk of the callee starts with the entry block,
    visits blocks of the dominator tree only and no more of them than the
    tree has nodes, and when the tree has every block once no block is
    visited twice. *)
Theorem callee_blocks_visited_once AI apply Callee CalleeF loopDepthOfAI
    callerTracker front root w :
  head (fn_blocks CalleeF) = Some front ->
  getNode (DA_get An Callee) front = Some root ->
  analyzeCallee E M An C fuel AI apply Callee CalleeF loopDepthOfAI callerTracker
  = Ok w ->
  (exists tk, last (visitedBlocks w) = Some (front, tk)) /\
  (length (visitedBlocks w) <= node_size root)%nat /\
  (forall b, b ∈ (visitedBlocks w).*1 -> b ∈ blocks root) /\
  (NoDup (blocks root) -> NoDup (visitedBlocks w).*1).
Proof.
  intros Hfront Hroot H. unfold analyzeCallee in H.
  rewrite Hfront in H. simpl in H. rewrite Hroot in H. simpl in H.
  set (st0 := {| CalleeCost := 0; Benefit := _; testThreshold := _;
                 constTracker := _; visitedBlocks := []; counted := [] |}) in H.
  destruct (getNode_block _ _ _ Hroot) as [Hblock _].
  split; [| split; [| split]].
  - apply walkCallee_trace in H as (more & Hmore & _ & tk & Hlast).
    simpl in Hmore. rewrite app_nil_r in Hmore. rewrite Hmore, <- Hblock.
    exists tk. exact Hlast.
  - apply walkCallee_trace in H as (more & Hmore & Hlen & _).
    simpl in Hmore. rewrite app_nil_r in Hmore. rewrite Hmore. exact Hlen.
  - assert (Hinv0 : WalkInvariant E M fuel root [root] st0).
    { constructor; simpl.
      - intros node ->%list_elem_of_singleton. apply nodes_self.
      - intros node ->%list_elem_of_singleton. left. reflexivity.
      - intros b tk Hin. inversion Hin.
      - intros b i cost Hin. inversion Hin.
      - intros b taken Hin. inversion Hin.
      - reflexivity. }
    pose proof (walkCallee_WalkInvariant _ _ _ _ _ _ _ _ _ _ H Hinv0)
      as [_ _ Hvisited _ _ _].
    intros b Hb. apply list_elem_of_fmap in Hb as [[b' tk] [-> Hin]]. simpl.
    destruct (Hvisited _ _ Hin) as (node & Hnode & <- & _).
    apply list_elem_of_fmap_2. exact Hnode.
  - intros Hnodup.
    assert (Hprune0 : PruneInvariant M root [] [root] st0).
    { constructor; simpl.
      - rewrite pending_cons. unfold pending. simpl. rewrite app_nil_r. exact Hnodup.
      - intros node ->%list_elem_of_singleton. apply nodes_self.
      - intros ? ? ? _ _ Hempty. inversion Hempty. }
    destruct (walkCallee_PruneInvariant _ _ _ _ _ _ _ _ _ _ _ Hnodup H Hprune0)
      as (skipped & [Hnd _ _]).
    apply NoDup_app in Hnd as (Hnd & _ & _). exact Hnd.
Qed.

End WalkExtra.

Lemma callee_blocks_visited_once_witness :
  exists w,
    (head (fn_blocks Sample.diamondCallee) = Some 40%positive /\
     getNode (DA_get Sample.diamondAnalyses 4%positive) 40%positive
     = Some Sample.diamondTree /\
     analyzeCallee Sample.externals Sample.diamond Sample.diamondAnalyses
       (Sample.config 10) 20 102%positive Sample.diamondCall 4%positive
       Sample.diamondCallee 0 (ConstantTracker_caller 1) = Ok w) /\
    (visitedBlocks w).*1 = [43; 41; 40]%positive /\
    (exists tk, last (visitedBlocks w) = Some (40%positive, tk)) /\
    (length (visitedBlocks w) <= node_size Sample.diamondTree)%nat /\
    (forall b, b ∈ (visitedBlocks w).*1 -> b ∈ blocks Sample.diamondTree) /\
    (NoDup (blocks Sample.diamondTree) -> NoDup (visitedBlocks w).*1).
Proof.
  assert (Hfront : head (fn_blocks Sample.diamondCallee) = Some 40%positive)
    by (vm_compute; reflexivity).
  assert (Hroot : getNode (DA_get Sample.diamondAnalyses 4%positive) 40%positive
                  = Some Sample.diamondTree) by (vm_compute; reflexivity).
  destruct (analyzeCallee Sample.externals Sample.diamond Sample.diamondAnalyses
              (Sample.config 10) 20 102%positive Sample.diamondCall 4%positive
              Sample.diamondCallee 0 (ConstantTracker_caller 1)) as [w | e] eqn:Hrun.
  - assert (Hvisited : (visitedBlocks w).*1 = [43; 41; 40]%positive)
      by (vm_compute in Hrun; injection Hrun as <-; reflexivity).
    exists w. split; [repeat split; assumption |]. split; [exact Hvisited |].
    exact (callee_blocks_visited_once Sample.externals Sample.diamond
             Sample.diamondAnalyses (Sample.config 10) 20 102%positive Sample.diamondCall
             4%positive Sample.diamondCallee 0 (ConstantTracker_caller 1) 40%positive
             Sample.diamondTree w Hfront Hroot Hrun).
  - exfalso. vm_compute in Hrun. discriminate Hrun.
Defined.

(** ** Where the candidates come from *)

Section TreeRegions.

Variable An : Analyses.

Lemma regularNodes_self n : n ∈ regularNodes An n.
Proof. destruct n. simpl. left. Qed.

Lemma nodes_subtree p c n : c ∈ node_children p -> n ∈ nodes c -> n ∈ nodes p.
Proof.
  intros Hc Hn. rewrite (nodes_unfold p). right.
  apply list_elem_of_bind. exists c. split; assumption.
Qed.

Lemma regularNodes_child root :
  forall p c,
    p ∈ regularNodes An root -> c ∈ node_children p ->
    isSlowPath An (node_block p) (node_block c) = false ->
    c ∈ regularNodes An root.
Proof.
  induction root as [b children IH] using node_induction.
  intros p c Hp Hc Hslow. simpl in Hp. apply elem_of_cons in Hp as [-> | Hp].
  - simpl in Hc, Hslow. simpl. right. apply list_elem_of_bind.
    exists c. split; [| exact Hc]. rewrite Hslow. apply regularNodes_self.
  - apply list_elem_of_bind in Hp as [c' [Hp Hin]].
    destruct (isSlowPath An b (node_block c')) eqn:Hslow'; [inversion Hp |].
    rewrite Forall_forall in IH. simpl. right. apply list_elem_of_bind.
    exists c'. split; [| exact Hin]. rewrite Hslow'. eapply IH; eassumption.
Qed.

Lemma coldNodes_child root :
  forall p c n,
    p ∈ regularNodes An root -> c ∈ node_children p ->
    isSlowPath An (node_block p) (node_block c) = true ->
    n ∈ nodes c -> n ∈ coldNodes An root.
Proof.
  induction root as [b children IH] using node_induction.
  intros p c n Hp Hc Hslow Hn. simpl in Hp. apply elem_of_cons in Hp as [-> | Hp].
  - simpl in Hc, Hslow. simpl. apply list_elem_of_bind.
    exists c. split; [| exact Hc]. rewrite Hslow. exact Hn.
  - apply list_elem_of_bind in Hp as [c' [Hp Hin]].
    destruct (isSlowPath An b (node_block c')) eqn:Hslow'; [inversion Hp |].
    rewrite Forall_forall in IH. simpl. apply list_elem_of_bind.
    exists c'. split; [| exact Hin]. rewrite Hslow'. eapply IH; eassumption.
Qed.




End TreeRegions.

Section CollectorExtra.

Variable E : Externals.
Variable M : SILModule.
Variable An : Analyses.
Variable C : Config.
Variable fuel : nat.

Lemma dumpCaller_statistic this Caller :
  NumFunctionsInlined (dumpCaller this Caller) = NumFunctionsInlined this.
Proof. unfold dumpCaller. case_bool_decide; reflexivity. Qed.

Lemma isProfitableToInline_statistic this AI loopDepth T blocks b blocks' this' :
  isProfitableToInline E M An C fuel this AI loopDepth T blocks = Ok (b, blocks', this') ->
  NumFunctionsInlined this' = NumFunctionsInlined this.
Proof.
  unfold isProfitableToInline. intros H.
  split_run H as apply Happly. split_run H as Callee HCallee.
  split_run H as CalleeF HCalleeF.
  destruct (getInlineStrategy CalleeF);
    try (injection H as _ _ <-; reflexivity);
    split_run H as w Hw; split_run H as CallerF HCallerF;
    destruct (_ <? _); injection H as _ _ <-; try reflexivity;
    destruct (DebugEnabled C); [apply dumpCaller_statistic | reflexivity
                               | apply dumpCaller_statistic | reflexivity].
Qed.

Lemma isProfitableInColdBlock_statistic this inst CalleeF b this' :
  isProfitableInColdBlock E M C this inst CalleeF = Ok (b, this') ->
  NumFunctionsInlined this' = NumFunctionsInlined this.
Proof.
  unfold isProfitableInColdBlock. intros H.
  destruct (getInlineStrategy CalleeF);
    try (injection H as _ <-; reflexivity);
    (destruct (0 <=? TestThreshold C); [injection H as _ <-; reflexivity |]);
    split_run H as insts Hinsts;
    destruct (coldBlockLoop E insts 0 (TestThreshold C)); injection H as _ <-;
    try reflexivity;
    destruct (DebugEnabled C); try reflexivity; apply dumpCaller_statistic.
Qed.

(** The decisions do not depend on the state of the inliner. *)
Lemma isProfitableToInline_any this AI loopDepth T blocks b blocks' this' :
  isProfitableToInline E M An C fuel this AI loopDepth T blocks = Ok (b, blocks', this') ->
  forall this0, exists blocks0 this1,
    isProfitableToInline E M An C fuel this0 AI loopDepth T blocks
    = Ok (b, blocks0, this1).
Proof.
  intros H this0.
  pose proof (isProfitableToInline_related E M An C fuel this this0 AI loopDepth T blocks)
    as Hrelated.
  rewrite H in Hrelated.
  destruct (isProfitableToInline E M An C fuel this0 AI loopDepth T blocks)
    as [[[b0 blocks0] this1] | e]; simpl in Hrelated; [| contradiction].
  injection Hrelated as <- <-. eauto.
Qed.

Lemma isProfitableInColdBlock_any this inst CalleeF b this' :
  isProfitableInColdBlock E M C this inst CalleeF = Ok (b, this') ->
  forall this0, exists this1,
    isProfitableInColdBlock E M C this0 inst CalleeF = Ok (b, this1).
Proof.
  intros H this0.
  pose proof (isProfitableInColdBlock_related E M C this this0 inst CalleeF) as Hrelated.
  rewrite H in Hrelated.
  destruct (isProfitableInColdBlock E M C this0 inst CalleeF) as [[b0 this1] | e];
    simpl in Hrelated; [| contradiction].
  subst b0. eauto.
Qed.

Lemma visitColdInstruction_collecting Caller root statistic node BB st i st' :
  node ∈ coldNodes An root -> mod_blocks M !! node_block node = Some BB ->
  i ∈ bb_instructions BB ->
  visitColdInstruction E M C st i = Ok st' ->
  collecting E M An C fuel Caller root statistic st.1 st.2 ->
  collecting E M An C fuel Caller root statistic st'.1 st'.2.
Proof.
  unfold visitColdInstruction. intros Hnode HBB Hi H [Hst Hstat].
  split_run H as inst Hinst.
  destruct (isApplyInst inst) eqn:Happly; [| injection H as <-; split; assumption].
  split_run H as Callee HCallee.
  destruct Callee as [Callee |]; [| injection H as <-; split; assumption].
  split_run H as CalleeF HCalleeF. split_run H as r Hcold.
  destruct r as [profitable this'].
  pose proof (isProfitableInColdBlock_statistic _ _ _ _ _ Hcold) as Hsame.
  destruct profitable; injection H as <-; simpl; (split; [| congruence]);
    [| exact Hst].
  apply Forall_app. split; [exact Hst |]. apply Forall_singleton.
  exists inst, Callee, CalleeF, node, BB. repeat (split; [assumption |]).
  right. split; [exact Hnode |]. split; [exact Happly |].
  eapply isProfitableInColdBlock_any. exact Hcold.
Qed.

Lemma visitColdInstructions_collecting Caller root statistic node BB insts st st' :
  node ∈ coldNodes An root -> mod_blocks M !! node_block node = Some BB ->
  (forall i, i ∈ insts -> i ∈ bb_instructions BB) ->
  visitColdInstructions E M C insts st = Ok st' ->
  collecting E M An C fuel Caller root statistic st.1 st.2 ->
  collecting E M An C fuel Caller root statistic st'.1 st'.2.
Proof.
  intros Hnode HBB. revert st.
  induction insts as [| i rest IH]; intros st Hinsts H Hst; simpl in H.
  - injection H as <-. exact Hst.
  - split_run H as st1 Hfirst. eapply IH; [| exact H |].
    + intros i' Hi'. apply Hinsts. right. exact Hi'.
    + eapply visitColdInstruction_collecting; try eassumption.
      apply Hinsts. left.
Qed.

Lemma visitColdBlocks_loop_collecting Caller root statistic n buffer st st' :
  (forall node n', node ∈ buffer -> n' ∈ nodes node -> n' ∈ coldNodes An root) ->
  visitColdBlocks_loop E M C n buffer st = Ok st' ->
  collecting E M An C fuel Caller root statistic st.1 st.2 ->
  collecting E M An C fuel Caller root statistic st'.1 st'.2.
Proof.
  revert buffer st. induction n as [| n IH]; intros buffer st Hcold H Hst;
    destruct buffer as [| node rest]; simpl in H;
    try (injection H as <-; exact Hst); try discriminate.
  split_run H as BB HBB. split_run H as st1 Hinsts.
  unfold getBasicBlock, deref in HBB.
  destruct (mod_blocks M !! node_block node) as [BB' |] eqn:Hlookup; [| discriminate].
  injection HBB as ->.
  eapply IH; [| exact H |].
  - intros c n' [Hc | Hc]%elem_of_app Hn'.
    + eapply Hcold; [right; exact Hc | exact Hn'].
    + eapply Hcold; [left |]. eapply nodes_subtree; eassumption.
  - eapply visitColdInstructions_collecting; try eassumption; [| auto].
    eapply Hcold; [left | apply nodes_self].
Qed.

Lemma collectInstruction_collecting Caller root statistic node BB before after T0
    st i st' :
  node ∈ regularNodes An root -> mod_blocks M !! node_block node = Some BB ->
  bb_instructions BB = before ++ i :: after ->
  sameIdentity (ConstantTracker_caller Caller) T0 ->
  trackInsts M fuel before (beginBlock T0) = Ok (callerConstTracker st) ->
  collectInstruction E M An C fuel (LI_getLoopDepth An Caller (node_block node)) st i
  = Ok st' ->
  collecting E M An C fuel Caller root statistic (InitialCandidates st) (inliner st) ->
  collecting E M An C fuel Caller root statistic (InitialCandidates st') (inliner st') /\
  trackInsts M fuel (before ++ [i]) (beginBlock T0) = Ok (callerConstTracker st').
Proof.
  unfold collectInstruction. intros Hnode HBB Hinsts Hid Hbefore H [Hst Hstat].
  split_run H as T HT. cbv zeta in H. split_run H as inst Hinst.
  assert (Htracks : trackInsts M fuel (before ++ [i]) (beginBlock T0) = Ok T)
    by (rewrite trackInsts_app, Hbefore; simpl; rewrite HT; reflexivity).
  destruct (isFullApplySite inst) eqn:Hsite; simpl in H;
    [| injection H as <-; simpl; repeat split; assumption].
  split_run H as Callee HCallee.
  destruct Callee as [Callee |]; [| injection H as <-; simpl; repeat split; assumption].
  split_run H as r Hprofitable. destruct r as [[profitable blocks] this'].
  pose proof (isProfitableToInline_statistic _ _ _ _ _ _ _ _ Hprofitable) as Hsame.
  injection H as <-. simpl. split; [| exact Htracks]. split; [| congruence].
  destruct profitable; [| exact Hst].
  apply Forall_app. split; [exact Hst |]. apply Forall_singleton.
  destruct (getEligibleFunction_Some _ _ _ _ _ HCallee) as (CalleeF & CallerF & []).
  exists inst, Callee, CalleeF, node, BB. repeat (split; [assumption |]).
  split; [rewrite Hinsts; apply elem_of_app; right; left |].
  left. split; [exact Hnode |]. split; [exact Hsite |].
  exists before, after, T0, T, (NumCallerBlocks st).
  repeat (split; [assumption |]).
  eapply isProfitableToInline_any. exact Hprofitable.
Qed.

Lemma collectInstructions_collecting Caller root statistic node BB T0 insts :
  node ∈ regularNodes An root -> mod_blocks M !! node_block node = Some BB ->
  sameIdentity (ConstantTracker_caller Caller) T0 ->
  forall before after st st',
    bb_instructions BB = before ++ insts ++ after ->
    trackInsts M fuel before (beginBlock T0) = Ok (callerConstTracker st) ->
    collectInstructions E M An C fuel (LI_getLoopDepth An Caller (node_block node))
      insts st = Ok st' ->
    collecting E M An C fuel Caller root statistic (InitialCandidates st) (inliner st) ->
    collecting E M An C fuel Caller root statistic (InitialCandidates st') (inliner st')
    /\ trackInsts M fuel (before ++ insts) (beginBlock T0) = Ok (callerConstTracker st').
Proof.
  intros Hnode HBB Hid.
  induction insts as [| i rest IH]; intros before after st st' Hinsts Hbefore H Hst;
    simpl in H.
  - injection H as <-. rewrite app_nil_r. split; assumption.
  - split_run H as st1 Hfirst.
    destruct (collectInstruction_collecting Caller root statistic node BB before
                (rest ++ after) T0 st i st1 Hnode HBB Hinsts Hid Hbefore Hfirst Hst)
      as [Hst1 Htracks].
    destruct (IH (before ++ [i]) after st1 st') as [Hst' Htracks'];
      try assumption.
    + rewrite Hinsts, <- app_assoc. reflexivity.
    + split; [exact Hst' |]. rewrite <- app_assoc in Htracks'. exact Htracks'.
Qed.

(** [pushChildrenIf] keeps an invariant of the state, and the children
    that it pushes are children that its predicate accepted. *)
Lemma pushChildrenIf_accepted {S : Type} (P : S -> Prop) (Q : DominanceInfoNode -> Prop)
    (pred : S -> DominanceInfoNode -> Result (bool * S)) children s pushed s' :
  (forall s child keep s',
     child ∈ children -> P s -> pred s child = Ok (keep, s') ->
     P s' /\ (keep = true -> Q child)) ->
  P s -> pushChildrenIf pred children s = Ok (pushed, s') ->
  P s' /\ Forall Q pushed.
Proof.
  revert s pushed. induction children as [| child rest IH];
    intros s pushed Hpred Hs H; simpl in H.
  - injection H as <- <-. split; [exact Hs | constructor].
  - split_run H as r Hchild. destruct r as [keep s1].
    split_run H as r' Hrest. destruct r' as [pushed' s2]. injection H as <- <-.
    destruct (Hpred s child keep s1 ltac:(left) Hs Hchild) as [Hs1 Hkeep].
    destruct (IH s1 pushed') as [Hs2 Hpushed]; try assumption.
    { intros s0 c k s0' Hc. apply Hpred. right. exact Hc. }
    split; [exact Hs2 |].
    destruct keep; [constructor; [apply Hkeep; reflexivity | exact Hpushed]
                   | exact Hpushed].
Qed.

Lemma collectBlock_collecting Caller root statistic node st pushed st' :
  node ∈ regularNodes An root ->
  sameIdentity (ConstantTracker_caller Caller) (callerConstTracker st) ->
  collectBlock E M An C fuel Caller node st = Ok (pushed, st') ->
  collecting E M An C fuel Caller root statistic (InitialCandidates st) (inliner st) ->
  (collecting E M An C fuel Caller root statistic (InitialCandidates st') (inliner st')
   /\ sameIdentity (ConstantTracker_caller Caller) (callerConstTracker st')) /\
  Forall (fun c => c ∈ regularNodes An root) pushed.
Proof.
  unfold collectBlock. intros Hnode Hid H Hst.
  split_run H as BB HBB. cbv zeta in H. split_run H as st1 Hinsts.
  unfold getBasicBlock, deref in HBB.
  destruct (mod_blocks M !! node_block node) as [BB' |] eqn:Hlookup; [| discriminate].
  injection HBB as ->.
  set (begun := {| callerConstTracker := beginBlock (callerConstTracker st);
                   NumCallerBlocks := NumCallerBlocks st;
                   InitialCandidates := InitialCandidates st;
                   inliner := inliner st |}) in Hinsts.
  assert (Hbegun : trackInsts M fuel [] (beginBlock (callerConstTracker st))
                   = Ok (callerConstTracker begun)) by reflexivity.
  assert (Hwhole : bb_instructions BB = [] ++ bb_instructions BB ++ [])
    by (rewrite app_nil_r; reflexivity).
  destruct (collectInstructions_collecting Caller root statistic node BB
              (callerConstTracker st) (bb_instructions BB) Hnode Hlookup Hid
              [] [] begun st1 Hwhole Hbegun Hinsts Hst)
    as [Hst1 Htracks].
  simpl in Htracks.
  assert (Hid1 : sameIdentity (ConstantTracker_caller Caller) (callerConstTracker st1)).
  { eapply sameIdentity_trans; [exact Hid |].
    eapply sameIdentity_trans; [| eapply trackInsts_identity; exact Htracks].
    repeat split. }
  eapply (pushChildrenIf_accepted
            (fun s => collecting E M An C fuel Caller root statistic
                        (InitialCandidates s) (inliner s) /\
                      sameIdentity (ConstantTracker_caller Caller)
                        (callerConstTracker s))
            (fun c => c ∈ regularNodes An root)); [| | exact H].
  - intros s child keep s1' Hchild [Hs Hids] Hrun. unfold collectChild in Hrun.
    destruct (isSlowPath An (node_block node) (node_block child)) eqn:Hslow.
    + split_run Hrun as r Hcold. destruct r as [candidates this'].
      injection Hrun as <- <-. simpl. split; [| discriminate].
      split; [| exact Hids].
      unfold visitColdBlocks in Hcold.
      apply (visitColdBlocks_loop_collecting Caller root statistic (node_size child)
               [child] (InitialCandidates s, inliner s) (candidates, this'));
        [| exact Hcold | exact Hs].
      intros c n' ->%list_elem_of_singleton Hn'.
      eapply coldNodes_child; eassumption.
    + injection Hrun as <- <-. split; [split; assumption |].
      intros _. eapply regularNodes_child; eassumption.
  - split; assumption.
Qed.

Lemma collectWalk_collecting Caller root statistic n buffer st st' :
  (forall node, node ∈ buffer -> node ∈ regularNodes An root) ->
  sameIdentity (ConstantTracker_caller Caller) (callerConstTracker st) ->
  collectWalk E M An C fuel n Caller buffer st = Ok st' ->
  collecting E M An C fuel Caller root statistic (InitialCandidates st) (inliner st) ->
  collecting E M An C fuel Caller root statistic (InitialCandidates st') (inliner st').
Proof.
  revert buffer st. induction n as [| n IH]; intros buffer st Hbuffer Hid H Hst;
    destruct buffer as [| node rest]; simpl in H;
    try (injection H as <-; exact Hst); try discriminate.
  split_run H as r Hblock. destruct r as [pushed st1].
  destruct (collectBlock_collecting Caller root statistic node st pushed st1
              ltac:(apply Hbuffer; left) Hid Hblock Hst) as [[Hst1 Hid1] Hpushed].
  eapply IH; [| exact Hid1 | exact H | exact Hst1].
  intros c [Hc | Hc]%elem_of_app.
  - apply Hbuffer. right. exact Hc.
  - rewrite Forall_forall in Hpushed. apply Hpushed. exact Hc.
Qed.

Lemma collectAppliesToInline_collecting this Caller Applies this' :
  collectAppliesToInline E M An C fuel this Caller [] = Ok (Applies, this') ->
  exists CallerF front root,
    getFunction M Caller = Ok CallerF /\
    head (fn_blocks CallerF) = Some front /\
    getNode (DA_get An Caller) front = Some root /\
    collecting E M An C fuel Caller root (NumFunctionsInlined this) Applies this'.
Proof.
  unfold collectAppliesToInline. intros H.
  split_run H as CallerF HCallerF. split_run H as front Hfront.
  split_run H as root Hroot. split_run H as st Hwalk.
  split_run H as resolved Hresolved. injection H as <- <-.
  exists CallerF, front, root. split; [exact HCallerF |].
  split; [unfold deref in Hfront; destruct (head (fn_blocks CallerF));
          [injection Hfront as ->; reflexivity | discriminate] |].
  split; [unfold deref in Hroot; destruct (getNode (DA_get An Caller) front);
          [injection Hroot as ->; reflexivity | discriminate] |].
  apply (collectWalk_collecting Caller root (NumFunctionsInlined this)) in Hwalk.
  - destruct Hwalk as [Hcands Hstat]. split; [| exact Hstat].
    apply Forall_forall. intros AI HAI.
    apply multiplicityGuard_subset in HAI as [HAI | HAI]; [inversion HAI |].
    rewrite (resolveCallees_fst _ _ _ Hresolved) in HAI.
    rewrite Forall_forall in Hcands. apply Hcands. exact HAI.
  - intros node ->%list_elem_of_singleton. apply regularNodes_self.
  - apply sameIdentity_refl.
  - split; [constructor | reflexivity].
Qed.


End CollectorExtra.


(** ** The outcome of the driver and of the pass *)

Section DriverExtra.

Variable E : Externals.
Variable Sv : Services.
Variable An : Analyses.
Variable fuel : nat.

(** The calls of [inlineFunction] that a run of the driver made. *)
Lemma inlineCallsIntoFunction_attempts C M this Caller b st :
  inlineCallsIntoFunction E Sv An C fuel M this Caller = Ok (b, st) ->
  exists attempts,
    spliced Sv M attempts (module st) /\
    inlined st = succeeded attempts /\
    (b = true <-> attempts <> []) /\
    (AssertsEnabled C = true -> Forall (fun p => p.2 = true) attempts) /\
    NumFunctionsInlined (driverInliner st)
    = match attempts with
      | [] => NumFunctionsInlined this
      | _ => UInt.wrap (NumFunctionsInlined this + Z.of_nat (length attempts))
      end /\
    (b = true ->
     exists CallerF Applies this',
       getFunction M Caller = Ok CallerF /\ shouldOptimize CallerF = true /\
       collectAppliesToInline E M An C fuel this Caller [] = Ok (Applies, this') /\
       attempts.*1 `sublist_of` Applies /\
       head attempts.*1 = head Applies).
Proof.
  intros H.
  destruct (inlineCallsIntoFunction_cases _ _ _ _ _ _ _ _ _ _ H)
    as (CallerF & HCallerF &
        [(Hopt & -> & ->) |
         (Hopt & Applies & this' & Hcollect &
          [(-> & -> & ->) |
           (AI & rest & Success & more & -> & -> & Hspliced & Hsub & Hinlined
            & Hall & Hcount)])]).
  - exists []. simpl. repeat split; try discriminate; try congruence. constructor.
  - apply collectAppliesToInline_collecting in Hcollect
      as (_ & _ & _ & _ & _ & _ & _ & Hstat).
    exists []. simpl. repeat split; try discriminate; try congruence. constructor.
  - pose proof (collectAppliesToInline_collecting _ _ _ _ _ _ _ _ _ Hcollect)
      as (_ & _ & _ & _ & _ & _ & _ & Hstat).
    exists ((AI, Success) :: more).
    split; [exact Hspliced |]. split; [exact Hinlined |].
    split; [split; [discriminate | reflexivity] |].
    split; [intros Hasserts; destruct (Hall Hasserts); constructor; assumption |].
    split; [rewrite Hcount, Hstat; reflexivity |].
    intros _. exists CallerF, (AI :: rest), this'.
    repeat (split; [assumption |]).
    split; [rewrite fmap_cons; apply sublist_skip; exact Hsub | reflexivity].
Qed.

(** Property X15.  The IR that [inlineCallsIntoFunction] leaves is the
    one that its calls of [inlineFunction], each followed by the deletion
    of the trivially dead instructions, make of the IR it was given.  It
    returns true exactly when it made such a call; the calls are on
    candidates of the collector, in the collector's order and starting
    with its first candidate.  [NumFunctionsInlined] grows, on
    [unsigned], by the number of the calls.  The inlined call sites are
    those for which [inlineFunction] returned true: with assertions, all
    of those it was called on. *)
Theorem driver_outcome C M this Caller b st :
  inlineCallsIntoFunction E Sv An C fuel M this Caller = Ok (b, st) ->
  exists attempts,
    spliced Sv M attempts (module st) /\
    inlined st = succeeded attempts /\
    (b = true <-> attempts <> []) /\
    (AssertsEnabled C = true -> inlined st = attempts.*1) /\
    NumFunctionsInlined (driverInliner st)
    = match attempts with
      | [] => NumFunctionsInlined this
      | _ => UInt.wrap (NumFunctionsInlined this + Z.of_nat (length attempts))
      end /\
    (b = true ->
     exists CallerF Applies this',
       getFunction M Caller = Ok CallerF /\ shouldOptimize CallerF = true /\
       collectAppliesToInline E M An C fuel this Caller [] = Ok (Applies, this') /\
       attempts.*1 `sublist_of` Applies /\
       head attempts.*1 = head Applies).
Proof.
  intros H.
  destruct (inlineCallsIntoFunction_attempts _ _ _ _ _ _ H)
    as (attempts & Hspliced & Hinlined & Hiff & Hall & Hcount & Htrue).
  exists attempts. repeat (split; [assumption |]).
  split; [| split; assumption].
  intros Hasserts. rewrite Hinlined. apply succeeded_all. exact (Hall Hasserts).
Qed.

(** Property X16.  The pass invalidates the analyses and restarts the
    pipeline together, and exactly when it called [inlineFunction]: with
    assertions, exactly when a call site was inlined.  The IR it leaves
    is the one that these calls make of the IR it was given, so it is
    unchanged without a restart, and an inline threshold of 0 turns the
    pass off.  The statistic grows, on [unsigned], by the number of the
    calls. *)
Theorem pass_restarts_iff_inlined C M statistic Fn r :
  run E Sv An fuel C M statistic Fn = Ok r ->
  pass_invalidated r = pass_restarted r /\
  (InlineCostThreshold C = 0 -> pass_restarted r = false) /\
  exists attempts,
    spliced Sv M attempts (pass_module r) /\
    pass_inlined r = succeeded attempts /\
    (pass_restarted r = true <-> attempts <> []) /\
    (AssertsEnabled C = true ->
     (pass_restarted r = true <-> pass_inlined r <> []) /\
     pass_inlined r = attempts.*1) /\
    pass_NumFunctionsInlined r
    = match attempts with
      | [] => statistic
      | _ => UInt.wrap (statistic + Z.of_nat (length attempts))
      end.
Proof.
  unfold run. intros H.
  destruct (Z.eqb_spec (InlineCostThreshold C) 0) as [Hzero | Hnonzero].
  { injection H as <-. simpl. split; [reflexivity |]. split; [reflexivity |].
    exists []. simpl. repeat split; try discriminate; congruence. }
  split_run H as FnF HFnF. split_run H as u Hdefinition.
  split_run H as p Hdriver. destruct p as [changed st]. injection H as <-. simpl.
  split; [reflexivity |]. split; [contradiction |].
  destruct (inlineCallsIntoFunction_attempts _ _ _ _ _ _ Hdriver)
    as (attempts & Hspliced & Hinlined & Hiff & Hall & Hcount & _).
  exists attempts. repeat (split; [assumption |]).
  split; [| exact Hcount].
  intros Hasserts.
  assert (Hsame : inlined st = attempts.*1)
    by (rewrite Hinlined; apply succeeded_all; exact (Hall Hasserts)).
  split; [| exact Hsame].
  rewrite Hiff, Hsame. destruct attempts; simpl; split; congruence.
Qed.

(** Property X17.  Every call site that the pass inlines is a full apply
    site without substitutions whose callee has a body, is not marked
    no-inline or opt-never and does not bind dynamic Self.  In the early
    pass the callee has no semantics attribute, no effects attribute and
    is no global initializer; in the middle pass it has no availability
    attribute, and it is a global initializer only if it has a semantics
    or an effects attribute. *)
Theorem pass_never_inlines C M statistic Fn r AI :
  run E Sv An fuel C M statistic Fn = Ok r ->
  AI ∈ pass_inlined r ->
  exists inst Callee CalleeF,
    getInstruction M AI = Ok inst /\
    isFullApplySite inst = true /\
    hasSubstitutions inst = false /\
    getReferencedFunction M inst = Some Callee /\
    getFunction M Callee = Ok CalleeF /\
    fn_empty CalleeF = false /\
    isExternalDeclaration CalleeF = false /\
    getInlineStrategy CalleeF <> NoInline /\
    shouldOptimize CalleeF = true /\
    computeMayBindDynamicSelf E CalleeF = false /\
    (WhatToInline C = createEarlyInliner ->
     hasSemanticsAttrs CalleeF = false /\ hasEffectsKind CalleeF = false /\
     isGlobalInit CalleeF = false) /\
    (WhatToInline C = createPerfInliner ->
     hasSemanticsAttrThatStartsWith CalleeF "availability" = false /\
     (isGlobalInit CalleeF = true ->
      hasSemanticsAttrs CalleeF || hasEffectsKind CalleeF = true)).
Proof.
  unfold run. intros H HAI.
  destruct (InlineCostThreshold C =? 0); [injection H as <-; inversion HAI |].
  split_run H as FnF HFnF. split_run H as u Hdefinition.
  split_run H as p Hdriver. destruct p as [changed st]. injection H as <-.
  simpl in HAI.
  destruct (inlineCallsIntoFunction_attempts _ _ _ _ _ _ Hdriver)
    as (attempts & _ & Hinlined & Hiff & _ & _ & Htrue).
  assert (Hattempt : AI ∈ attempts.*1)
    by (rewrite Hinlined in HAI; exact (elem_of_sublist _ _ _ HAI
                                          (succeeded_sublist attempts))).
  assert (Hchanged : changed = true).
  { apply Hiff. intros ->. inversion Hattempt. }
  destruct (Htrue Hchanged)
    as (CallerF & Applies & this' & _ & _ & Hcollect & Hsub & _).
  assert (Hin : AI ∈ Applies) by (eapply elem_of_sublist; eassumption).
  apply collectAppliesToInline_collecting in Hcollect
    as (_ & _ & root & _ & _ & _ & Hcands & _).
  rewrite Forall_forall in Hcands.
  destruct (Hcands AI Hin)
    as (inst & Callee & CalleeF & node & BB & Hinst & Heligible & HCalleeF & _ & _
        & Hcheck).
  destruct (getEligibleFunction_Some _ _ _ _ _ Heligible) as (CalleeF' & CallerF' & []).
  assert (CalleeF' = CalleeF) as -> by congruence.
  destruct eligible_body0 as [Hempty Hexternal].
  exists inst, Callee, CalleeF.
  split; [exact Hinst |]. split.
  { destruct Hcheck as [(_ & Hsite & _) | (_ & Happly & _)]; [exact Hsite |].
    unfold isApplyInst in Happly. unfold isFullApplySite.
    destruct (getKind inst); try discriminate; reflexivity. }
  repeat (split; [assumption |]).
  unfold skippedBySelection in eligible_selection0.
  unfold hasSemanticsAttrThatStartsWith, hasSemanticsAttrs in *.
  split.
  - intros Hearly. rewrite Hearly in eligible_selection0.
    unfold createEarlyInliner in eligible_selection0.
    destruct (getSemanticsAttrs CalleeF); destruct (hasEffectsKind CalleeF);
      destruct (isGlobalInit CalleeF); simpl in *; try discriminate; auto.
  - intros Hperf. rewrite Hperf in eligible_selection0.
    unfold createPerfInliner in eligible_selection0.
    destruct (getSemanticsAttrs CalleeF) as [| attr attrs];
      destruct (hasEffectsKind CalleeF);
      destruct (isGlobalInit CalleeF); simpl in *; try discriminate; auto.
Qed.

End DriverExtra.

Lemma driver_outcome_witness :
  let E := Sample.externals in
  let An := Sample.fallThroughAnalyses in
  let C := Sample.config (-1) in
  let M := Sample.fallThrough in
  exists st,
    inlineCallsIntoFunction E Sample.services An C 20 M Sample.fresh 1%positive
    = Ok (true, st) /\
    inlined st = [102%positive] /\
    NumFunctionsInlined (driverInliner st) = 1 /\
    exists attempts,
      spliced Sample.services M attempts (module st) /\
      inlined st = succeeded attempts /\
      (true = true <-> attempts <> []) /\
      (AssertsEnabled C = true -> inlined st = attempts.*1) /\
      NumFunctionsInlined (driverInliner st)
      = match attempts with
        | [] => NumFunctionsInlined Sample.fresh
        | _ => UInt.wrap (NumFunctionsInlined Sample.fresh + Z.of_nat (length attempts))
        end /\
      (true = true ->
       exists CallerF Applies this',
         getFunction M 1%positive = Ok CallerF /\ shouldOptimize CallerF = true /\
         collectAppliesToInline E M An C 20 Sample.fresh 1%positive []
         = Ok (Applies, this') /\
         attempts.*1 `sublist_of` Applies /\
         head attempts.*1 = head Applies).
Proof.
  intros E An C M.
  destruct (inlineCallsIntoFunction E Sample.services An C 20 M Sample.fresh 1%positive)
    as [[b st] | e] eqn:Hrun; [| vm_compute in Hrun; discriminate Hrun].
  assert (Hb : b = true) by (vm_compute in Hrun; injection Hrun as <- _; reflexivity).
  assert (Hinlined : inlined st = [102%positive])
    by (vm_compute in Hrun; injection Hrun as _ <-; reflexivity).
  assert (Hcount : NumFunctionsInlined (driverInliner st) = 1)
    by (vm_compute in Hrun; injection Hrun as _ <-; reflexivity).
  subst b. exists st. split; [reflexivity |].
  split; [exact Hinlined |]. split; [exact Hcount |].
  exact (driver_outcome E Sample.services An 20 C M Sample.fresh 1%positive
           true st Hrun).
Defined.

Lemma pass_restarts_iff_inlined_witness :
  exists r,
    run Sample.externals Sample.services Sample.fallThroughAnalyses 20
      (Sample.config (-1)) Sample.fallThrough 4294967295 1%positive = Ok r /\
    pass_inlined r = [102%positive] /\
    pass_NumFunctionsInlined r = 0 /\
    pass_invalidated r = pass_restarted r /\
    (InlineCostThreshold (Sample.config (-1)) = 0 -> pass_restarted r = false) /\
    exists attempts,
      spliced Sample.services Sample.fallThrough attempts (pass_module r) /\
      pass_inlined r = succeeded attempts /\
      (pass_restarted r = true <-> attempts <> []) /\
      (AssertsEnabled (Sample.config (-1)) = true ->
       (pass_restarted r = true <-> pass_inlined r <> []) /\
       pass_inlined r = attempts.*1) /\
      pass_NumFunctionsInlined r
      = match attempts with
        | [] => 4294967295
        | _ => UInt.wrap (4294967295 + Z.of_nat (length attempts))
        end.
Proof.
  destruct (run Sample.externals Sample.services Sample.fallThroughAnalyses 20
              (Sample.config (-1)) Sample.fallThrough 4294967295 1%positive)
    as [r | e] eqn:Hrun; [| vm_compute in Hrun; discriminate Hrun].
  assert (Hinlined : pass_inlined r = [102%positive])
    by (vm_compute in Hrun; injection Hrun as <-; reflexivity).
  assert (Hcount : pass_NumFunctionsInlined r = 0)
    by (vm_compute in Hrun; injection Hrun as <-; reflexivity).
  exists r. split; [reflexivity |]. split; [exact Hinlined |]. split; [exact Hcount |].
  exact (pass_restarts_iff_inlined Sample.externals Sample.services
           Sample.fallThroughAnalyses 20 (Sample.config (-1)) Sample.fallThrough
           4294967295 1%positive r Hrun).
Defined.

Lemma pass_never_inlines_witness :
  let E := Sample.externals in
  let M := Sample.fallThrough in
  let C := withSelection (Sample.config (-1)) createEarlyInliner in
  exists r,
    run E Sample.services Sample.fallThroughAnalyses 20 C M 0 1%positive = Ok r /\
    102%positive ∈ pass_inlined r /\
    exists inst Callee CalleeF,
      getInstruction M 102 = Ok inst /\
      isFullApplySite inst = true /\
      hasSubstitutions inst = false /\
      getReferencedFunction M inst = Some Callee /\
      getFunction M Callee = Ok CalleeF /\
      fn_empty CalleeF = false /\
      isExternalDeclaration CalleeF = false /\
      getInlineStrategy CalleeF <> NoInline /\
      shouldOptimize CalleeF = true /\
      computeMayBindDynamicSelf E CalleeF = false /\
      (WhatToInline C = createEarlyInliner ->
       hasSemanticsAttrs CalleeF = false /\ hasEffectsKind CalleeF = false /\
       isGlobalInit CalleeF = false) /\
      (WhatToInline C = createPerfInliner ->
       hasSemanticsAttrThatStartsWith CalleeF "availability" = false /\
       (isGlobalInit CalleeF = true ->
        hasSemanticsAttrs CalleeF || hasEffectsKind CalleeF = true)).
Proof.
  intros E M C.
  destruct (run E Sample.services Sample.fallThroughAnalyses 20 C M 0 1%positive)
    as [r | e] eqn:Hrun; [| vm_compute in Hrun; discriminate Hrun].
  assert (Hin : 102%positive ∈ pass_inlined r)
    by (vm_compute in Hrun; injection Hrun as <-; simpl; left).
  exists r. split; [reflexivity |]. split; [exact Hin |].
  exact (pass_never_inlines E Sample.services Sample.fallThroughAnalyses 20 C M 0
           1%positive r 102%positive Hrun Hin).
Defined.

(** ** The constant tracker: a value copied in memory *)

Section TrackerCopy.

Variable M : SILModule.
Variable fuel : nat.

Lemma getStoredValue_loop_step n T loadInst projStack :
  getStoredValue_loop M fuel (S n) T loadInst projStack =
  match
    match links T !! loadInst with
    | Some s => Some s
    | None =>
        match callerTracker T with
        | Some caller => links caller !! loadInst
        | None => None
        end
    end
  with
  | None => Ok (None, projStack)
  | Some store =>
      let* load := getInstruction M loadInst in
      let* _ := assert (isLoadOrCopyAddr load) in
      let* (_, loadProjections) := scanProjections M fuel T (getOperand load 0) in
      let projStack := fold_left (fun s p => p :: s) loadProjections projStack in
      let* storeI := getInstruction M store in
      let* (_, storeProjections) := scanProjections M fuel T (getOperand storeI 1) in
      let '(matched, projStack) := popProjections (rev storeProjections) projStack in
      if matched then
        match getKind storeI with
        | StoreInst => Ok (getOperand storeI 0, projStack)
        | CopyAddrInst _ => getStoredValue_loop M fuel n T store projStack
        | _ => Error AssertionFailed
        end
      else Ok (None, projStack)
  end.
Proof. reflexivity. Qed.

(** One step of [getStoredValue] from a load or a copy whose address has
    the projections of the address that its link wrote to. *)
Lemma getStoredValue_loop_linked n T loadInst load store storeI base base' projections
    projStack :
  links T !! loadInst = Some store ->
  getInstruction M loadInst = Ok load -> isLoadOrCopyAddr load = true ->
  getInstruction M store = Ok storeI ->
  scanProjections M fuel T (getOperand load 0) = Ok (base, projections) ->
  scanProjections M fuel T (getOperand storeI 1) = Ok (base', projections) ->
  getStoredValue_loop M fuel (S n) T loadInst projStack =
  match getKind storeI with
  | StoreInst => Ok (getOperand storeI 0, projStack)
  | CopyAddrInst _ => getStoredValue_loop M fuel n T store projStack
  | _ => Error AssertionFailed
  end.
Proof.
  intros Hlink Hload Hkind Hstore Hscan Hscan'.
  rewrite getStoredValue_loop_step, Hlink, Hload. simpl.
  rewrite Hkind. simpl. rewrite Hscan. simpl. rewrite Hstore. simpl.
  rewrite Hscan'. simpl.
  rewrite push_projections, popProjections_pushed. reflexivity.
Qed.

(** Property X18.  A value that is stored, copied by a [copy_addr] that
    does not take its source, and loaded from the destination of the copy
    is found again: the load is linked to the copy, the copy to the
    store, and the stored value of the load is the value of the store.
    The addresses of the store and of the source lead to the same base
    through the same projections, and so do the destination and the
    address of the load. *)
Theorem load_through_copy_addr T store SI copy CI load LI val storeAddr srcAddr
    dstAddr loadAddr base projections base' projections' projStack :
  (2 <= fuel)%nat ->
  getInstruction M store = Ok SI -> getKind SI = StoreInst ->
  getOperands SI = [val; storeAddr] ->
  getInstruction M copy = Ok CI -> getKind CI = CopyAddrInst false ->
  getOperands CI = [srcAddr; dstAddr] ->
  getInstruction M load = Ok LI -> getKind LI = LoadInst ->
  getOperands LI = [loadAddr] ->
  scanProjections M fuel T storeAddr = Ok (base, projections) ->
  scanProjections M fuel T srcAddr = Ok (base, projections) ->
  scanProjections M fuel T dstAddr = Ok (base', projections') ->
  scanProjections M fuel T loadAddr = Ok (base', projections') ->
  exists T1 T2 T3,
    trackInst M fuel T store = Ok T1 /\
    trackInst M fuel T1 copy = Ok T2 /\
    trackInst M fuel T2 load = Ok T3 /\
    links T3 !! copy = Some store /\
    links T3 !! load = Some copy /\
    getStoredValue M fuel T3 load projStack = Ok (val, projStack).
Proof.
  intros Hfuel HSI Hstore Hops HCI Hcopy Hopc HLI Hload Hopl Hscan Hsrc Hdst Hscanl.
  assert (Hop1 : getOperand SI 1 = storeAddr)
    by (unfold getOperand; rewrite Hops; reflexivity).
  assert (Hop0 : getOperand SI 0 = val) by (unfold getOperand; rewrite Hops; reflexivity).
  assert (Hopc0 : getOperand CI 0 = srcAddr)
    by (unfold getOperand; rewrite Hopc; reflexivity).
  assert (Hopc1 : getOperand CI 1 = dstAddr)
    by (unfold getOperand; rewrite Hopc; reflexivity).
  assert (Hopl0 : getOperand LI 0 = loadAddr)
    by (unfold getOperand; rewrite Hopl; reflexivity).
  assert (Hne : load <> copy) by (intros ->; congruence).
  set (T1 := set_memoryContent T (<[base := store]> (memoryContent T))).
  set (T1' := set_links T1 (<[copy := store]> (links T1))).
  set (T2 := set_memoryContent T1' (<[base' := copy]> (memoryContent T1'))).
  set (T3 := set_links T2 (<[load := copy]> (links T2))).
  assert (Hview : forall T' addr r,
            AI T = AI T' -> F T = F T' ->
            scanProjections M fuel T addr = r -> scanProjections M fuel T' addr = r).
  { intros T' addr r HAI HF <-. symmetry. apply scanProjections_loop_view; assumption. }
  exists T1, T2, T3. split; [| split; [| split; [| split; [| split]]]].
  - unfold trackInst. rewrite HSI. simpl. rewrite Hstore, Hop1, Hscan. reflexivity.
  - unfold trackInst. rewrite HCI. simpl. rewrite Hcopy. simpl.
    rewrite Hopc0, (Hview T1 _ _ eq_refl eq_refl Hsrc). simpl.
    rewrite lookup_insert_eq.
    change (set_links T1 (<[copy:=store]> (links T))) with T1'.
    rewrite Hopc1, (Hview T1' _ _ eq_refl eq_refl Hdst). reflexivity.
  - unfold trackInst. rewrite HLI. simpl. rewrite Hload.
    rewrite Hopl0, (Hview T2 _ _ eq_refl eq_refl Hscanl). simpl.
    rewrite lookup_insert_eq. reflexivity.
  - simpl. rewrite lookup_insert_ne by exact Hne. apply lookup_insert_eq.
  - simpl. apply lookup_insert_eq.
  - assert (Hloop : forall k,
              getStoredValue_loop M fuel (S (S k)) T3 load projStack
              = Ok (val, projStack)).
    { intros k.
      rewrite (getStoredValue_loop_linked (S k) T3 load LI copy CI base' base'
                 projections' projStack);
        [| simpl; apply lookup_insert_eq | exact HLI
         | unfold isLoadOrCopyAddr; rewrite Hload; reflexivity | exact HCI
         | rewrite Hopl0; apply (Hview T3 _ _ eq_refl eq_refl Hscanl)
         | rewrite Hopc1; apply (Hview T3 _ _ eq_refl eq_refl Hdst) ].
      rewrite Hcopy.
      rewrite (getStoredValue_loop_linked k T3 copy CI store SI base base
                 projections projStack);
        [| simpl; rewrite lookup_insert_ne by exact Hne; apply lookup_insert_eq
         | exact HCI | unfold isLoadOrCopyAddr; rewrite Hcopy; reflexivity | exact HSI
         | rewrite Hopc0; apply (Hview T3 _ _ eq_refl eq_refl Hsrc)
         | rewrite Hop1; apply (Hview T3 _ _ eq_refl eq_refl Hscan) ].
      rewrite Hstore, Hop0. reflexivity. }
    unfold getStoredValue.
    destruct fuel as [| [| k]] eqn:Hk; [lia | lia |].
    rewrite <- Hk. specialize (Hloop k). rewrite <- Hk in Hloop. exact Hloop.
Qed.

End TrackerCopy.

Lemma load_through_copy_addr_witness :
  exists T1 T2 T3,
    trackInst Sample.copiedMemory 8 (ConstantTracker_caller 9) 903 = Ok T1 /\
    trackInst Sample.copiedMemory 8 T1 904 = Ok T2 /\
    trackInst Sample.copiedMemory 8 T2 905 = Ok T3 /\
    links T3 !! 904%positive = Some 903%positive /\
    links T3 !! 905%positive = Some 904%positive /\
    getStoredValue Sample.copiedMemory 8 T3 905 [] = Ok (Some 902%positive, []).
Proof.
  set (M := Sample.copiedMemory). set (T := ConstantTracker_caller 9).
  set (SI := {| getKind := StoreInst; getOperands := [Some 902%positive; Some 900%positive];
                inst_getFunction := 9%positive |}).
  set (CI := {| getKind := CopyAddrInst false;
                getOperands := [Some 900%positive; Some 901%positive];
                inst_getFunction := 9%positive |}).
  set (LI := {| getKind := LoadInst; getOperands := [Some 901%positive];
                inst_getFunction := 9%positive |}).
  assert (Hfuel : (2 <= 8)%nat) by lia.
  assert (H1 : getInstruction M 903 = Ok SI) by (vm_compute; reflexivity).
  assert (H2 : getKind SI = StoreInst) by reflexivity.
  assert (H3 : getOperands SI = [Some 902%positive; Some 900%positive]) by reflexivity.
  assert (H4 : getInstruction M 904 = Ok CI) by (vm_compute; reflexivity).
  assert (H5 : getKind CI = CopyAddrInst false) by reflexivity.
  assert (H6 : getOperands CI = [Some 900%positive; Some 901%positive]) by reflexivity.
  assert (H7 : getInstruction M 905 = Ok LI) by (vm_compute; reflexivity).
  assert (H8 : getKind LI = LoadInst) by reflexivity.
  assert (H9 : getOperands LI = [Some 901%positive]) by reflexivity.
  assert (Ha : scanProjections M 8 T (Some 900%positive) = Ok (Some 900%positive, []))
    by (vm_compute; reflexivity).
  assert (Hb : scanProjections M 8 T (Some 901%positive) = Ok (Some 901%positive, []))
    by (vm_compute; reflexivity).
  exact (load_through_copy_addr M 8 T 903 SI 904 CI 905 LI (Some 902%positive)
           (Some 900%positive) (Some 900%positive) (Some 901%positive)
           (Some 901%positive) (Some 900%positive) [] (Some 901%positive) [] []
           Hfuel H1 H2 H3 H4 H5 H6 H7 H8 H9 Ha Ha Hb Hb).
Defined.
